(** * pva2pva: the monitor cache (p2pApp/moncache.cpp)

    A shallow embedding of [MonitorCacheEntry] (one per upstream
    subscription) and [MonitorUser] (one per downstream consumer), and the
    properties of their buffer management.

    - Objects that the C++ code reaches through [shared_ptr]s live in an
      explicit heap and are named by addresses, so that two pointers to one
      object stay two names of one object in the model.
    - Each block that the code runs under a lock is one step.  The steps of
      one handle ([deliver], [poll], [release], [stop], [destroy]) are
      composed in every order by [run], and together with [start] by
      [life_run]; the member functions of the entry are functions on a
      [World] that holds the entry, its handles and the heap.
    - Calls that leave the monitor cache (to a requester, to the upstream
      monitor, to [std::cout]) are appended to a log; what the callee does
      in turn is a later call of the model.
    - A member function returns, throws, or dereferences a null pointer:
      the three cases of [result].
    - [unlisten] and the destructor of the entry act on the reference to
      the upstream monitor only, which is modelled on its own ([Link]).
      [getRequesterName] and [message] touch neither the queues nor the
      cached values and are left out. *)

From stdpp Require Import gmap strings list fin_maps fin_sets.
From Stdlib Require Import ZArith Lia.

Set Warnings "-clear-no-such-hyp".

Open Scope Z_scope.

(** ** pvData values used by the monitor cache *)

(** [epics::pvData::Status]: a severity and a message.  [isSuccess] holds
    of OK and WARNING. *)
Inductive StatusType :=
  | STATUSTYPE_OK
  | STATUSTYPE_WARNING
  | STATUSTYPE_ERROR
  | STATUSTYPE_FATAL.

Record Status := mkStatus { status_type : StatusType; status_message : string }.

Definition isSuccess (s : Status) : bool :=
  match status_type s with
  | STATUSTYPE_OK | STATUSTYPE_WARNING => true
  | STATUSTYPE_ERROR | STATUSTYPE_FATAL => false
  end.

(** [pvd::Status()] and [pvd::Status::Ok]. *)
Definition Status_Ok : Status := mkStatus STATUSTYPE_OK EmptyString.

(** Heap addresses.  A nullable smart pointer is an [option addr]. *)
Abbreviation addr := nat (only parsing).

(** [StructureConstPtr]: the data-shape descriptor, opaque here. *)
Abbreviation StructureConstPtr := (option nat) (only parsing).

(** [epics::pvData::MonitorElement]: three shared pointers, to the payload
    structure and to the two bit sets. *)
Record MonitorElement := mkElem {
  pvStructurePtr : option addr;
  changedBitSet : option addr;
  overrunBitSet : option addr
}.

(** [size_t] counters, bumped with [epicsAtomicIncrSizeT]; 64 bits wide, as
    on the usual 64-bit targets.  The proofs use only that the modulus is
    positive. *)
Definition size_t_bits : Z := 64.
Definition size_t_modulus : Z := 2 ^ size_t_bits.
Definition wrap (z : Z) : Z := z mod size_t_modulus.
Definition epicsAtomicIncrSizeT (c : Z) : Z := wrap (c + 1).

(** ** The heap *)

Record Heap := mkHeap {
  next : addr;                               (* first address never handed out *)
  structures : gmap addr (option nat);       (* PVStructure objects, by shape *)
  bitsets : gmap addr (gset nat);            (* BitSet objects *)
  elements : gmap addr MonitorElement        (* MonitorElement objects *)
}.

(** [new pvd::MonitorElement(fact->createPVStructure(typedesc))]: a fresh
    structure of the given shape, two fresh empty bit sets and the element
    that points at them. *)
Definition new_MonitorElement (typedesc : option nat) (h : Heap) : addr * Heap :=
  let s := next h in
  let c := S (next h) in
  let o := S (S (next h)) in
  let e := S (S (S (next h))) in
  (e, {| next := S e;
         structures := <[s := typedesc]> (structures h);
         bitsets := <[o := ∅]> (<[c := ∅]> (bitsets h));
         elements := <[e := mkElem (Some s) (Some c) (Some o)]> (elements h) |}).

(** ** MonitorUser *)

(** The queues hold pointers to [MonitorElement]s; [start] gives every slot
    an element, so no slot is null and the queues are lists of addresses. *)
Record MonitorUser := mkUser {
  req : option addr;        (* weak pointer to the requester; None once released *)
  running : bool;
  empty : list addr;        (* std::deque of free buffers *)
  filled : list addr;       (* std::deque of filled buffers *)
  inuse : gset addr;        (* std::set of buffers lent to the consumer *)
  nevents : Z;
  ndropped : Z;
  nwakeups : Z
}.

(** The constructor initialises [running], [nevents] and [ndropped]; the
    queues start empty and [nwakeups] is whatever the caller finds there. *)
Definition MonitorUser_new (r : option addr) (nwakeups0 : Z) : MonitorUser :=
  {| req := r; running := false; empty := []; filled := []; inuse := ∅;
     nevents := 0; ndropped := 0; nwakeups := nwakeups0 |}.

(** What the locked block of [monitorEvent] does to one handle. *)
Inductive delivery :=
  | Dropped
  | Delivered (notify : bool).

(** The drop branch: [epicsAtomicIncrSizeT(&usr->ndropped); continue;]. *)
Definition count_drop (usr : MonitorUser) : MonitorUser :=
  {| req := req usr; running := running usr;
     empty := empty usr; filled := filled usr; inuse := inuse usr;
     nevents := nevents usr;
     ndropped := epicsAtomicIncrSizeT (ndropped usr);
     nwakeups := nwakeups usr |}.

(** moncache.cpp lines 111-129, for one [update] and one [usr]: the guard
    [!usr->running || usr->empty.empty()], then the assignment of the three
    pointers of [update] to the element at the front of [empty], which moves
    to the back of [filled]. *)
Definition deliver (update : MonitorElement)
    (els : gmap addr MonitorElement) (usr : MonitorUser)
  : gmap addr MonitorElement * MonitorUser * delivery :=
  if negb (running usr) || bool_decide (empty usr = []) then
    (els, count_drop usr, Dropped)
  else
    match empty usr with
    | elem :: rest =>
        let notify := bool_decide (filled usr = []) in
        (<[elem := {| pvStructurePtr := pvStructurePtr update;
                      changedBitSet := changedBitSet update;
                      overrunBitSet := overrunBitSet update |}]> els,
         {| req := req usr; running := running usr;
            empty := rest; filled := filled usr ++ [elem]; inuse := inuse usr;
            nevents := epicsAtomicIncrSizeT (nevents usr);
            ndropped := ndropped usr; nwakeups := nwakeups usr |},
         Delivered notify)
    | [] => (els, count_drop usr, Dropped)   (* excluded by the guard *)
    end.

(** [MonitorUser::destroy] and [MonitorUser::stop]. *)
Definition destroy (usr : MonitorUser) : MonitorUser :=
  {| req := req usr; running := false;
     empty := empty usr; filled := filled usr; inuse := inuse usr;
     nevents := nevents usr; ndropped := ndropped usr; nwakeups := nwakeups usr |}.

Definition stop (usr : MonitorUser) : MonitorUser * Status :=
  ({| req := req usr; running := false;
      empty := empty usr; filled := filled usr; inuse := inuse usr;
      nevents := nevents usr; ndropped := ndropped usr; nwakeups := nwakeups usr |},
   Status_Ok).

(** [MonitorUser::poll]: the null pointer is [None]. *)
Definition poll (usr : MonitorUser) : MonitorUser * option addr :=
  match filled usr with
  | ret :: rest =>
      ({| req := req usr; running := running usr;
          empty := empty usr; filled := rest; inuse := {[ret]} ∪ inuse usr;
          nevents := nevents usr; ndropped := ndropped usr;
          nwakeups := nwakeups usr |},
       Some ret)
  | [] => (usr, None)
  end.

(** The C++ exceptions that leave these functions. *)
Inductive exn :=
  | invalid_argument (what : string)
  | bad_weak_ptr.

(** [MonitorUser::release]: [inr] is the thrown exception; the handle is
    left as it was.  [inuse] holds no null pointer, so [find] misses a null
    argument. *)
Definition release (monitorElement : option addr) (usr : MonitorUser)
  : MonitorUser * (unit + exn) :=
  match monitorElement with
  | Some e =>
      if decide (e ∈ inuse usr) then
        ({| req := req usr; running := running usr;
            empty := empty usr ++ [e]; filled := filled usr;
            inuse := inuse usr ∖ {[e]};
            nevents := nevents usr; ndropped := ndropped usr;
            nwakeups := nwakeups usr |},
         inl tt)
      else (usr, inr (invalid_argument "Can't release MonitorElement not in use"))
  | None => (usr, inr (invalid_argument "Can't release MonitorElement not in use"))
  end.

(** ** MonitorCacheEntry and the world around it *)

(** The counters are [nwakeups] and [nevents] in the source; the prefix
    keeps them apart from those of [MonitorUser]. *)
Record MonitorCacheEntry := mkEntry {
  typedesc : option nat;        (* StructureConstPtr, null until monitorConnect *)
  startresult : Status;
  lastval : option addr;        (* PVStructurePtr, null until the first update *)
  interested : list nat;        (* the live MonitorUsers of the weak_set *)
  entry_nwakeups : Z;
  entry_nevents : Z
}.

(** The constructor: [startresult] is a default [Status], which is OK. *)
Definition MonitorCacheEntry_new : MonitorCacheEntry :=
  {| typedesc := None; startresult := Status_Ok; lastval := None;
     interested := []; entry_nwakeups := 0; entry_nevents := 0 |}.

(** Calls that leave the monitor cache, in the order they are made. *)
Inductive call :=
  | req_monitorConnect (r : addr) (st : Status) (usr : nat) (structure : option nat)
  | req_monitorEvent (r : addr) (usr : nat)
  | monitor_start
  | monitor_release (update : MonitorElement)
  | cout (msg : string).

Record World := mkWorld {
  heap : Heap;
  entry : MonitorCacheEntry;
  users : gmap nat MonitorUser;
  calls : list call
}.

(** A member function either returns, or leaves by an exception, or
    dereferences a null pointer; the world is the one reached by then. *)
Inductive result (A : Type) :=
  | Returns (w : World) (a : A)
  | Throws (w : World) (e : exn)
  | NullDeref (w : World).
Arguments Returns {A} w a.
Arguments Throws {A} w e.
Arguments NullDeref {A} w.

Definition M (A : Type) : Type := World → result A.

#[export] Instance M_ret : MRet M := λ A a w, Returns w a.
#[export] Instance M_bind : MBind M := λ A B f m w,
  match m w with
  | Returns w' a => f a w'
  | Throws w' e => Throws w' e
  | NullDeref w' => NullDeref w'
  end.

Definition get : M World := λ w, Returns w w.
Definition modify (f : World → World) : M unit := λ w, Returns (f w) tt.
Definition throw {A} (e : exn) : M A := λ w, Throws w e.
Definition null_deref {A} : M A := λ w, NullDeref w.

Fixpoint foreach {A} (l : list A) (body : A → M unit) : M unit :=
  match l with
  | [] => mret tt
  | x :: l' => body x ≫= λ _, foreach l' body
  end.

Definition set_heap (hp : Heap) (w : World) : World :=
  {| heap := hp; entry := entry w; users := users w; calls := calls w |}.
Definition set_elements (els : gmap addr MonitorElement) (w : World) : World :=
  set_heap {| next := next (heap w); structures := structures (heap w);
              bitsets := bitsets (heap w); elements := els |} w.
Definition set_entry (e : MonitorCacheEntry) (w : World) : World :=
  {| heap := heap w; entry := e; users := users w; calls := calls w |}.
Definition set_user (it : nat) (usr : MonitorUser) (w : World) : World :=
  {| heap := heap w; entry := entry w; users := <[it := usr]> (users w);
     calls := calls w |}.
Definition emit (c : call) : M unit :=
  modify (λ w, {| heap := heap w; entry := entry w; users := users w;
                  calls := calls w ++ [c] |}).

(** The declaration of [MonitorUser::req] is in chancache.h; [start] calls
    [req.lock()], so it is a weak pointer.  [monitorConnect] (line 64) and
    [monitorEvent] (line 108) build a [shared_pointer] from it directly, and
    that constructor throws [bad_weak_ptr] on an expired pointer:
    [ExpiredThrows] is what the program does.  [ExpiredIsNull], a conversion
    giving the null pointer that the test [if(req)] of line 65 provides for,
    is not a behaviour of the program; it is a second reading, kept to show
    where a finding does not hinge on the conversion. *)
Inductive weak_conversion :=
  | ExpiredThrows
  | ExpiredIsNull.

Definition shared_from_weak (c : weak_conversion) (wp : option addr)
  : M (option addr) :=
  match wp, c with
  | Some r, _ => mret (Some r)
  | None, ExpiredThrows => throw bad_weak_ptr
  | None, ExpiredIsNull => mret None
  end.

(** The body of the loop over [tonotify] in [monitorConnect].
    [lock_vector] hands out live handles only, so an identifier without a
    handle is passed over. *)
Definition connect_user (c : weak_conversion) (result : Status)
    (structure : option nat) (it : nat) : M unit :=
  w ← get;
  match users w !! it with
  | None => mret tt
  | Some usr =>
      r ← shared_from_weak c (req usr);
      match r with
      | Some r => emit (req_monitorConnect r result it structure)
      | None => emit (cout "Dead requester in monitorConnect()")
      end
  end.

(** [MonitorCacheEntry::monitorConnect].  [upstream_start] is what
    [monitor->start()] answers.  The assertion [monitor==mon] is a
    precondition on the caller and [self(weakref)] only keeps the entry
    alive; neither shows in the model. *)
Definition monitorConnect (c : weak_conversion) (status : Status)
    (upstream_start : Status) (structure : option nat) : M unit :=
  w ← get;
  (if isSuccess status then emit monitor_start else mret tt) ≫= λ _,
  let result := if isSuccess status then upstream_start else status in
  modify (set_entry {| typedesc := structure; startresult := result;
                       lastval := lastval (entry w);
                       interested := interested (entry w);
                       entry_nwakeups := entry_nwakeups (entry w);
                       entry_nevents := entry_nevents (entry w) |}) ≫= λ _,
  let tonotify := interested (entry w) in
  (if isSuccess result then mret tt
   else emit (cout "upstream monitor start() fails")) ≫= λ _,
  foreach tonotify (connect_user c result structure).

(** The body of [FOREACH(it, end, tonotify)] in [monitorEvent]: the
    requester is resolved first, the locked block is [deliver], and the
    wakeup follows outside the lock. *)
Definition notify_user (c : weak_conversion) (update : MonitorElement)
    (it : nat) : M unit :=
  w ← get;
  match users w !! it with
  | None => mret tt
  | Some usr =>
      r ← shared_from_weak c (req usr);
      let '(els, usr', d) := deliver update (elements (heap w)) usr in
      modify (λ w, set_user it usr' (set_elements els w)) ≫= λ _,
      match d with
      | Dropped => mret tt
      | Delivered false => mret tt
      | Delivered true =>
          modify (set_user it
            {| req := req usr'; running := running usr';
               empty := empty usr'; filled := filled usr'; inuse := inuse usr';
               nevents := nevents usr'; ndropped := ndropped usr';
               nwakeups := epicsAtomicIncrSizeT (nwakeups usr') |}) ≫= λ _,
          match r with
          | Some r => emit (req_monitorEvent r it)
          | None => null_deref
          end
      end
  end.

(** One turn of [while((update=monitor->poll()))]. *)
Definition process_update (c : weak_conversion) (update : MonitorElement)
  : M unit :=
  modify (λ w, set_entry
    {| typedesc := typedesc (entry w); startresult := startresult (entry w);
       lastval := pvStructurePtr update;
       interested := interested (entry w);
       entry_nwakeups := entry_nwakeups (entry w);
       entry_nevents := epicsAtomicIncrSizeT (entry_nevents (entry w)) |} w)
  ≫= λ _,
  w ← get;
  foreach (interested (entry w)) (notify_user c update) ≫= λ _,
  emit (monitor_release update).

(** [MonitorCacheEntry::monitorEvent].  [upstream] lists the updates that
    [monitor->poll()] hands over before it answers null; each is given by
    the values of its three pointers.  The local counter [cntpoll] is never
    read. *)
Definition monitorEvent (c : weak_conversion) (upstream : list MonitorElement)
  : M unit :=
  modify (λ w, set_entry
    {| typedesc := typedesc (entry w); startresult := startresult (entry w);
       lastval := lastval (entry w);
       interested := interested (entry w);
       entry_nwakeups := epicsAtomicIncrSizeT (entry_nwakeups (entry w));
       entry_nevents := entry_nevents (entry w) |} w)
  ≫= λ _,
  foreach upstream (process_update c).

(** [empty.resize(4)] followed by the loop that resets every slot to a new
    element: whatever [empty] held, it now holds [n] fresh elements. *)
Fixpoint new_elements (n : nat) (typedesc : option nat) (hp : Heap)
  : list addr * Heap :=
  match n with
  | O => ([], hp)
  | S n' =>
      let '(e, hp1) := new_MonitorElement typedesc hp in
      let '(es, hp2) := new_elements n' typedesc hp1 in
      (e :: es, hp2)
  end.

(** [elem->pvStructurePtr = lval; elem->changedBitSet->set(0);] *)
Definition seed_element (elem : addr) (lval : option addr) (hp : Heap) : Heap :=
  match elements hp !! elem with
  | Some el =>
      {| next := next hp;
         structures := structures hp;
         bitsets :=
           match changedBitSet el with
           | Some b => alter (λ s, {[0%nat]} ∪ s) b (bitsets hp)
           | None => bitsets hp
           end;
         elements :=
           <[elem := {| pvStructurePtr := lval;
                        changedBitSet := changedBitSet el;
                        overrunBitSet := overrunBitSet el |}]> (elements hp) |}
  | None => hp
  end.

(** The pool size written in [MonitorUser::start]. *)
Definition pool_size : nat := 4.

(** The block of [MonitorUser::start] under [queueLock] (lines 211-234);
    the boolean is [doEvt]. *)
Definition start_queue (td : option nat) (lval : option addr)
    (hp : Heap) (usr : MonitorUser) : Heap * MonitorUser * bool :=
  let '(es, hp1) := new_elements pool_size td hp in
  match lval, es with
  | Some _, elem :: rest =>
      (seed_element elem lval hp1,
       {| req := req usr; running := true;
          empty := rest; filled := filled usr ++ [elem]; inuse := inuse usr;
          nevents := nevents usr; ndropped := ndropped usr;
          nwakeups := nwakeups usr |},
       true)
  | _, _ =>
      (hp1,
       {| req := req usr; running := true;
          empty := es; filled := filled usr; inuse := inuse usr;
          nevents := nevents usr; ndropped := ndropped usr;
          nwakeups := nwakeups usr |},
       false)
  end.

(** [MonitorUser::start], called on the handle [it]. *)
Definition start (it : nat) : M Status :=
  w ← get;
  match users w !! it with
  | None => null_deref
  | Some usr =>
      match req usr with
      | None => mret (mkStatus STATUSTYPE_FATAL "already dead")
      | Some r =>
          if negb (isSuccess (startresult (entry w))) then
            mret (startresult (entry w))
          else
            let lval := lastval (entry w) in
            let td := typedesc (entry w) in
            let '(hp, usr', doEvt) := start_queue td lval (heap w) usr in
            modify (λ w, set_user it usr' (set_heap hp w)) ≫= λ _,
            (if doEvt then emit (req_monitorEvent r it) else mret tt) ≫= λ _,
            mret Status_Ok
      end
  end.

(** ** One handle under an arbitrary interleaving of calls

    The calls that touch a handle's queues each run under [queueLock], so
    a run of the handle is a sequence of them.  [deliver] is the producer's
    step; the others are the consumer's. *)

Inductive op :=
  | OpDeliver (update : MonitorElement)
  | OpPoll
  | OpRelease (monitorElement : option addr)
  | OpStop
  | OpDestroy.

(** What a call gives back.  For [poll] the element is paired with what the
    consumer reads through the returned pointer. *)
Inductive obs :=
  | ObsDeliver (d : delivery)
  | ObsPoll (ret : option addr) (seen : option MonitorElement)
  | ObsRelease (r : unit + exn)
  | ObsStop (s : Status)
  | ObsDestroy.

Definition hstate : Type := gmap addr MonitorElement * MonitorUser.

Definition step (o : op) (st : hstate) : hstate * obs :=
  let '(els, usr) := st in
  match o with
  | OpDeliver update =>
      let '(els', usr', d) := deliver update els usr in
      ((els', usr'), ObsDeliver d)
  | OpPoll =>
      let '(usr', ret) := poll usr in
      ((els, usr'), ObsPoll ret (ret ≫= λ e, els !! e))
  | OpRelease e =>
      let '(usr', r) := release e usr in ((els, usr'), ObsRelease r)
  | OpStop =>
      let '(usr', s) := stop usr in ((els, usr'), ObsStop s)
  | OpDestroy => ((els, destroy usr), ObsDestroy)
  end.

Fixpoint run (ops : list op) (st : hstate) : hstate * list obs :=
  match ops with
  | [] => (st, [])
  | o :: ops' =>
      let '(st1, ob) := step o st in
      let '(st2, obs) := run ops' st1 in
      (st2, ob :: obs)
  end.

(** The buffers of a handle: every one in exactly one of the three
    collections, [n] in all. *)
Record pool_inv (n : nat) (usr : MonitorUser) : Prop := {
  pool_empty_nodup : NoDup (empty usr);
  pool_filled_nodup : NoDup (filled usr);
  pool_empty_filled : ∀ e, e ∈ empty usr → e ∉ filled usr;
  pool_empty_inuse : ∀ e, e ∈ empty usr → e ∉ inuse usr;
  pool_filled_inuse : ∀ e, e ∈ filled usr → e ∉ inuse usr;
  pool_total : (length (empty usr) + length (filled usr) + size (inuse usr) = n)%nat
}.

(** The updates a run accepted, and what its polls showed the consumer. *)
Fixpoint accepted (ops : list op) (os : list obs) : list MonitorElement :=
  match ops, os with
  | OpDeliver update :: ops', ObsDeliver (Delivered _) :: os' =>
      update :: accepted ops' os'
  | _ :: ops', _ :: os' => accepted ops' os'
  | _, _ => []
  end.

Fixpoint polled (os : list obs) : list (option MonitorElement) :=
  match os with
  | ObsPoll (Some _) seen :: os' => seen :: polled os'
  | _ :: os' => polled os'
  | [] => []
  end.

(** The deliveries after which the producer calls the requester. *)
Fixpoint wakeups (os : list obs) : nat :=
  match os with
  | ObsDeliver (Delivered true) :: os' => S (wakeups os')
  | _ :: os' => wakeups os'
  | [] => O
  end.

Fixpoint drops (os : list obs) : nat :=
  match os with
  | ObsDeliver Dropped :: os' => S (drops os')
  | _ :: os' => drops os'
  | [] => O
  end.

(** What the consumer reads through each pointer of a queue. *)
Definition contents (els : gmap addr MonitorElement) (q : list addr)
  : list (option MonitorElement) :=
  (λ e, els !! e) <$> q.

(** ** The calls seen from outside *)

Definition world_of {A} (r : result A) : World :=
  match r with
  | Returns w _ => w
  | Throws w _ => w
  | NullDeref w => w
  end.

(** The consumer's calls, on the handle [it] of a world. *)
Definition user_poll (it : nat) : M (option addr) :=
  w ← get;
  match users w !! it with
  | None => null_deref
  | Some usr => modify (set_user it (poll usr).1) ≫= λ _, mret (poll usr).2
  end.

Definition user_release (it : nat) (monitorElement : option addr) : M unit :=
  w ← get;
  match users w !! it with
  | None => null_deref
  | Some usr =>
      match (release monitorElement usr).2 with
      | inl _ => modify (set_user it (release monitorElement usr).1)
      | inr e => throw e
      end
  end.

Definition user_stop (it : nat) : M Status :=
  w ← get;
  match users w !! it with
  | None => null_deref
  | Some usr => modify (set_user it (stop usr).1) ≫= λ _, mret (stop usr).2
  end.

Definition user_destroy (it : nat) : M unit :=
  w ← get;
  match users w !! it with
  | None => null_deref
  | Some usr => modify (set_user it (destroy usr))
  end.

(** The downstream side lets go of the requester of [it]: the weak pointer
    [req] expires. *)
Definition expire (it : nat) (w : World) : World :=
  match users w !! it with
  | None => w
  | Some usr =>
      set_user it
        {| req := None; running := running usr;
           empty := empty usr; filled := filled usr; inuse := inuse usr;
           nevents := nevents usr; ndropped := ndropped usr;
           nwakeups := nwakeups usr |} w
  end.

Inductive wcall :=
  | CallConnect (status upstream_start : Status) (structure : option nat)
  | CallEvent (upstream : list MonitorElement)
  | CallStart (it : nat)
  | CallPoll (it : nat)
  | CallRelease (it : nat) (monitorElement : option addr)
  | CallStop (it : nat)
  | CallDestroy (it : nat)
  | CallExpire (it : nat).

Definition wstep (c : weak_conversion) (k : wcall) (w : World) : World :=
  match k with
  | CallConnect status upstream_start structure =>
      world_of (monitorConnect c status upstream_start structure w)
  | CallEvent upstream => world_of (monitorEvent c upstream w)
  | CallStart it => world_of (start it w)
  | CallPoll it => world_of (user_poll it w)
  | CallRelease it e => world_of (user_release it e w)
  | CallStop it => world_of (user_stop it w)
  | CallDestroy it => world_of (user_destroy it w)
  | CallExpire it => expire it w
  end.

Definition wrun (c : weak_conversion) (ks : list wcall) (w : World) : World :=
  foldl (λ w k, wstep c k w) w ks.

(** The MonitorElement objects a handle holds in any of its collections. *)
Definition owned (usr : MonitorUser) : gset addr :=
  list_to_set (empty usr) ∪ list_to_set (filled usr) ∪ inuse usr.

(** The elements of all handles were handed out by the allocator, and no
    element belongs to two handles. *)
Definition separate (w : World) : Prop :=
  (∀ it usr e, users w !! it = Some usr → e ∈ owned usr → (e < next (heap w))%nat)
  ∧ (∀ it1 it2 usr1 usr2, it1 ≠ it2 →
       users w !! it1 = Some usr1 → users w !! it2 = Some usr2 →
       owned usr1 ## owned usr2).

(** ** The fan-out, seen from one handle *)

(** The fields of a handle that [deliver] reads or writes. *)
Definition same_queues (a b : MonitorUser) : Prop :=
  req a = req b ∧ running a = running b ∧ empty a = empty b
  ∧ filled a = filled b ∧ inuse a = inuse b
  ∧ nevents a = nevents b ∧ ndropped a = ndropped b.

(** The handle [it] of the world [w] is in the state [st], wakeup counter
    and other handles' elements apart. *)
Definition agrees_on (it : nat) (st : hstate) (w : World) : Prop :=
  ∃ usr, users w !! it = Some usr ∧ same_queues usr st.2
         ∧ ∀ e, e ∈ owned st.2 → elements (heap w) !! e = st.1 !! e.

(** What the fan-out relies on: handles own disjoint elements, the
    interested handles are [l], and their requesters are alive. *)
Definition fanout_ready (l : list nat) (w : World) : Prop :=
  separate w ∧ interested (entry w) = l
  ∧ ∀ j usr, j ∈ l → users w !! j = Some usr → is_Some (req usr).

(** ** The spec's wording, for comparison with the code *)

(** "No single payload buffer instance is ever shared": the payload pointers
    held by two handles differ, and so do a handle's and the entry's
    last-value snapshot. *)
Definition payload_private (w : World) : Prop :=
  (∀ it1 it2 usr1 usr2 e1 e2 el1 el2 p,
     it1 ≠ it2 →
     users w !! it1 = Some usr1 → users w !! it2 = Some usr2 →
     e1 ∈ owned usr1 → e2 ∈ owned usr2 →
     elements (heap w) !! e1 = Some el1 → elements (heap w) !! e2 = Some el2 →
     pvStructurePtr el1 = Some p → pvStructurePtr el2 ≠ Some p)
  ∧ (∀ it usr e el p,
       users w !! it = Some usr → e ∈ owned usr →
       elements (heap w) !! e = Some el →
       pvStructurePtr el = Some p → lastval (entry w) ≠ Some p).

(** The number of buffers a handle holds. *)
Definition pool_count (usr : MonitorUser) : nat :=
  (length (empty usr) + length (filled usr) + size (inuse usr))%nat.


(** "Returned by every handle's start() call". *)
Definition start_returns_stored (it : nat) (w : World) : Prop :=
  isSuccess (startresult (entry w)) = false →
  start it w = Returns w (startresult (entry w)).

(** ** Sample worlds *)

Definition sample_update (p : addr) : MonitorElement :=
  {| pvStructurePtr := Some p; changedBitSet := Some (S p);
     overrunBitSet := Some (S (S p)) |}.

Definition empty_heap : Heap :=
  {| next := 0%nat; structures := ∅; bitsets := ∅; elements := ∅ |}.

(** A connected entry of shape 7 with two handles, 1 and 2, whose
    requesters are the objects 50 and 60. *)
Definition sample_entry (lval : option addr) (result : Status) : MonitorCacheEntry :=
  {| typedesc := Some 7%nat; startresult := result; lastval := lval;
     interested := [1%nat; 2%nat]; entry_nwakeups := 0; entry_nevents := 0 |}.

Definition sample_world (lval : option addr) (result : Status)
    (req1 req2 : option addr) : World :=
  {| heap := empty_heap;
     entry := sample_entry lval result;
     users := <[1%nat := MonitorUser_new req1 0]>
                (<[2%nat := MonitorUser_new req2 0]> ∅);
     calls := [] |}.

(** Both handles started, no last value yet. *)
Definition started_world : World :=
  world_of (start 2%nat (world_of (start 1%nat
    (sample_world None Status_Ok (Some 50%nat) (Some 60%nat))))).

(** The same after the requester of handle 1 is gone. *)
Definition dead_world : World := expire 1%nat started_world.

(** The entry holds the last value 500; nothing started yet. *)
Definition late_world : World :=
  sample_world (Some 500%nat) Status_Ok (Some 50%nat) (Some 60%nat).

(** The upstream start failed at connection time; the requester of handle
    1 is gone. *)
Definition failed_world (c : weak_conversion) : World :=
  world_of (monitorConnect c Status_Ok
              (mkStatus STATUSTYPE_ERROR "no upstream") (Some 7%nat)
              (sample_world None Status_Ok None (Some 60%nat))).

(** A handle with [n] free buffers 0..n-1. *)
Definition sample_user (n : nat) : MonitorUser :=
  {| req := Some 50%nat; running := true; empty := seq 0 n; filled := [];
     inuse := ∅; nevents := 0; ndropped := 0; nwakeups := 0 |}.

(** Whether [deliver] would put an update on an empty [filled] queue. *)
Definition wakes (usr : MonitorUser) : bool :=
  running usr && negb (bool_decide (empty usr = []))
  && bool_decide (filled usr = []).

(** The updates a run offers to [deliver], in upstream order. *)
Definition offered (ops : list op) : list MonitorElement :=
  omap (λ o, match o with OpDeliver update => Some update | _ => None end) ops.

(** The wakeups that reached the requester of [it], among logged calls. *)
Fixpoint wakeup_calls (it : nat) (cs : list call) : nat :=
  match cs with
  | [] => O
  | req_monitorEvent _ usr :: cs' =>
      if decide (usr = it) then S (wakeup_calls it cs') else wakeup_calls it cs'
  | _ :: cs' => wakeup_calls it cs'
  end.

Definition filled_of (it : nat) (w : World) : option (list addr) :=
  filled <$> users w !! it.

(** "At most one wakeup between two consecutive instants at which the
    filled queue is empty", for the calls [ks] made from [w]. *)
Definition wakeup_once_between_empties (c : weak_conversion) (it : nat)
    (ks : list wcall) (w : World) : Prop :=
  filled_of it w = Some [] →
  filled_of it (wrun c ks w) = Some [] →
  (∀ k, (0 < k < length ks)%nat → filled_of it (wrun c (take k ks) w) ≠ Some []) →
  (wakeup_calls it (calls (wrun c ks w)) ≤ wakeup_calls it (calls w) + 1)%nat.

Definition sample_ops : list op :=
  [OpDeliver (sample_update 500); OpPoll; OpDeliver (sample_update 503);
   OpRelease (Some 0%nat); OpStop; OpDeliver (sample_update 506); OpDestroy].

(** One update reaches the started handles; the consumer of handle 1
    pauses and resumes before it polls, then drains its queue. *)
Definition restart_calls : list wcall :=
  [CallEvent [sample_update 500]; CallStop 1%nat; CallStart 1%nat;
   CallPoll 1%nat; CallPoll 1%nat].

(** A handle that has polled its first update and still holds it. *)
Definition lent_user : MonitorUser :=
  (run [OpDeliver (sample_update 500); OpPoll] (∅, sample_user 4)).1.2.

(** The two handles of [started_world]. *)
Definition started_user (r : addr) (first : addr) : MonitorUser :=
  {| req := Some r; running := true;
     empty := [first; (first + 4)%nat; (first + 8)%nat; (first + 12)%nat];
     filled := []; inuse := ∅; nevents := 0; ndropped := 0; nwakeups := 0 |}.

(** Two updates arrive before the consumer takes the first. *)
Definition burst_ops : list op :=
  [OpDeliver (sample_update 500); OpDeliver (sample_update 503); OpPoll;
   OpDeliver (sample_update 506); OpStop].

(** ** What the call log and the world show *)

(** The updates given back to the upstream monitor, among logged calls. *)
Fixpoint released (cs : list call) : list MonitorElement :=
  match cs with
  | [] => []
  | monitor_release update :: cs' => update :: released cs'
  | _ :: cs' => released cs'
  end.

(** Every handle of [l] that exists has a live requester. *)
Definition all_alive (l : list nat) (w : World) : Prop :=
  ∀ j usr, j ∈ l → users w !! j = Some usr → is_Some (req usr).

(** The call that [monitorConnect] makes for the handle [it] (line 66); a
    handle that is gone, or whose requester is, gets none. *)
Definition connect_note (result : Status) (structure : option nat)
    (w : World) (it : nat) : list call :=
  match users w !! it with
  | None => []
  | Some usr =>
      match req usr with
      | Some r => [req_monitorConnect r result it structure]
      | None => []
      end
  end.

(** The calls that are [monitorConnect], and those that are
    [monitorEvent]. *)
Definition is_connect (k : wcall) : bool :=
  match k with CallConnect _ _ _ => true | _ => false end.

Definition is_event (k : wcall) : bool :=
  match k with CallEvent _ => true | _ => false end.

(** Every update of every [monitorEvent] call carries a payload. *)
Definition payloads_present (ks : list wcall) : Prop :=
  ∀ upstream u, CallEvent upstream ∈ ks → u ∈ upstream →
                is_Some (pvStructurePtr u).

(** Every buffer of the handle is in exactly one of its collections,
    however many buffers there are. *)
Definition exclusive (usr : MonitorUser) : Prop := pool_inv (pool_count usr) usr.

(** The handles own disjoint sets of elements, and each handle holds each
    of its elements once. *)
Definition well_owned (w : World) : Prop :=
  separate w ∧ ∀ it usr, users w !! it = Some usr → exclusive usr.

(** The handle [it] has lent out the element [e], which reads [v]. *)
Definition lent (it : nat) (e : addr) (v : option MonitorElement) (w : World)
  : Prop :=
  ∃ usr, users w !! it = Some usr ∧ e ∈ inuse usr
         ∧ elements (heap w) !! e = v.

(** The handles a call may write to. *)
Definition targets (w : World) (k : wcall) : list nat :=
  match k with
  | CallConnect _ _ _ => []
  | CallEvent _ => interested (entry w)
  | CallStart it | CallPoll it | CallRelease it _ | CallStop it
  | CallDestroy it | CallExpire it => [it]
  end.

(** Since a world with [base] wakeups logged for [it] and the counter at
    [nw0], the requester of [it] was called [n] more times and the counter
    was bumped [n] times. *)
Definition woken (it : nat) (n base : nat) (nw0 : Z) (w : World) : Prop :=
  wakeup_calls it (calls w) = (base + n)%nat
  ∧ ∃ usr, users w !! it = Some usr
           ∧ nwakeups usr = Nat.iter n epicsAtomicIncrSizeT nw0.

(** ** The link to the upstream monitor *)

(** [MonitorCacheEntry::mon], the entry's strong reference to the upstream
    monitor, is written by [unlisten] and by the destructor only, and read
    besides by the assertion of line 38 alone: it is modelled on its own,
    apart from [World].  [monitor_destroy m] is [M->destroy()] on the
    monitor [m]; [cout_unlisten] is the line that [unlisten] prints. *)
Inductive link_call :=
  | monitor_destroy (m : addr)
  | cout_unlisten.

(** The reference, null being [None], and the calls made through it. *)
Record Link := mkLink {
  mon : option addr;
  link_calls : list link_call
}.

(** [MonitorCacheEntry::unlisten]: [M.swap(mon)], then [M->destroy()] and a
    line on [std::cout] when [M] is set.  The argument is not used. *)
Definition unlisten (l : Link) : Link :=
  match mon l with
  | Some m => {| mon := None;
                 link_calls := link_calls l ++ [monitor_destroy m; cout_unlisten] |}
  | None => l
  end.

(** [epicsAtomicDecrSizeT]. *)
Definition epicsAtomicDecrSizeT (c : Z) : Z := wrap (c - 1).

(** [MonitorCacheEntry::~MonitorCacheEntry], on the link and on the static
    counter [num_instances]. *)
Definition MonitorCacheEntry_destructor (l : Link) (num_instances : Z)
  : Link * Z :=
  (match mon l with
   | Some m => {| mon := None; link_calls := link_calls l ++ [monitor_destroy m] |}
   | None => l
   end,
   epicsAtomicDecrSizeT num_instances).

(** The monitors destroyed, among the calls of a link. *)
Fixpoint destroyed (cs : list link_call) : list addr :=
  match cs with
  | [] => []
  | monitor_destroy m :: cs' => m :: destroyed cs'
  | cout_unlisten :: cs' => destroyed cs'
  end.

(** ** More sample worlds *)


(** Handle 1 of [started_world] has taken one update and polled it: it holds
    buffer 3. *)
Definition lending_world : World :=
  wrun ExpiredThrows [CallEvent [sample_update 500]; CallPoll 1%nat] started_world.

(** More updates than buffers, a restart, a release by the other handle
    and a poll, none of which gives buffer 3 of handle 1 back. *)
Definition busy_calls : list wcall :=
  [CallEvent [sample_update 503; sample_update 506; sample_update 509;
              sample_update 512; sample_update 515];
   CallStop 1%nat; CallStart 1%nat; CallRelease 2%nat (Some 3%nat);
   CallPoll 1%nat; CallDestroy 2%nat].

(** A running handle with one update queued in buffer 0. *)
Definition queued_user : MonitorUser :=
  (deliver (sample_update 500) ∅ (sample_user 4)).1.2.

(** Calls that name handle 1 only, and a connection. *)
Definition quiet_calls : list wcall :=
  [CallStop 1%nat; CallStart 1%nat; CallPoll 1%nat;
   CallConnect Status_Ok Status_Ok (Some 7%nat); CallExpire 1%nat].

(** ** One handle over its whole life *)

(** The calls of [op], and [MonitorUser::start] for a live requester after
    a successful connection; [td] and [lval] are the entry's [typedesc] and
    [lastval] as [start] reads them (lines 207-208). *)
Inductive life_op :=
  | LifeCall (o : op)
  | LifeStart (td : option nat) (lval : option addr).

(** What a call gives back; for [start], the flag [doEvt] (lines 231 and
    235): the requester is called exactly when it is set. *)
Inductive life_obs :=
  | LifeObs (ob : obs)
  | LifeStarted (doEvt : bool).

Definition life_state : Type := Heap * MonitorUser.

Definition life_step (o : life_op) (st : life_state) : life_state * life_obs :=
  let '(hp, usr) := st in
  match o with
  | LifeCall o =>
      let '((els, usr'), ob) := step o (elements hp, usr) in
      (({| next := next hp; structures := structures hp;
           bitsets := bitsets hp; elements := els |}, usr'), LifeObs ob)
  | LifeStart td lval =>
      let '(hp', usr', doEvt) := start_queue td lval hp usr in
      ((hp', usr'), LifeStarted doEvt)
  end.

Fixpoint life_run (ops : list life_op) (st : life_state)
  : life_state * list life_obs :=
  match ops with
  | [] => (st, [])
  | o :: ops' =>
      let '(st1, ob) := life_step o st in
      let '(st2, obs) := life_run ops' st1 in
      (st2, ob :: obs)
  end.

(** The wakeups asked for by deliveries, and those asked for by [start]. *)
Fixpoint fanout_wakeups (os : list life_obs) : nat :=
  match os with
  | LifeObs (ObsDeliver (Delivered true)) :: os' => S (fanout_wakeups os')
  | _ :: os' => fanout_wakeups os'
  | [] => O
  end.

Fixpoint start_wakeups (os : list life_obs) : nat :=
  match os with
  | LifeStarted true :: os' => S (start_wakeups os')
  | _ :: os' => start_wakeups os'
  | [] => O
  end.

(** The starts that find a last value in the entry. *)
Fixpoint seeding_starts (ops : list life_op) : nat :=
  match ops with
  | LifeStart _ (Some _) :: ops' => S (seeding_starts ops')
  | _ :: ops' => seeding_starts ops'
  | [] => O
  end.

(** ** The spec's wording on the pool size *)


(** ** Sample lives *)



(** A started handle with nothing queued, on its own heap. *)
Definition fresh_life : life_state :=
  (life_run [LifeStart (Some 7%nat) None]
     (empty_heap, MonitorUser_new (Some 50%nat) 0)).1.

(** One update arrives; the consumer stops and starts the handle again
    before polling, then drains the queue. *)
Definition restart_life : list life_op :=
  [LifeCall (OpDeliver (sample_update 500)); LifeCall OpStop;
   LifeStart (Some 7%nat) (Some 500%nat); LifeCall OpPoll; LifeCall OpPoll].

(** * Proofs *)

(** Unfolds the monad of [M] one layer at a time, keeping the functions of
    the model folded. *)
Ltac msimpl :=
  repeat (progress
    (cbn -[new_elements deliver poll release start_queue seed_element
           connect_user notify_user process_update];
     unfold mbind, M_bind, mret, M_ret, get, modify, throw, null_deref, emit,
            shared_from_weak)).

(** ** The pool invariant, call by call *)

Section pool.
Context (n : nat).

Lemma count_drop_pool_inv usr : pool_inv n usr → pool_inv n (count_drop usr).
Proof. by intros []. Qed.

Lemma deliver_pool_inv update els usr :
  pool_inv n usr → pool_inv n (deliver update els usr).1.2.
Proof.
  intros Hinv. unfold deliver.
  destruct (negb (running usr) || bool_decide (empty usr = [])); simpl;
    [by apply count_drop_pool_inv|].
  destruct (empty usr) as [|elem rest] eqn:He; simpl;
    [by apply count_drop_pool_inv|].
  destruct Hinv as [Hne Hnf Hef Hei Hfi Htot]. rewrite He in *.
  apply NoDup_cons in Hne as [Hnotin Hrest].
  constructor; simpl.
  - done.
  - apply NoDup_app. split_and!; [done| |apply NoDup_singleton].
    intros x Hx Hx'. apply list_elem_of_singleton in Hx' as ->.
    eapply Hef; [|done]. left.
  - intros e He' [Hin| ->%list_elem_of_singleton]%elem_of_app; [|done].
    eapply Hef; [|done]. by right.
  - intros e He'. apply Hei. by right.
  - intros e [Hin| ->%list_elem_of_singleton]%elem_of_app; [by apply Hfi|].
    apply Hei. left.
  - rewrite length_app. simpl in *. lia.
Qed.

Lemma poll_pool_inv usr : pool_inv n usr → pool_inv n (poll usr).1.
Proof.
  intros Hinv. unfold poll.
  destruct (filled usr) as [|ret rest] eqn:Hf; simpl; [done|].
  destruct Hinv as [Hne Hnf Hef Hei Hfi Htot]. rewrite Hf in *.
  apply NoDup_cons in Hnf as [Hnotin Hrest].
  assert (ret ∉ inuse usr) by (apply Hfi; left).
  constructor; simpl.
  - done.
  - done.
  - intros e He' Hin. eapply Hef; [done|]. by right.
  - intros e He' [->%elem_of_singleton|Hin]%elem_of_union.
    + eapply Hef; [done|]. left.
    + by eapply Hei.
  - intros e He' [->%elem_of_singleton|Hin]%elem_of_union; [done|].
    eapply Hfi; [|done]. by right.
  - rewrite size_union, size_singleton by set_solver. simpl in *. lia.
Qed.

Lemma release_pool_inv e usr : pool_inv n usr → pool_inv n (release e usr).1.
Proof.
  intros Hinv. unfold release.
  destruct e as [e|]; [|done]. destruct (decide (e ∈ inuse usr)) as [Hin|]; [|done].
  destruct Hinv as [Hne Hnf Hef Hei Hfi Htot].
  constructor; simpl.
  - apply NoDup_app. split_and!; [done| |apply NoDup_singleton].
    intros x Hx ->%list_elem_of_singleton. by eapply Hei.
  - done.
  - intros x [Hx| ->%list_elem_of_singleton]%elem_of_app; [by apply Hef|].
    intros Hx. by eapply Hfi.
  - intros x [Hx| ->%list_elem_of_singleton]%elem_of_app; [|set_solver].
    apply Hei in Hx. set_solver.
  - intros x Hx. apply Hfi in Hx. set_solver.
  - rewrite length_app. simpl.
    assert ({[e]} ⊆ inuse usr) as Hsub by set_solver.
    pose proof (subseteq_size _ _ Hsub) as Hle.
    rewrite size_difference by done. rewrite size_singleton in *.
    lia.
Qed.

Lemma step_pool_inv o st : pool_inv n st.2 → pool_inv n (step o st).1.2.
Proof.
  destruct st as [els usr]. intros Hinv. destruct o; simpl in *.
  - pose proof (deliver_pool_inv update els usr Hinv) as H.
    by destruct (deliver update els usr) as [[??]?].
  - pose proof (poll_pool_inv usr Hinv) as H. by destruct (poll usr).
  - pose proof (release_pool_inv monitorElement usr Hinv) as H.
    by destruct (release monitorElement usr).
  - by destruct Hinv.
  - by destruct Hinv.
Qed.


End pool.

(** ** First in, first out *)
Lemma MonitorElement_eta (u : MonitorElement) :
  {| pvStructurePtr := pvStructurePtr u; changedBitSet := changedBitSet u;
     overrunBitSet := overrunBitSet u |} = u.
Proof. by destruct u. Qed.

Lemma deliver_drop update els usr :
  running usr = false ∨ empty usr = [] →
  deliver update els usr = (els, count_drop usr, Dropped).
Proof.
  intros [Hr|He]; unfold deliver; rewrite ?Hr, ?He; [done|].
  by rewrite orb_true_r.
Qed.

Lemma deliver_accept update els usr elem rest :
  running usr = true → empty usr = elem :: rest →
  deliver update els usr =
    (<[elem := update]> els,
     {| req := req usr; running := true; empty := rest;
        filled := filled usr ++ [elem]; inuse := inuse usr;
        nevents := epicsAtomicIncrSizeT (nevents usr);
        ndropped := ndropped usr; nwakeups := nwakeups usr |},
     Delivered (bool_decide (filled usr = []))).
Proof.
  intros Hr He. unfold deliver. rewrite Hr, He. simpl.
  by rewrite MonitorElement_eta.
Qed.

Lemma contents_insert_notin els q e v :
  e ∉ q → contents (<[e := v]> els) q = contents els q.
Proof.
  intros Hn. unfold contents. apply list_fmap_ext.
  intros i x Hx. apply lookup_insert_ne. intros ->.
  apply Hn. eapply list_elem_of_lookup_2. done.
Qed.

Lemma polled_cons ob os : polled (ob :: os) = polled [ob] ++ polled os.
Proof. destruct ob as [| [?|] ? | | |]; done. Qed.

Lemma accepted_cons o ops ob os :
  accepted (o :: ops) (ob :: os) = accepted [o] [ob] ++ accepted ops os.
Proof. destruct o, ob as [[|?]| | | |]; done. Qed.

Lemma run_cons o ops st :
  run (o :: ops) st =
    ((run ops (step o st).1).1, (step o st).2 :: (run ops (step o st).1).2).
Proof. simpl. destruct (step o st) as [st1 ob]. simpl. by destruct (run ops st1). Qed.

Lemma release_filled e usr : filled (release e usr).1 = filled usr.
Proof.
  unfold release. destruct e as [e|]; [|done].
  by destruct (decide (e ∈ inuse usr)).
Qed.

Lemma fifo_step n o els usr :
  pool_inv n usr →
  polled [(step o (els, usr)).2]
    ++ contents (step o (els, usr)).1.1 (filled (step o (els, usr)).1.2)
  = contents els (filled usr)
    ++ (Some <$> accepted [o] [(step o (els, usr)).2]).
Proof.
  intros Hinv. destruct o as [update| |e| |]; simpl.
  - destruct (running usr) eqn:Hr; [|by rewrite deliver_drop, app_nil_r by auto].
    destruct (empty usr) as [|elem rest] eqn:He;
      [by rewrite deliver_drop, app_nil_r by auto|].
    rewrite (deliver_accept _ _ _ elem rest) by done. simpl.
    unfold contents. rewrite fmap_app. simpl. rewrite lookup_insert_eq.
    f_equal. apply contents_insert_notin.
    apply (pool_empty_filled _ _ Hinv). rewrite He. left.
  - unfold poll. destruct (filled usr) as [|ret rest] eqn:Hf; simpl.
    + by rewrite Hf.
    + by rewrite app_nil_r.
  - pose proof (release_filled e usr) as Hfl.
    destruct (release e usr) as [usr1 r]. simpl in *. by rewrite Hfl, app_nil_r.
  - by rewrite app_nil_r.
  - by rewrite app_nil_r.
Qed.

Lemma fifo n ops els usr :
  pool_inv n usr →
  polled (run ops (els, usr)).2
    ++ contents (run ops (els, usr)).1.1 (filled (run ops (els, usr)).1.2)
  = contents els (filled usr) ++ (Some <$> accepted ops (run ops (els, usr)).2).
Proof.
  revert els usr. induction ops as [|o ops IH]; intros els usr Hinv.
  { simpl. by rewrite app_nil_r. }
  rewrite run_cons. cbn [fst snd].
  pose proof (step_pool_inv n o (els, usr) Hinv) as Hinv1.
  pose proof (fifo_step n o els usr Hinv) as Hstep.
  destruct (step o (els, usr)) as [[els1 usr1] ob]. cbn [fst snd] in *.
  rewrite polled_cons, accepted_cons, fmap_app, <-!app_assoc.
  rewrite (IH els1 usr1 Hinv1), !app_assoc. by rewrite Hstep.
Qed.

(** ** Counters, release, saturation and wakeups *)
Lemma size_t_modulus_pos : 0 < size_t_modulus.
Proof. done. Qed.

Lemma wrap_small z : 0 ≤ z < size_t_modulus → wrap z = z.
Proof. intros. unfold wrap. by apply Z.mod_small. Qed.

Lemma wrap_incr z k : epicsAtomicIncrSizeT (wrap (z + k)) = wrap (z + (k + 1)).
Proof.
  unfold epicsAtomicIncrSizeT, wrap.
  rewrite Zplus_mod_idemp_l. f_equal. lia.
Qed.

Lemma wrap_range z : 0 ≤ wrap z < size_t_modulus.
Proof. unfold wrap. apply Z.mod_pos_bound, size_t_modulus_pos. Qed.

Lemma release_spec (monitorElement : option addr) (usr : MonitorUser) :
  (∀ e, monitorElement = Some e → e ∈ inuse usr →
     release monitorElement usr =
       ({| req := req usr; running := running usr;
           empty := empty usr ++ [e]; filled := filled usr;
           inuse := inuse usr ∖ {[e]};
           nevents := nevents usr; ndropped := ndropped usr;
           nwakeups := nwakeups usr |}, inl tt)
     ∧ (e ∉ inuse (release monitorElement usr).1)
     ∧ (∀ update els, running usr = true →
          (deliver update els (release monitorElement usr).1).2 ≠ Dropped))
  ∧ ((∀ e, monitorElement = Some e → e ∉ inuse usr) →
     release monitorElement usr =
       (usr, inr (invalid_argument "Can't release MonitorElement not in use"))).
Proof.
  split.
  - intros e -> Hin. unfold release. rewrite decide_True by done.
    split_and!; [done|simpl; set_solver|].
    intros update els Hr. unfold deliver. simpl. rewrite Hr. simpl.
    destruct (empty usr); simpl; done.
  - intros Hn. unfold release. destruct monitorElement as [e|]; [|done].
    rewrite decide_False; [done|]. by apply Hn.
Qed.

Lemma iter_incr k c :
  0 ≤ c < size_t_modulus →
  Nat.iter k epicsAtomicIncrSizeT c = wrap (c + Z.of_nat k).
Proof.
  intros Hc. induction k as [|k IH].
  - simpl. rewrite Z.add_0_r. by rewrite wrap_small.
  - rewrite Nat.iter_succ, IH, wrap_incr. f_equal. lia.
Qed.

Lemma run_deliveries updates els usr :
  running usr = true → NoDup (empty usr) →
  (∀ e, e ∈ empty usr → e ∉ filled usr) →
  let r := run (OpDeliver <$> updates) (els, usr) in
  filled r.1.2 = filled usr ++ take (length updates) (empty usr)
  ∧ empty r.1.2 = drop (length updates) (empty usr)
  ∧ inuse r.1.2 = inuse usr
  ∧ running r.1.2 = true
  ∧ contents r.1.1 (filled r.1.2)
    = contents els (filled usr) ++ (Some <$> take (length (empty usr)) updates)
  ∧ ndropped r.1.2
    = Nat.iter (length updates - length (empty usr)) epicsAtomicIncrSizeT
        (ndropped usr)
  ∧ drops r.2 = (length updates - length (empty usr))%nat
  ∧ accepted (OpDeliver <$> updates) r.2 = take (length (empty usr)) updates.
Proof.
  revert els usr. induction updates as [|u us IH]; intros els usr Hr Hnd Hdis.
  { simpl. rewrite take_0, drop_0, take_nil, !app_nil_r. done. }
  rewrite fmap_cons, run_cons. cbn [step fst snd length].
  destruct (empty usr) as [|elem rest] eqn:He.
  - rewrite deliver_drop by auto. cbn [fst snd].
    destruct (IH els (count_drop usr)) as (H1&H2&H3&H4&H5&H6&H7&H8);
      [done|simpl; by rewrite He|simpl; by rewrite He; inversion 1|].
    simpl in H1, H2, H3, H4, H5, H6, H7, H8. rewrite He in *.
    cbn [length] in *. rewrite Nat.sub_0_r in *.
    rewrite take_nil, drop_nil in *. rewrite take_0 in *.
    split_and!; try done.
    + rewrite H6. by rewrite Nat.iter_succ_r.
    + simpl. by rewrite H7.
  - rewrite (deliver_accept _ _ _ elem rest) by done. cbn [fst snd].
    apply NoDup_cons in Hnd as [Hnotin Hrest].
    match goal with |- context [run _ (?e1, ?u1)] =>
      destruct (IH e1 u1) as (H1&H2&H3&H4&H5&H6&H7&H8) end;
      [done|done| |].
    { simpl. intros e Hin [Hf| ->%list_elem_of_singleton]%elem_of_app; [|done].
      eapply Hdis; [|done]. by right. }
    simpl in H1, H2, H3, H4, H5, H6, H7, H8.
    split_and!; try done.
    + rewrite H1. by rewrite <-app_assoc.
    + rewrite H5. unfold contents. rewrite fmap_app. simpl.
      rewrite lookup_insert_eq.
      fold (contents (<[elem:=u]> els) (filled usr)).
      rewrite contents_insert_notin, <-app_assoc; [done|].
      apply Hdis. left.
    + simpl. by rewrite H8.
Qed.

Lemma run_take_cons k o ops st :
  run (take (S k) (o :: ops)) st
  = ((run (take k ops) (step o st).1).1,
     (step o st).2 :: (run (take k ops) (step o st).1).2).
Proof. rewrite firstn_cons. apply run_cons. Qed.

Lemma deliver_notify update els usr b :
  (deliver update els usr).2 = Delivered b → (b = true ↔ filled usr = []).
Proof.
  unfold deliver.
  destruct (negb (running usr) || bool_decide (empty usr = [])); [done|].
  destruct (empty usr); [done|]. simpl. intros [= <-].
  by rewrite bool_decide_eq_true.
Qed.

Lemma step_no_wakeup o st : filled st.2 ≠ [] → wakeups [(step o st).2] = O.
Proof.
  destruct st as [els usr]. intros Hf. destruct o; simpl; try done.
  - destruct (deliver update els usr) as [[els1 usr1] d] eqn:Hd. simpl.
    destruct d as [|[|]]; try done.
    exfalso. apply Hf.
    apply (proj1 (deliver_notify update els usr true ltac:(by rewrite Hd))).
    done.
  - by destruct (poll usr).
  - by destruct (release monitorElement usr).
Qed.

Lemma wakeups_cons ob os : wakeups (ob :: os) = (wakeups [ob] + wakeups os)%nat.
Proof. destruct ob as [[|[|]]| | | |]; done. Qed.

Lemma no_wakeup_while_nonempty ops st :
  (∀ k, (k < length ops)%nat → filled (run (take k ops) st).1.2 ≠ []) →
  wakeups (run ops st).2 = O.
Proof.
  revert st. induction ops as [|o ops IH]; intros st Hne; [done|].
  rewrite run_cons. cbn [snd]. rewrite wakeups_cons.
  rewrite step_no_wakeup; [|apply (Hne O); simpl; lia].
  apply IH. intros k Hk. specialize (Hne (S k)).
  rewrite run_take_cons in Hne. apply Hne. simpl. lia.
Qed.

Lemma wakeups_single ob : (wakeups [ob] ≤ 1)%nat.
Proof. destruct ob as [[|[|]]| | | |]; simpl; lia. Qed.

Lemma wakeup_once ops st :
  (∀ k, (0 < k < length ops)%nat → filled (run (take k ops) st).1.2 ≠ []) →
  (wakeups (run ops st).2 ≤ 1)%nat.
Proof.
  destruct ops as [|o ops]; intros Hne; [simpl; lia|].
  rewrite run_cons. cbn [snd]. rewrite wakeups_cons.
  rewrite (no_wakeup_while_nonempty ops).
  - pose proof (wakeups_single (step o st).2). lia.
  - intros k Hk. specialize (Hne (S k)).
    rewrite run_take_cons in Hne. apply Hne. simpl. lia.
Qed.

(** ** Allocation, the last value and start *)
Lemma new_elements_S n td hp :
  new_elements (S n) td hp =
    ((new_MonitorElement td hp).1
       :: (new_elements n td (new_MonitorElement td hp).2).1,
     (new_elements n td (new_MonitorElement td hp).2).2).
Proof.
  simpl. by destruct (new_elements n td _).
Qed.

Lemma new_elements_spec n td hp :
  length (new_elements n td hp).1 = n
  ∧ next (new_elements n td hp).2 = (next hp + 4 * n)%nat
  ∧ NoDup (new_elements n td hp).1
  ∧ (∀ e, e ∈ (new_elements n td hp).1 →
       (next hp ≤ e < next (new_elements n td hp).2)%nat)
  ∧ (∀ e, (e < next hp)%nat →
       elements (new_elements n td hp).2 !! e = elements hp !! e).
Proof.
  revert hp. induction n as [|n IH]; intros hp.
  { simpl. split_and!; [done|lia|constructor|inversion 1|done]. }
  rewrite new_elements_S.
  destruct (IH (new_MonitorElement td hp).2) as (Hl&Hn&Hd&Hr&Hk).
  cbn [fst snd]. simpl in *. split_and!.
  - by rewrite Hl.
  - lia.
  - constructor; [|done]. intros Hin%Hr. lia.
  - intros e [->|Hin%Hr]%elem_of_cons; lia.
  - intros e He. rewrite Hk by lia. apply lookup_insert_ne. lia.
Qed.

Lemma foreach_preserves {A} (l : list A) (body : A → M unit) (P : World → Prop) :
  (∀ x w, P w → P (world_of (body x w))) →
  ∀ w, P w → P (world_of (foreach l body w)).
Proof.
  intros Hbody. induction l as [|x l IH]; intros w Hw; [done|].
  specialize (Hbody x w Hw). msimpl.
  destruct (body x w) as [w1 []|w1 e|w1]; cbn in *; [by apply IH|done|done].
Qed.

Lemma notify_user_entry c update it w :
  entry (world_of (notify_user c update it w)) = entry w.
Proof.
  unfold notify_user. msimpl. destruct (users w !! it) as [usr|]; [|done].
  destruct (req usr) as [r|], c; msimpl; try done;
    destruct (deliver update (elements (heap w)) usr) as [[els usr'] [|[|]]];
    done.
Qed.

Lemma emit_world c w : emit c w = Returns
  {| heap := heap w; entry := entry w; users := users w; calls := calls w ++ [c] |} tt.
Proof. done. Qed.

Lemma process_update_lastval c update w :
  lastval (entry (world_of (process_update c update w))) = pvStructurePtr update.
Proof.
  unfold process_update. msimpl.
  match goal with |- context [foreach ?l ?b ?w1] =>
    pose proof (foreach_preserves l b
      (λ w', lastval (entry w') = pvStructurePtr update)
      ltac:(intros x w' Hw'; cbn beta; by rewrite notify_user_entry) w1 eq_refl) as H;
    destruct (foreach l b w1) as [w2 []|w2 e|w2] end; done.
Qed.

Lemma foreach_process_lastval c upstream w :
  ∃ pulled,
    pulled `prefix_of` upstream
    ∧ lastval (entry (world_of (foreach upstream (process_update c) w)))
      = default (lastval (entry w)) (pvStructurePtr <$> last pulled)
    ∧ (∀ w', foreach upstream (process_update c) w = Returns w' tt →
         pulled = upstream).
Proof.
  revert w. induction upstream as [|u us IH]; intros w.
  { exists []. done. }
  msimpl. pose proof (process_update_lastval c u w) as Hu.
  destruct (process_update c u w) as [w1 []|w1 e|w1]; cbn in *.
  - destruct (IH w1) as (pulled & Hpre & Hlast & Hall).
    exists (u :: pulled). split_and!.
    + by apply prefix_cons.
    + rewrite Hlast. destruct pulled as [|p ps] using rev_ind; [done|].
      by rewrite !last_cons, last_snoc.
    + intros w' Hw'. f_equal. by eapply Hall.
  - exists [u]. split_and!; [apply prefix_cons, prefix_nil|done|done].
  - exists [u]. split_and!; [apply prefix_cons, prefix_nil|done|done].
Qed.

Lemma monitorEvent_lastval c upstream w :
  ∃ pulled,
    pulled `prefix_of` upstream
    ∧ lastval (entry (world_of (monitorEvent c upstream w)))
      = default (lastval (entry w)) (pvStructurePtr <$> last pulled)
    ∧ (∀ w', monitorEvent c upstream w = Returns w' tt → pulled = upstream).
Proof.
  unfold monitorEvent. msimpl.
  match goal with |- context [foreach _ _ ?w1] =>
    destruct (foreach_process_lastval c upstream w1) as (pulled & H1 & H2 & H3) end.
  exists pulled. split_and!; [done|by rewrite H2|done].
Qed.

Lemma start_dead it w usr :
  users w !! it = Some usr → req usr = None →
  start it w = Returns w (mkStatus STATUSTYPE_FATAL "already dead").
Proof. intros Hu Hr. unfold start. msimpl. by rewrite Hu, Hr. Qed.

Lemma start_failed it w usr r :
  users w !! it = Some usr → req usr = Some r →
  isSuccess (startresult (entry w)) = false →
  start it w = Returns w (startresult (entry w)).
Proof. intros Hu Hr Hs. unfold start. msimpl. by rewrite Hu, Hr, Hs. Qed.

Lemma start_ok it w usr r :
  users w !! it = Some usr → req usr = Some r →
  isSuccess (startresult (entry w)) = true →
  start it w =
    Returns
      {| heap := (start_queue (typedesc (entry w)) (lastval (entry w)) (heap w) usr).1.1;
         entry := entry w;
         users := <[it := (start_queue (typedesc (entry w)) (lastval (entry w))
                             (heap w) usr).1.2]> (users w);
         calls := calls w ++
           (if (start_queue (typedesc (entry w)) (lastval (entry w)) (heap w) usr).2
            then [req_monitorEvent r it] else []) |}
      Status_Ok.
Proof.
  intros Hu Hr Hs. unfold start. msimpl. rewrite Hu, Hr, Hs. msimpl.
  destruct (start_queue (typedesc (entry w)) (lastval (entry w)) (heap w) usr)
    as [[hp usr'] [|]]; msimpl;
    unfold set_user, set_heap; msimpl; [done|by rewrite app_nil_r].
Qed.

Lemma start_queue_none td hp usr :
  start_queue td None hp usr =
    ((new_elements pool_size td hp).2,
     {| req := req usr; running := true;
        empty := (new_elements pool_size td hp).1;
        filled := filled usr; inuse := inuse usr;
        nevents := nevents usr; ndropped := ndropped usr;
        nwakeups := nwakeups usr |},
     false).
Proof. unfold start_queue. by destruct (new_elements _ _ _). Qed.

Lemma start_queue_some td v hp usr :
  let elem := S (S (S (next hp))) in
  let hp1 := (new_elements pool_size td hp).2 in
  start_queue td (Some v) hp usr =
    ({| next := next hp1; structures := structures hp1;
        bitsets := alter (λ s, {[0%nat]} ∪ s) (S (next hp)) (bitsets hp1);
        elements := <[elem := {| pvStructurePtr := Some v;
                                 changedBitSet := Some (S (next hp));
                                 overrunBitSet := Some (S (S (next hp))) |}]>
                      (elements hp1) |},
     {| req := req usr; running := true;
        empty := drop 1 (new_elements pool_size td hp).1;
        filled := filled usr ++ [elem]; inuse := inuse usr;
        nevents := nevents usr; ndropped := ndropped usr;
        nwakeups := nwakeups usr |},
     true).
Proof.
  unfold start_queue, pool_size. cbn.
  unfold seed_element. cbn.
  rewrite !lookup_insert_ne by lia. rewrite lookup_insert_eq. done.
Qed.

(** ** monitorConnect *)
Lemma connect_user_world c result structure it w :
  entry (world_of (connect_user c result structure it w)) = entry w
  ∧ heap (world_of (connect_user c result structure it w)) = heap w
  ∧ users (world_of (connect_user c result structure it w)) = users w
  ∧ ∃ new, calls (world_of (connect_user c result structure it w)) = calls w ++ new
           ∧ monitor_start ∉ new.
Proof.
  unfold connect_user. msimpl. destruct (users w !! it) as [usr|]; msimpl.
  - destruct (req usr) as [r|], c; msimpl; split_and!; try done.
    + eexists [_]. split; [done|]. by intros [=]%list_elem_of_singleton.
    + eexists [_]. split; [done|]. by intros [=]%list_elem_of_singleton.
    + exists []. split; [by rewrite app_nil_r|]. inversion 1.
    + eexists [_]. split; [done|]. by intros [=]%list_elem_of_singleton.
  - split_and!; try done. exists []. split; [by rewrite app_nil_r|]. inversion 1.
Qed.

Lemma monitorConnect_spec c status upstream_start structure w :
  let w' := world_of (monitorConnect c status upstream_start structure w) in
  typedesc (entry w') = structure
  ∧ startresult (entry w') = (if isSuccess status then upstream_start else status)
  ∧ lastval (entry w') = lastval (entry w)
  ∧ heap w' = heap w ∧ users w' = users w
  ∧ ∃ new, calls w' = calls w ++ (if isSuccess status then [monitor_start] else []) ++ new
           ∧ monitor_start ∉ new.
Proof.
  set (P := λ result w0 (w' : World),
    typedesc (entry w') = structure ∧ startresult (entry w') = result
    ∧ lastval (entry w') = lastval (entry w)
    ∧ heap w' = heap w ∧ users w' = users w
    ∧ ∃ new, calls w' = calls w0 ++ new ∧ monitor_start ∉ new).
  assert (∀ result w0 l w1, P result w0 w1 →
    P result w0 (world_of (foreach l (connect_user c result structure) w1))) as Hfor.
  { intros result w0 l w1 H1.
    apply (foreach_preserves l (connect_user c result structure) (P result w0));
      [|done].
    intros it w2 (?&?&?&?&?&new&Hc&Hn).
    destruct (connect_user_world c result structure it w2)
      as (He&Hh&Hu&new'&Hc'&Hn').
    unfold P. rewrite He, Hh, Hu. split_and!; try done.
    exists (new ++ new'). rewrite Hc', Hc, app_assoc. split; [done|].
    intros [?|?]%elem_of_app; done. }
  assert (∀ w1, P (startresult (entry w1)) w1 w1 ↔
    typedesc (entry w1) = structure ∧ lastval (entry w1) = lastval (entry w)
    ∧ heap w1 = heap w ∧ users w1 = users w) as HP.
  { intros w1. unfold P. split; [naive_solver|].
    intros (?&?&?&?). split_and!; try done.
    exists []. split; [by rewrite app_nil_r|inversion 1]. }
  intros w'. subst w'. unfold monitorConnect.
  destruct (isSuccess status) eqn:Hs; msimpl.
  - destruct (isSuccess upstream_start) eqn:Hr; msimpl.
    all: match goal with |- context [foreach ?l _ ?w1] =>
      destruct (Hfor upstream_start w1 l w1) as (?&?&?&?&?&new&Hc&Hn);
        [by apply HP|] end.
    all: split_and!; try done; rewrite Hc; cbn.
    + exists new. by rewrite <-app_assoc.
    + eexists (_ :: new). rewrite <-!app_assoc. split; [done|].
      intros [?|?]%elem_of_cons; done.
  - rewrite Hs. msimpl.
    match goal with |- context [foreach ?l _ ?w1] =>
      destruct (Hfor status w1 l w1) as (?&?&?&?&?&new&Hc&Hn);
        [by apply HP|] end.
    split_and!; try done; rewrite Hc; cbn.
    eexists (_ :: new). rewrite <-!app_assoc. split; [done|].
    intros [?|?]%elem_of_cons; done.
Qed.

(** ** Handles never share a MonitorElement *)
Lemma deliver_owned update els usr : owned (deliver update els usr).1.2 = owned usr.
Proof.
  unfold deliver.
  destruct (negb (running usr) || bool_decide (empty usr = [])); [done|].
  destruct (empty usr) as [|elem rest] eqn:He; [done|].
  unfold owned. simpl. rewrite He. rewrite list_to_set_app_L. simpl. set_solver.
Qed.

Lemma poll_owned usr : owned (poll usr).1 = owned usr.
Proof.
  unfold poll. destruct (filled usr) as [|ret rest] eqn:Hf; [done|].
  unfold owned. simpl. rewrite Hf. simpl. set_solver.
Qed.

Lemma release_owned e usr : owned (release e usr).1 = owned usr.
Proof.
  unfold release. destruct e as [e|]; [|done].
  destruct (decide (e ∈ inuse usr)) as [Hin|]; [|done].
  unfold owned. simpl. rewrite list_to_set_app_L. simpl.
  apply set_eq. intros x. destruct (decide (x = e)); set_solver.
Qed.

Lemma start_queue_owned td lval hp usr e :
  e ∈ owned (start_queue td lval hp usr).1.2 →
  e ∈ owned usr ∨ (next hp ≤ e < next (start_queue td lval hp usr).1.1)%nat.
Proof.
  destruct (new_elements_spec pool_size td hp) as (Hl&Hn&Hd&Hr&Hk).
  destruct lval as [v|].
  - rewrite start_queue_some. cbn [fst snd]. unfold owned. cbn [empty filled inuse next].
    rewrite list_to_set_app_L.
    intros [[Hin|[Hin|Hin]%elem_of_union]%elem_of_union|Hin]%elem_of_union.
    + right. apply Hr. apply elem_of_list_to_set in Hin.
      eapply elem_of_sublist; [done|]. apply sublist_drop.
    + left. set_solver.
    + right. apply elem_of_list_to_set, list_elem_of_singleton in Hin as ->.
      rewrite Hn. unfold pool_size. lia.
    + left. set_solver.
  - rewrite start_queue_none. cbn [fst snd]. unfold owned. cbn [empty filled inuse next].
    intros [[Hin|Hin]%elem_of_union|Hin]%elem_of_union.
    + right. apply Hr. by apply elem_of_list_to_set in Hin.
    + left. set_solver.
    + left. set_solver.
Qed.

Lemma start_queue_next td lval hp usr :
  next (start_queue td lval hp usr).1.1 = (next hp + 4 * pool_size)%nat.
Proof.
  destruct (new_elements_spec pool_size td hp) as (Hl&Hn&Hd&Hr&Hk).
  destruct lval; [rewrite start_queue_some|rewrite start_queue_none]; done.
Qed.

Lemma separate_update w it usr usr' hp' en' cs' :
  users w !! it = Some usr →
  (next (heap w) ≤ next hp')%nat →
  (∀ e, e ∈ owned usr' → e ∈ owned usr ∨ (next (heap w) ≤ e < next hp')%nat) →
  separate w →
  separate {| heap := hp'; entry := en'; users := <[it := usr']> (users w);
              calls := cs' |}.
Proof.
  intros Hu Hnext Hown [Hlt Hdis]. split; cbn [users heap].
  - intros it1 usr1 e H1 He. destruct (decide (it1 = it)) as [->|Hne].
    + rewrite lookup_insert_eq in H1. injection H1 as <-.
      destruct (Hown e He) as [Ho|?]; [|lia].
      specialize (Hlt it usr e Hu Ho). lia.
    + rewrite lookup_insert_ne in H1 by done.
      specialize (Hlt it1 usr1 e H1 He). lia.
  - intros it1 it2 usr1 usr2 Hne H1 H2.
    destruct (decide (it1 = it)) as [->|Hne1];
      destruct (decide (it2 = it)) as [->|Hne2]; [congruence| | |].
    + rewrite lookup_insert_eq in H1. injection H1 as <-.
      rewrite lookup_insert_ne in H2 by done.
      apply elem_of_disjoint. intros e He1 He2.
      destruct (Hown e He1) as [Ho|?].
      * specialize (Hdis it it2 usr usr2 Hne Hu H2). set_solver.
      * specialize (Hlt it2 usr2 e H2 He2). lia.
    + rewrite lookup_insert_eq in H2. injection H2 as <-.
      rewrite lookup_insert_ne in H1 by done.
      apply elem_of_disjoint. intros e He1 He2.
      destruct (Hown e He2) as [Ho|?].
      * specialize (Hdis it1 it usr1 usr Hne H1 Hu). set_solver.
      * specialize (Hlt it1 usr1 e H1 He1). lia.
    + rewrite lookup_insert_ne in H1 by done.
      rewrite lookup_insert_ne in H2 by done.
      exact (Hdis it1 it2 usr1 usr2 Hne H1 H2).
Qed.

Lemma separate_same_users w hp' en' cs' :
  next hp' = next (heap w) → separate w →
  separate {| heap := hp'; entry := en'; users := users w; calls := cs' |}.
Proof. intros Hn [Hlt Hdis]. split; cbn [users heap]; [by rewrite Hn|done]. Qed.

Lemma separate_set_user w it usr usr' :
  users w !! it = Some usr → owned usr' = owned usr →
  separate w → separate (set_user it usr' w).
Proof.
  intros Hu Ho. apply separate_update with usr; [done|lia|].
  intros e He. left. by rewrite <-Ho.
Qed.

Lemma separate_ext w w' :
  users w' = users w → next (heap w') = next (heap w) →
  separate w → separate w'.
Proof. intros Hu Hn [Hlt Hdis]. split; rewrite Hu, ?Hn; done. Qed.

Lemma separate_emit w c : separate w → separate (world_of (emit c w)).
Proof. intros Hs. rewrite emit_world. by apply separate_same_users. Qed.

Lemma separate_set_entry w en : separate w → separate (set_entry en w).
Proof. intros Hs. by apply separate_same_users. Qed.

Lemma separate_set_elements w els : separate w → separate (set_elements els w).
Proof. intros Hs. by apply separate_same_users. Qed.

Lemma notify_user_separate c update it w :
  separate w → separate (world_of (notify_user c update it w)).
Proof.
  intros Hs. unfold notify_user. msimpl.
  destruct (users w !! it) as [usr|] eqn:Hu; [|done].
  assert (∀ r : option addr, separate (world_of
    ((let '(els, usr', d) := deliver update (elements (heap w)) usr in
      modify (λ w, set_user it usr' (set_elements els w)) ≫= λ _,
      match d with
      | Dropped => mret tt
      | Delivered false => mret tt
      | Delivered true =>
          modify (set_user it
            {| req := req usr'; running := running usr';
               empty := empty usr'; filled := filled usr'; inuse := inuse usr';
               nevents := nevents usr'; ndropped := ndropped usr';
               nwakeups := epicsAtomicIncrSizeT (nwakeups usr') |}) ≫= λ _,
          match r with
          | Some r => emit (req_monitorEvent r it)
          | None => null_deref
          end
      end) w))) as Hbody.
  { intros r. pose proof (deliver_owned update (elements (heap w)) usr) as Ho.
    destruct (deliver update (elements (heap w)) usr) as [[els usr'] d].
    cbn [fst snd] in Ho. msimpl.
    assert (separate (set_user it usr' (set_elements els w))) as Hs1.
    { apply separate_set_user with usr; [done|done|].
      by apply separate_set_elements. }
    destruct d as [|[|]]; msimpl; [done| |done].
    assert (∀ usr'', owned usr'' = owned usr' →
      separate (set_user it usr'' (set_user it usr' (set_elements els w)))) as Hs2.
    { intros usr'' Ho'. apply separate_set_user with usr'; [|done|done].
      cbn. apply lookup_insert_eq. }
    destruct r as [r|]; msimpl.
    - eapply (separate_ext (set_user it _ (set_user it usr' (set_elements els w))));
        [done|done|by apply Hs2].
    - by apply Hs2. }
  destruct (req usr) as [r|], c; msimpl; try done.
  - apply (Hbody (Some r)).
  - apply (Hbody (Some r)).
  - apply (Hbody None).
Qed.

Lemma process_update_separate c update w :
  separate w → separate (world_of (process_update c update w)).
Proof.
  intros Hs. unfold process_update. msimpl.
  match goal with |- context [foreach ?l ?b ?w1] =>
    pose proof (foreach_preserves l b separate
      ltac:(intros x w' Hw'; by apply notify_user_separate) w1
      ltac:(by apply separate_set_entry)) as H;
    destruct (foreach l b w1) as [w2 []|w2 e|w2] end; done.
Qed.

Lemma monitorEvent_separate c upstream w :
  separate w → separate (world_of (monitorEvent c upstream w)).
Proof.
  intros Hs. unfold monitorEvent. msimpl.
  apply foreach_preserves; [|by apply separate_set_entry].
  intros u w1. apply process_update_separate.
Qed.

Lemma start_separate it w : separate w → separate (world_of (start it w)).
Proof.
  intros Hs. destruct (users w !! it) as [usr|] eqn:Hu; cycle 1.
  { unfold start. msimpl. by rewrite Hu. }
  destruct (req usr) as [r|] eqn:Hr; [|by erewrite start_dead].
  destruct (isSuccess (startresult (entry w))) eqn:Hok;
    [|by erewrite start_failed].
  erewrite start_ok by done. cbn [world_of].
  apply separate_update with usr; [done| |by apply start_queue_owned|done].
  rewrite start_queue_next. lia.
Qed.

Lemma wstep_separate c k w : separate w → separate (wstep c k w).
Proof.
  intros Hs. destruct k; cbn [wstep].
  - destruct (monitorConnect_spec c status upstream_start structure w)
      as (_&_&_&Hh&Hu&_).
    destruct Hs as [Hlt Hdis]. split; rewrite ?Hh, Hu; done.
  - by apply monitorEvent_separate.
  - by apply start_separate.
  - unfold user_poll. msimpl. destruct (users w !! it) as [usr|] eqn:Hu; [|done].
    msimpl. apply separate_set_user with usr; [done|apply poll_owned|done].
  - unfold user_release. msimpl.
    destruct (users w !! it) as [usr|] eqn:Hu; [|done].
    pose proof (release_owned monitorElement usr) as Ho.
    destruct (release monitorElement usr) as [usr' [[]|e]]; msimpl; [|done].
    by apply separate_set_user with usr.
  - unfold user_stop. msimpl. destruct (users w !! it) as [usr|] eqn:Hu; [|done].
    msimpl. by apply separate_set_user with usr.
  - unfold user_destroy. msimpl.
    destruct (users w !! it) as [usr|] eqn:Hu; [|done].
    msimpl. by apply separate_set_user with usr.
  - unfold expire. destruct (users w !! it) as [usr|] eqn:Hu; [|done].
    by apply separate_set_user with usr.
Qed.

Lemma wrun_separate c ks w : separate w → separate (wrun c ks w).
Proof.
  revert w. induction ks as [|k ks IH]; intros w Hs; [done|].
  cbn. apply IH. by apply wstep_separate.
Qed.

(** ** What start sets up *)
Lemma start_queue_pool_inv td lval hp usr :
  filled usr = [] → inuse usr = ∅ →
  pool_inv pool_size (start_queue td lval hp usr).1.2.
Proof.
  intros Hf Hi.
  destruct (new_elements_spec pool_size td hp) as (Hl&Hn&Hd&Hr&Hk).
  destruct lval as [v|].
  - rewrite start_queue_some. cbn [fst snd]. revert Hl Hd Hr.
    unfold pool_size. cbn. intros _ Hd _. rewrite Hf, Hi.
    constructor; cbn.
    + by apply NoDup_cons in Hd as [_ ?].
    + apply NoDup_singleton.
    + apply NoDup_cons in Hd as [Hd _].
      intros e He ->%list_elem_of_singleton. done.
    + intros e _. apply not_elem_of_empty.
    + intros e _. apply not_elem_of_empty.
    + by rewrite size_empty.
  - rewrite start_queue_none. cbn [fst snd].
    constructor; cbn [empty filled inuse]; rewrite ?Hf, ?Hi.
    + done.
    + constructor.
    + intros e _. inversion 1.
    + intros e _. apply not_elem_of_empty.
    + intros e _. apply not_elem_of_empty.
    + rewrite Hl, size_empty. cbn [length]. lia.
Qed.



(** The updates handed to [deliver] by a run, in order. *)
Lemma accepted_sublist ops os :
  accepted ops os `sublist_of`
    omap (λ o, match o with OpDeliver u => Some u | _ => None end) ops.
Proof.
  revert os. induction ops as [|o ops IH]; intros os; [by destruct os|].
  destruct os as [|ob os]; [destruct o; apply sublist_nil_l|].
  destruct o as [u| | | |]; cbn; try apply IH.
  destruct ob as [[|b]| | | |]; [apply sublist_cons| |apply sublist_cons..];
    try apply IH.
  apply sublist_skip, IH.
Qed.

(** ** Seeding, and start called twice *)
Lemma start_queue_req td lval hp usr :
  req (start_queue td lval hp usr).1.2 = req usr
  ∧ running (start_queue td lval hp usr).1.2 = true
  ∧ inuse (start_queue td lval hp usr).1.2 = inuse usr.
Proof.
  destruct lval; [rewrite start_queue_some|rewrite start_queue_none]; done.
Qed.

Lemma start_seeds it w usr r v :
  users w !! it = Some usr → req usr = Some r →
  isSuccess (startresult (entry w)) = true →
  lastval (entry w) = Some v →
  ∃ w' usr' elem el b s,
    start it w = Returns w' Status_Ok
    ∧ users w' !! it = Some usr'
    ∧ running usr' = true
    ∧ filled usr' = filled usr ++ [elem]
    ∧ elements (heap w') !! elem = Some el
    ∧ pvStructurePtr el = Some v
    ∧ changedBitSet el = Some b
    ∧ bitsets (heap w') !! b = Some s ∧ 0%nat ∈ s
    ∧ entry w' = entry w
    ∧ calls w' = calls w ++ [req_monitorEvent r it].
Proof.
  intros Hu Hr Hs Hl. rewrite (start_ok it w usr r) by done.
  rewrite Hl, start_queue_some. cbn [fst snd].
  eexists _, _, _, _, _, _. split; [done|]. cbn [users heap elements bitsets].
  split_and!.
  - apply lookup_insert_eq.
  - done.
  - done.
  - apply lookup_insert_eq.
  - done.
  - done.
  - unfold pool_size. cbn. rewrite lookup_alter_eq.
    rewrite !lookup_insert_ne by lia. rewrite lookup_insert_eq. done.
  - set_solver.
  - done.
  - done.
Qed.


(** ** The fan-out to a live requester *)
Lemma deliver_wakes update els usr :
  (deliver update els usr).2 = Delivered true ↔ wakes usr = true.
Proof.
  unfold deliver, wakes. destruct (running usr); cbn; [|done].
  destruct (empty usr) as [|elem rest]; cbn; [done|].
  destruct (bool_decide (filled usr = [])); cbn; split; congruence.
Qed.

Lemma notify_user_alive c update it w usr r :
  users w !! it = Some usr → req usr = Some r →
  ∃ w' usr',
    notify_user c update it w = Returns w' tt
    ∧ elements (heap w') = (deliver update (elements (heap w)) usr).1.1
    ∧ users w' !! it = Some usr'
    ∧ empty usr' = empty (deliver update (elements (heap w)) usr).1.2
    ∧ filled usr' = filled (deliver update (elements (heap w)) usr).1.2
    ∧ inuse usr' = inuse (deliver update (elements (heap w)) usr).1.2
    ∧ ndropped usr' = ndropped (deliver update (elements (heap w)) usr).1.2
    ∧ users w' = <[it := usr']> (users w)
    ∧ entry w' = entry w
    ∧ calls w' = calls w ++ (if wakes usr then [req_monitorEvent r it] else []).
Proof.
  intros Hu Hr. unfold notify_user. msimpl. rewrite Hu, Hr.
  pose proof (deliver_wakes update (elements (heap w)) usr) as Hw.
  destruct c; msimpl;
    destruct (deliver update (elements (heap w)) usr) as [[els usr'] d];
    cbn [fst snd] in *; msimpl.
  all: destruct d as [|[|]]; msimpl.
  all: destruct (wakes usr);
    try (by (destruct Hw as [Hw1 Hw2]; first [specialize (Hw1 eq_refl)|specialize (Hw2 eq_refl)])).
  all: eexists _, _; split; [done|]; cbn;
    rewrite ?lookup_insert_eq, ?app_nil_r, ?insert_insert_eq; split_and!; done.
Qed.

Lemma sample_user_pool_inv n : pool_inv n (sample_user n).
Proof.
  constructor; cbn.
  - apply NoDup_seq.
  - constructor.
  - intros e _. inversion 1.
  - intros e _. apply not_elem_of_empty.
  - intros e _. apply not_elem_of_empty.
  - rewrite length_seq, size_empty. lia.
Qed.

Lemma sample_world_separate lval result req1 req2 :
  separate (sample_world lval result req1 req2).
Proof.
  assert (∀ it usr, users (sample_world lval result req1 req2) !! it = Some usr →
    owned usr = ∅) as Hown.
  { intros it usr. cbn.
    destruct (decide (it = 1%nat)) as [->|]; [rewrite lookup_insert_eq|rewrite lookup_insert_ne by done].
    { by intros [= <-]. }
    destruct (decide (it = 2%nat)) as [->|]; [rewrite lookup_insert_eq|rewrite lookup_insert_ne by done].
    { by intros [= <-]. }
    by rewrite lookup_empty. }
  split.
  - intros it usr e Hu He. rewrite (Hown it usr Hu) in He. set_solver.
  - intros it1 it2 usr1 usr2 _ H1 _. rewrite (Hown it1 usr1 H1). set_solver.
Qed.

Lemma started_world_separate : separate started_world.
Proof. unfold started_world. do 2 apply start_separate. apply sample_world_separate. Qed.

Lemma fanout_two c update it1 it2 w usr1 usr2 r1 r2 e1 rest1 e2 rest2 :
  separate w → it1 ≠ it2 →
  users w !! it1 = Some usr1 → users w !! it2 = Some usr2 →
  req usr1 = Some r1 → req usr2 = Some r2 →
  running usr1 = true → running usr2 = true →
  empty usr1 = e1 :: rest1 → empty usr2 = e2 :: rest2 →
  ∃ w1 w2,
    notify_user c update it1 w = Returns w1 tt
    ∧ notify_user c update it2 w1 = Returns w2 tt
    ∧ e1 ≠ e2
    ∧ elements (heap w2) !! e1 = Some update
    ∧ elements (heap w2) !! e2 = Some update
    ∧ separate w2.
Proof.
  intros Hsep Hne H1 H2 Hr1 Hr2 Hrun1 Hrun2 He1 He2.
  destruct (notify_user_alive c update it1 w usr1 r1 H1 Hr1)
    as (w1 & usr1' & Hn1 & Hel1 & _ & _ & _ & _ & _ & Hus1 & _ & _).
  assert (users w1 !! it2 = Some usr2) as H2'.
  { rewrite Hus1. by rewrite lookup_insert_ne. }
  destruct (notify_user_alive c update it2 w1 usr2 r2 H2' Hr2)
    as (w2 & usr2' & Hn2 & Hel2 & _ & _ & _ & _ & _ & _ & _ & _).
  exists w1, w2. split; [done|]. split; [done|].
  rewrite (deliver_accept _ _ _ e1 rest1) in Hel1 by done.
  rewrite (deliver_accept _ _ _ e2 rest2) in Hel2 by done.
  cbn [fst snd] in Hel1, Hel2.
  assert (e1 ≠ e2) as Hee.
  { destruct Hsep as [_ Hdis]. specialize (Hdis it1 it2 usr1 usr2 Hne H1 H2).
    intros ->. apply (Hdis e2); unfold owned; rewrite ?He1, ?He2; set_solver. }
  split; [done|]. rewrite Hel2, Hel1. split_and!.
  - rewrite lookup_insert_ne by done. apply lookup_insert_eq.
  - apply lookup_insert_eq.
  - pose proof (notify_user_separate c update it1 w Hsep) as Hs1.
    rewrite Hn1 in Hs1. pose proof (notify_user_separate c update it2 w1 Hs1) as Hs2.
    by rewrite Hn2 in Hs2.
Qed.

(** ** The fan-out, seen from one handle *)

Lemma same_queues_owned a b : same_queues a b → owned a = owned b.
Proof. intros (_&_&He&Hf&Hi&_). unfold owned. by rewrite He, Hf, Hi. Qed.

Lemma deliver_same_queues update els1 els2 a b :
  same_queues a b →
  (∀ e, e ∈ owned b → els1 !! e = els2 !! e) →
  (deliver update els1 a).2 = (deliver update els2 b).2
  ∧ same_queues (deliver update els1 a).1.2 (deliver update els2 b).1.2
  ∧ (∀ e, e ∈ owned b →
       (deliver update els1 a).1.1 !! e = (deliver update els2 b).1.1 !! e).
Proof.
  intros (Hq&Hr&He&Hf&Hi&Hn&Hd) Hels. unfold deliver.
  rewrite Hr, He, Hf.
  destruct (negb (running b) || bool_decide (empty b = [])).
  { cbn. split; [done|]. split; [|done].
    unfold same_queues, count_drop. cbn. split_and!; congruence. }
  destruct (empty b) as [|elem rest] eqn:Heb.
  { cbn. split; [done|]. split; [|done].
    unfold same_queues, count_drop. cbn. split_and!; congruence. }
  cbn. split; [done|]. split.
  - unfold same_queues. cbn. split_and!; congruence.
  - intros e Hin. destruct (decide (e = elem)) as [->|Hne].
    + by rewrite !lookup_insert_eq.
    + rewrite !lookup_insert_ne by done. by apply Hels.
Qed.

Lemma notify_user_live c update it w usr r :
  users w !! it = Some usr → req usr = Some r →
  ∃ w' usr',
    notify_user c update it w = Returns w' tt
    ∧ elements (heap w') = (deliver update (elements (heap w)) usr).1.1
    ∧ users w' = <[it := usr']> (users w)
    ∧ same_queues usr' (deliver update (elements (heap w)) usr).1.2
    ∧ entry w' = entry w.
Proof.
  intros Hu Hr. unfold notify_user. msimpl. rewrite Hu, Hr.
  destruct c; msimpl;
    destruct (deliver update (elements (heap w)) usr) as [[els usr'] d];
    cbn [fst snd] in *; msimpl.
  all: destruct d as [|[|]]; msimpl.
  all: eexists _, _; split; [done|]; cbn; rewrite ?insert_insert_eq;
    split_and!; done.
Qed.

Lemma notify_user_absent c update it w :
  users w !! it = None → notify_user c update it w = Returns w tt.
Proof. intros Hu. unfold notify_user. msimpl. by rewrite Hu. Qed.

Lemma deliver_writes update els usr e :
  e ∉ owned usr → (deliver update els usr).1.1 !! e = els !! e.
Proof.
  intros Hn. unfold deliver.
  destruct (negb (running usr) || bool_decide (empty usr = [])); [done|].
  destruct (empty usr) as [|elem rest] eqn:He; [done|]. cbn.
  apply lookup_insert_ne. intros ->. apply Hn. unfold owned. rewrite He.
  set_solver.
Qed.

Lemma deliver_req update els usr :
  req (deliver update els usr).1.2 = req usr.
Proof.
  unfold deliver.
  destruct (negb (running usr) || bool_decide (empty usr = [])); [done|].
  by destruct (empty usr).
Qed.

Section fanout.
Context (c : weak_conversion) (update : MonitorElement) (it : nat).

(** The turn of the handle [it] itself. *)
Lemma notify_user_agrees_self l st w :
  it ∈ l → fanout_ready l w → agrees_on it st w →
  ∃ w', notify_user c update it w = Returns w' tt
        ∧ fanout_ready l w'
        ∧ agrees_on it (step (OpDeliver update) st).1 w'.
Proof.
  intros Hin (Hsep & Hint & Halive) (usr & Hu & Hq & Hels).
  destruct (Halive it usr Hin Hu) as [r Hr].
  destruct (notify_user_live c update it w usr r Hu Hr)
    as (w' & usr' & Hn & Hel' & Hus' & Hq' & Hen').
  exists w'. split; [done|]. split.
  - split_and!.
    + pose proof (notify_user_separate c update it w Hsep) as Hs. by rewrite Hn in Hs.
    + by rewrite Hen'.
    + intros j usrj Hj. rewrite Hus'.
      destruct (decide (j = it)) as [->|Hne].
      * rewrite lookup_insert_eq. intros [= <-].
        destruct Hq' as (Hrq & _). rewrite Hrq, deliver_req. by eexists.
      * rewrite lookup_insert_ne by done. by apply Halive.
  - destruct st as [els0 usr0]. cbn [step fst snd] in *.
    destruct (deliver_same_queues update (elements (heap w)) els0 usr usr0 Hq Hels)
      as (Hd & Hsq & Hag).
    destruct (deliver update els0 usr0) as [[els1 usr1] d1] eqn:Hd1.
    cbn [fst snd] in *. exists usr'. split_and!.
    + rewrite Hus'. apply lookup_insert_eq.
    + destruct Hq' as (?&?&?&?&?&?&?), Hsq as (?&?&?&?&?&?&?).
      unfold same_queues. cbn [snd]. split_and!; congruence.
    + cbn [fst snd]. intros e He. rewrite Hel'. apply Hag.
      pose proof (deliver_owned update els0 usr0) as Ho. rewrite Hd1 in Ho.
      cbn in Ho. by rewrite <-Ho.
Qed.

(** The turn of another handle. *)
Lemma notify_user_agrees_other l st w j :
  j ≠ it → j ∈ l → fanout_ready l w → agrees_on it st w →
  ∃ w', notify_user c update j w = Returns w' tt
        ∧ fanout_ready l w'
        ∧ agrees_on it st w'.
Proof.
  intros Hne Hin (Hsep & Hint & Halive) (usr & Hu & Hq & Hels).
  destruct (users w !! j) as [usrj|] eqn:Huj; cycle 1.
  { exists w. rewrite notify_user_absent by done. split; [done|].
    split; [done|]. by exists usr. }
  destruct (Halive j usrj Hin Huj) as [r Hr].
  destruct (notify_user_live c update j w usrj r Huj Hr)
    as (w' & usrj' & Hn & Hel' & Hus' & Hq' & Hen').
  exists w'. split; [done|]. split.
  - split_and!.
    + pose proof (notify_user_separate c update j w Hsep) as Hs. by rewrite Hn in Hs.
    + by rewrite Hen'.
    + intros k usrk Hk. rewrite Hus'.
      destruct (decide (k = j)) as [->|Hnk].
      * rewrite lookup_insert_eq. intros [= <-].
        destruct Hq' as (Hrq & _). rewrite Hrq, deliver_req. by eexists.
      * rewrite lookup_insert_ne by done. by apply Halive.
  - exists usr. split_and!.
    + rewrite Hus'. by rewrite lookup_insert_ne.
    + done.
    + intros e He. rewrite Hel', deliver_writes; [by apply Hels|].
      destruct Hsep as [_ Hdis]. specialize (Hdis j it usrj usr Hne Huj Hu).
      rewrite (same_queues_owned _ _ Hq) in Hdis. set_solver.
Qed.

(** One update through the whole interested set. *)
Lemma foreach_notify_agrees l0 l st w :
  NoDup l → l ⊆ l0 → fanout_ready l0 w → agrees_on it st w →
  ∃ w', foreach l (notify_user c update) w = Returns w' tt
        ∧ fanout_ready l0 w'
        ∧ agrees_on it
            (if decide (it ∈ l) then (step (OpDeliver update) st).1 else st) w'.
Proof.
  revert st w. induction l as [|j l IH]; intros st w Hnd Hsub Hready Hag.
  { exists w. split; [done|]. split; [done|].
    rewrite decide_False; [done|]. inversion 1. }
  apply NoDup_cons in Hnd as [Hj Hnd].
  assert (j ∈ l0) as Hj0 by (apply Hsub; left).
  assert (l ⊆ l0) as Hsub' by (intros x Hx; apply Hsub; by right).
  msimpl. destruct (decide (j = it)) as [->|Hne].
  - destruct (notify_user_agrees_self l0 st w Hj0 Hready Hag)
      as (w1 & Hn & Hready1 & Hag1).
    rewrite Hn. destruct (IH _ w1 Hnd Hsub' Hready1 Hag1) as (w2 & Hf & Hready2 & Hag2).
    exists w2. split; [done|]. split; [done|].
    rewrite decide_False in Hag2 by done.
    rewrite decide_True; [done|left].
  - destruct (notify_user_agrees_other l0 st w j Hne Hj0 Hready Hag)
      as (w1 & Hn & Hready1 & Hag1).
    rewrite Hn. destruct (IH _ w1 Hnd Hsub' Hready1 Hag1) as (w2 & Hf & Hready2 & Hag2).
    exists w2. split; [done|]. split; [done|].
    destruct (decide (it ∈ l)) as [Hin|Hnin].
    + rewrite decide_True; [done|by right].
    + rewrite decide_False; [done|].
      intros [?|?]%elem_of_cons; congruence.
Qed.

End fanout.

Lemma fanout_ready_ext l w w' :
  users w' = users w → next (heap w') = next (heap w) →
  interested (entry w') = interested (entry w) →
  fanout_ready l w → fanout_ready l w'.
Proof.
  intros Hu Hn Hi (Hsep & Hint & Halive). split_and!.
  - by eapply separate_ext.
  - by rewrite Hi.
  - intros j usr. rewrite Hu. apply Halive.
Qed.

Lemma agrees_on_ext it st w w' :
  users w' = users w → elements (heap w') = elements (heap w) →
  agrees_on it st w → agrees_on it st w'.
Proof.
  intros Hu He (usr & Hus & Hq & Hels). exists usr.
  rewrite Hu, He. done.
Qed.

Lemma process_update_agrees c update it l st w :
  NoDup l → it ∈ l → fanout_ready l w → agrees_on it st w →
  ∃ w', process_update c update w = Returns w' tt
        ∧ fanout_ready l w'
        ∧ agrees_on it (step (OpDeliver update) st).1 w'.
Proof.
  intros Hnd Hin Hready Hag. unfold process_update. msimpl.
  match goal with |- context [foreach _ _ ?w1] => set (w1' := w1) end.
  assert (fanout_ready l w1') as Hready1 by (by eapply fanout_ready_ext).
  assert (agrees_on it st w1') as Hag1 by (by eapply agrees_on_ext).
  destruct Hready as (_ & Hint & _).
  destruct (foreach_notify_agrees c update it l l st w1' Hnd ltac:(done) Hready1 Hag1)
    as (w2 & Hf & Hready2 & Hag2).
  rewrite decide_True in Hag2 by done.
  rewrite Hint, Hf. msimpl. eexists. split; [done|]. split.
  - by eapply fanout_ready_ext.
  - by eapply agrees_on_ext.
Qed.

Lemma foreach_process_agrees c upstream it l st w :
  NoDup l → it ∈ l → fanout_ready l w → agrees_on it st w →
  ∃ w', foreach upstream (process_update c) w = Returns w' tt
        ∧ fanout_ready l w'
        ∧ agrees_on it (run (OpDeliver <$> upstream) st).1 w'.
Proof.
  intros Hnd Hin. revert st w.
  induction upstream as [|u us IH]; intros st w Hready Hag.
  { by exists w. }
  destruct (process_update_agrees c u it l st w Hnd Hin Hready Hag)
    as (w1 & Hp & Hready1 & Hag1).
  destruct (IH _ w1 Hready1 Hag1) as (w2 & Hf & Hready2 & Hag2).
  exists w2. split; [msimpl; by rewrite Hp|]. split; [done|].
  rewrite fmap_cons, run_cons. done.
Qed.

(** [monitorEvent], seen from one interested handle with every requester
    alive, is the run of one [deliver] per upstream update, in order. *)
Lemma monitorEvent_agrees c upstream it w usr :
  NoDup (interested (entry w)) → it ∈ interested (entry w) →
  fanout_ready (interested (entry w)) w →
  users w !! it = Some usr →
  ∃ w', monitorEvent c upstream w = Returns w' tt
        ∧ fanout_ready (interested (entry w)) w'
        ∧ agrees_on it
            (run (OpDeliver <$> upstream) (elements (heap w), usr)).1 w'.
Proof.
  intros Hnd Hin Hready Hu. unfold monitorEvent. msimpl.
  match goal with |- context [foreach _ _ ?w1] => set (w1' := w1) end.
  apply (foreach_process_agrees c upstream it (interested (entry w))
           (elements (heap w), usr) w1' Hnd Hin).
  - by eapply fanout_ready_ext.
  - exists usr. split; [done|]. split; [|done].
    unfold same_queues. done.
Qed.

(** * More lemmas *)

(** ** Accounting of deliveries *)

Lemma wrap_wrap_add a k : wrap (wrap a + k) = wrap (a + k).
Proof. unfold wrap. by rewrite Zplus_mod_idemp_l. Qed.

Lemma drops_cons ob os : drops (ob :: os) = (drops [ob] + drops os)%nat.
Proof. destruct ob as [[|?]| | | |]; done. Qed.

Lemma offered_cons o ops : offered (o :: ops) = offered [o] ++ offered ops.
Proof. by destruct o. Qed.

Lemma step_accounting o els usr :
  nevents (step o (els, usr)).1.2
    = Nat.iter (length (accepted [o] [(step o (els, usr)).2]))
        epicsAtomicIncrSizeT (nevents usr)
  ∧ ndropped (step o (els, usr)).1.2
    = Nat.iter (drops [(step o (els, usr)).2]) epicsAtomicIncrSizeT (ndropped usr)
  ∧ (length (accepted [o] [(step o (els, usr)).2])
     + drops [(step o (els, usr)).2] = length (offered [o]))%nat
  ∧ nwakeups (step o (els, usr)).1.2 = nwakeups usr.
Proof.
  destruct o as [update| |e| |]; cbn [step].
  - unfold deliver.
    destruct (negb (running usr) || bool_decide (empty usr = [])); [done|].
    destruct (empty usr); done.
  - unfold poll. by destruct (filled usr).
  - unfold release. destruct e as [e|]; [|done].
    by destruct (decide (e ∈ inuse usr)).
  - done.
  - done.
Qed.

Lemma iter_incr_wrap k c :
  Nat.iter k epicsAtomicIncrSizeT (wrap c) = wrap (c + Z.of_nat k).
Proof.
  induction k as [|k IH].
  - simpl. by rewrite Z.add_0_r.
  - rewrite Nat.iter_succ, IH, wrap_incr. f_equal. lia.
Qed.

Lemma run_accounting ops els usr :
  nevents (run ops (els, usr)).1.2
    = Nat.iter (length (accepted ops (run ops (els, usr)).2))
        epicsAtomicIncrSizeT (nevents usr)
  ∧ ndropped (run ops (els, usr)).1.2
    = Nat.iter (drops (run ops (els, usr)).2) epicsAtomicIncrSizeT (ndropped usr)
  ∧ (length (accepted ops (run ops (els, usr)).2)
     + drops (run ops (els, usr)).2 = length (offered ops))%nat
  ∧ nwakeups (run ops (els, usr)).1.2 = nwakeups usr.
Proof.
  revert els usr. induction ops as [|o ops IH]; intros els usr; [done|].
  rewrite run_cons. cbn [fst snd].
  destruct (step_accounting o els usr) as (H1 & H2 & H3 & H4).
  destruct (step o (els, usr)) as [[els1 usr1] ob]. cbn [fst snd] in *.
  destruct (IH els1 usr1) as (I1 & I2 & I3 & I4).
  rewrite accepted_cons, drops_cons, offered_cons, !length_app.
  rewrite I1, I2, I4, H1, H2, H4. rewrite <-!Nat.iter_add.
  split_and!; [f_equal; lia|f_equal; lia|lia|done].
Qed.

(** ** A stopped handle *)

Lemma run_stopped updates els usr :
  running usr = false →
  let r := run (OpDeliver <$> updates) (els, usr) in
  r.1.1 = els
  ∧ empty r.1.2 = empty usr ∧ filled r.1.2 = filled usr
  ∧ inuse r.1.2 = inuse usr ∧ running r.1.2 = false
  ∧ nevents r.1.2 = nevents usr
  ∧ drops r.2 = length updates
  ∧ wakeups r.2 = O
  ∧ accepted (OpDeliver <$> updates) r.2 = [].
Proof.
  revert usr. induction updates as [|u us IH]; intros usr Hr; [done|].
  cbn zeta. rewrite fmap_cons, run_cons. cbn [step fst snd].
  rewrite deliver_drop by auto. cbn [fst snd].
  destruct (IH (count_drop usr) Hr) as (H1&H2&H3&H4&H5&H6&H7&H8&H9).
  rewrite accepted_cons, drops_cons, wakeups_cons. cbn [accepted drops wakeups].
  rewrite H1, H2, H3, H4, H5, H6, H7, H8, H9. done.
Qed.

(** ** Buffers out with the consumer *)

Lemma step_lent_stable n o els usr e :
  pool_inv n usr → e ∈ inuse usr → o ≠ OpRelease (Some e) →
  (step o (els, usr)).1.1 !! e = els !! e
  ∧ e ∈ inuse (step o (els, usr)).1.2.
Proof.
  intros Hinv Hin Hne. destruct o as [update| |m| |]; cbn [step].
  - destruct (running usr) eqn:Hr; [|by rewrite deliver_drop by auto].
    destruct (empty usr) as [|elem rest] eqn:He; [by rewrite deliver_drop by auto|].
    rewrite (deliver_accept _ _ _ elem rest) by done. cbn. split; [|done].
    apply lookup_insert_ne. intros ->.
    apply (pool_empty_inuse _ _ Hinv e); [rewrite He; left|done].
  - unfold poll. destruct (filled usr); cbn; [done|]. split; [done|set_solver].
  - unfold release. destruct m as [m|]; [|done].
    destruct (decide (m ∈ inuse usr)); cbn; [|done]. split; [done|].
    assert (m ≠ e) by congruence. set_solver.
  - done.
  - done.
Qed.

Lemma run_lent_stable n ops els usr e :
  pool_inv n usr → e ∈ inuse usr → OpRelease (Some e) ∉ ops →
  (run ops (els, usr)).1.1 !! e = els !! e
  ∧ e ∈ inuse (run ops (els, usr)).1.2.
Proof.
  revert els usr. induction ops as [|o ops IH]; intros els usr Hinv Hin Hno; [done|].
  rewrite run_cons. cbn [fst].
  assert (o ≠ OpRelease (Some e)) as Ho by (intros ->; apply Hno; left).
  assert (OpRelease (Some e) ∉ ops) as Hno' by (intros ?; apply Hno; by right).
  destruct (step_lent_stable n o els usr e Hinv Hin Ho) as [H1 H2].
  pose proof (step_pool_inv n o (els, usr) Hinv) as Hinv1.
  destruct (step o (els, usr)) as [[els1 usr1] ob]. cbn [fst snd] in *.
  destruct (IH els1 usr1 Hinv1 H2 Hno') as [I1 I2]. by rewrite I1.
Qed.

(** ** poll and release *)

Lemma release_twice m usr :
  (release m (release m usr).1).2
  = inr (invalid_argument "Can't release MonitorElement not in use").
Proof.
  unfold release at 2. destruct m as [e|]; [|done].
  destruct (decide (e ∈ inuse usr)) as [Hin|Hn]; cbn [fst].
  - unfold release. cbn. rewrite decide_False; [done|set_solver].
  - unfold release. by rewrite decide_False.
Qed.

Lemma poll_release n usr e rest :
  pool_inv n usr → filled usr = e :: rest →
  (poll usr).2 = Some e
  ∧ release (Some e) (poll usr).1 =
      ({| req := req usr; running := running usr;
          empty := empty usr ++ [e]; filled := rest; inuse := inuse usr;
          nevents := nevents usr; ndropped := ndropped usr;
          nwakeups := nwakeups usr |}, inl tt).
Proof.
  intros Hinv Hf. unfold poll. rewrite Hf. cbn. split; [done|].
  unfold release. cbn. rewrite decide_True by set_solver. do 2 f_equal.
  assert (e ∉ inuse usr) by (apply (pool_filled_inuse _ _ Hinv); rewrite Hf; left).
  f_equal. set_solver.
Qed.

(** ** When an update is dropped *)


(** ** monitorEvent with live requesters *)

Lemma released_app cs1 cs2 : released (cs1 ++ cs2) = released cs1 ++ released cs2.
Proof.
  induction cs1 as [|k cs1 IH]; [done|]. destruct k; cbn; by rewrite ?IH.
Qed.

Lemma wakeup_calls_app it cs1 cs2 :
  wakeup_calls it (cs1 ++ cs2) = (wakeup_calls it cs1 + wakeup_calls it cs2)%nat.
Proof.
  induction cs1 as [|k cs1 IH]; [done|]. destruct k; cbn; rewrite ?IH; try done.
  by destruct (decide (usr = it)).
Qed.

(** The world after the turn of a live handle, in full. *)
Lemma notify_user_world c update it w usr r :
  users w !! it = Some usr → req usr = Some r →
  ∃ usr',
    notify_user c update it w =
      Returns
        {| heap := {| next := next (heap w); structures := structures (heap w);
                      bitsets := bitsets (heap w);
                      elements := (deliver update (elements (heap w)) usr).1.1 |};
           entry := entry w;
           users := <[it := usr']> (users w);
           calls := calls w ++ (if wakes usr then [req_monitorEvent r it] else []) |}
        tt
    ∧ same_queues usr' (deliver update (elements (heap w)) usr).1.2
    ∧ nwakeups usr'
      = (if wakes usr then epicsAtomicIncrSizeT (nwakeups usr) else nwakeups usr).
Proof.
  intros Hu Hr. unfold notify_user. msimpl. rewrite Hu, Hr.
  pose proof (deliver_wakes update (elements (heap w)) usr) as Hw.
  assert (nwakeups (deliver update (elements (heap w)) usr).1.2 = nwakeups usr) as Hnw.
  { unfold deliver.
    destruct (negb (running usr) || bool_decide (empty usr = [])); [done|].
    by destruct (empty usr). }
  destruct c; msimpl;
    destruct (deliver update (elements (heap w)) usr) as [[els usr'] d];
    cbn [fst snd] in *; msimpl.
  all: destruct d as [|[|]]; msimpl.
  all: destruct (wakes usr);
    try (by (destruct Hw as [Hw1 Hw2]; first [specialize (Hw1 eq_refl)|specialize (Hw2 eq_refl)])).
  all: eexists; unfold set_user, set_elements, set_heap; cbn;
    rewrite ?insert_insert_eq, ?app_nil_r; split; [done|];
    split; [unfold same_queues; done|cbn; by rewrite ?Hnw].
Qed.

Lemma notify_user_returns c update l0 j w :
  j ∈ l0 → all_alive l0 w →
  ∃ w', notify_user c update j w = Returns w' tt
        ∧ all_alive l0 w'
        ∧ entry w' = entry w
        ∧ released (calls w') = released (calls w).
Proof.
  intros Hj Halive. destruct (users w !! j) as [usr|] eqn:Hu; cycle 1.
  { exists w. by rewrite notify_user_absent. }
  destruct (Halive j usr Hj Hu) as [r Hr].
  destruct (notify_user_world c update j w usr r Hu Hr) as (usr' & Hn & Hq & _).
  eexists. split; [exact Hn|]. cbn. split_and!; [|done|].
  - intros k usrk Hk. cbn. destruct (decide (k = j)) as [->|Hne].
    + rewrite lookup_insert_eq. intros [= <-].
      destruct Hq as (Hrq & _). rewrite Hrq, deliver_req. by eexists.
    + rewrite lookup_insert_ne by done. by apply Halive.
  - rewrite released_app. destruct (wakes usr); cbn; by rewrite app_nil_r.
Qed.

Lemma foreach_notify_returns c update l0 l w :
  l ⊆ l0 → all_alive l0 w →
  ∃ w', foreach l (notify_user c update) w = Returns w' tt
        ∧ all_alive l0 w'
        ∧ entry w' = entry w
        ∧ released (calls w') = released (calls w).
Proof.
  revert w. induction l as [|j l IH]; intros w Hsub Halive.
  { by exists w. }
  assert (j ∈ l0) as Hj by (apply Hsub; left).
  assert (l ⊆ l0) as Hsub' by (intros x Hx; apply Hsub; by right).
  destruct (notify_user_returns c update l0 j w Hj Halive)
    as (w1 & Hn & Halive1 & He1 & Hr1).
  destruct (IH w1 Hsub' Halive1) as (w2 & Hf & Halive2 & He2 & Hr2).
  exists w2. msimpl. rewrite Hn. split; [done|].
  split; [done|]. split; congruence.
Qed.

Lemma process_update_returns c update w :
  all_alive (interested (entry w)) w →
  ∃ w', process_update c update w = Returns w' tt
        ∧ all_alive (interested (entry w)) w'
        ∧ entry w' =
            {| typedesc := typedesc (entry w); startresult := startresult (entry w);
               lastval := pvStructurePtr update;
               interested := interested (entry w);
               entry_nwakeups := entry_nwakeups (entry w);
               entry_nevents := epicsAtomicIncrSizeT (entry_nevents (entry w)) |}
        ∧ released (calls w') = released (calls w) ++ [update].
Proof.
  intros Halive. unfold process_update. msimpl.
  match goal with |- context [foreach ?l _ ?w1] =>
    destruct (foreach_notify_returns c update l l w1 ltac:(done) Halive)
      as (w2 & Hf & Halive2 & He2 & Hr2) end.
  rewrite Hf. msimpl. eexists. split; [done|]. cbn.
  split_and!; [done|by rewrite He2|by rewrite released_app, Hr2].
Qed.

Lemma foreach_process_returns c upstream l w :
  interested (entry w) = l → all_alive l w →
  ∃ w', foreach upstream (process_update c) w = Returns w' tt
        ∧ all_alive l w'
        ∧ typedesc (entry w') = typedesc (entry w)
        ∧ startresult (entry w') = startresult (entry w)
        ∧ interested (entry w') = l
        ∧ entry_nwakeups (entry w') = entry_nwakeups (entry w)
        ∧ entry_nevents (entry w')
          = Nat.iter (length upstream) epicsAtomicIncrSizeT (entry_nevents (entry w))
        ∧ released (calls w') = released (calls w) ++ upstream.
Proof.
  revert w. induction upstream as [|u us IH]; intros w Hl Halive.
  { exists w. rewrite app_nil_r. done. }
  subst l. destruct (process_update_returns c u w Halive)
    as (w1 & Hp & Halive1 & He1 & Hr1).
  destruct (IH w1) as (w2 & Hf & Halive2 & Ht & Hs & Hi & Hnw & Hne & Hr2).
  { by rewrite He1. } { done. }
  exists w2. split; [msimpl; by rewrite Hp|].
  rewrite He1 in Ht, Hs, Hnw, Hne. cbn in Ht, Hs, Hnw, Hne.
  split_and!; try done.
  - rewrite Hne. cbn [length]. by rewrite Nat.iter_succ_r.
  - by rewrite Hr2, Hr1, <-app_assoc.
Qed.

Lemma monitorEvent_returns c upstream w :
  all_alive (interested (entry w)) w →
  ∃ w', monitorEvent c upstream w = Returns w' tt
        ∧ all_alive (interested (entry w)) w'
        ∧ typedesc (entry w') = typedesc (entry w)
        ∧ startresult (entry w') = startresult (entry w)
        ∧ interested (entry w') = interested (entry w)
        ∧ entry_nwakeups (entry w') = epicsAtomicIncrSizeT (entry_nwakeups (entry w))
        ∧ entry_nevents (entry w')
          = Nat.iter (length upstream) epicsAtomicIncrSizeT (entry_nevents (entry w))
        ∧ released (calls w') = released (calls w) ++ upstream.
Proof.
  intros Halive. unfold monitorEvent. msimpl.
  match goal with |- context [foreach _ _ ?w1] =>
    destruct (foreach_process_returns c upstream (interested (entry w)) w1
                ltac:(done) Halive)
      as (w2 & Hf & H1 & H2 & H3 & H4 & H5 & H6 & H7) end.
  by exists w2.
Qed.

(** ** monitorConnect, handle by handle *)

Lemma connect_user_returns c result structure it w :
  (∀ usr, users w !! it = Some usr → is_Some (req usr)) →
  connect_user c result structure it w =
    Returns {| heap := heap w; entry := entry w; users := users w;
               calls := calls w ++ connect_note result structure w it |} tt.
Proof.
  intros Ha. unfold connect_user, connect_note. msimpl.
  destruct (users w !! it) as [usr|] eqn:Hu; msimpl.
  - destruct (req usr) as [r|] eqn:Hr; msimpl; [by destruct c|].
    destruct (Ha usr eq_refl) as [r' Hr']. congruence.
  - rewrite app_nil_r. by destruct w.
Qed.

Lemma foreach_connect_returns c result structure l w :
  all_alive l w →
  foreach l (connect_user c result structure) w =
    Returns {| heap := heap w; entry := entry w; users := users w;
               calls := calls w ++ concat (connect_note result structure w <$> l) |} tt.
Proof.
  revert w. induction l as [|j l IH]; intros w Ha.
  { cbn. rewrite app_nil_r. by destruct w. }
  msimpl. rewrite connect_user_returns; cycle 1.
  { intros usr Hu. apply (Ha j); [left|done]. }
  rewrite IH; cycle 1.
  { intros k usr Hk. cbn. apply Ha. by right. }
  cbn. by rewrite <-app_assoc.
Qed.

(** ** Who writes the fields of the entry *)

Lemma start_entry it w : entry (world_of (start it w)) = entry w.
Proof.
  unfold start. msimpl. destruct (users w !! it) as [usr|]; [|done].
  destruct (req usr) as [r|]; [|done].
  destruct (negb (isSuccess (startresult (entry w)))); [done|]. msimpl.
  destruct (start_queue (typedesc (entry w)) (lastval (entry w)) (heap w) usr)
    as [[hp usr'] [|]]; done.
Qed.

Lemma consumer_call_entry c k w :
  is_connect k = false → is_event k = false → entry (wstep c k w) = entry w.
Proof.
  destruct k; cbn [wstep is_connect is_event]; try done; intros _ _.
  - apply start_entry.
  - unfold user_poll. msimpl. by destruct (users w !! it).
  - unfold user_release. msimpl. destruct (users w !! it) as [usr|]; [|done].
    by destruct (release monitorElement usr) as [usr' [[]|e]].
  - unfold user_stop. msimpl. by destruct (users w !! it).
  - unfold user_destroy. msimpl. by destruct (users w !! it).
  - unfold expire. by destruct (users w !! it).
Qed.

Lemma process_update_entry_frame c update w :
  typedesc (entry (world_of (process_update c update w))) = typedesc (entry w)
  ∧ startresult (entry (world_of (process_update c update w))) = startresult (entry w)
  ∧ interested (entry (world_of (process_update c update w))) = interested (entry w).
Proof.
  unfold process_update. msimpl.
  match goal with |- context [foreach ?l ?b ?w1] =>
    pose proof (foreach_preserves l b
      (λ w', typedesc (entry w') = typedesc (entry w)
             ∧ startresult (entry w') = startresult (entry w)
             ∧ interested (entry w') = interested (entry w))
      ltac:(intros x w' Hw'; cbn beta; by rewrite notify_user_entry) w1
      ltac:(done)) as H;
    destruct (foreach l b w1) as [w2 []|w2 e|w2] end; done.
Qed.

Lemma monitorEvent_entry_frame c upstream w :
  typedesc (entry (world_of (monitorEvent c upstream w))) = typedesc (entry w)
  ∧ startresult (entry (world_of (monitorEvent c upstream w))) = startresult (entry w)
  ∧ interested (entry (world_of (monitorEvent c upstream w))) = interested (entry w).
Proof.
  unfold monitorEvent. msimpl.
  match goal with |- context [foreach ?l ?b ?w1] =>
    apply (foreach_preserves l b
      (λ w', typedesc (entry w') = typedesc (entry w)
             ∧ startresult (entry w') = startresult (entry w)
             ∧ interested (entry w') = interested (entry w))) end; [|done].
  intros u w' (H1 & H2 & H3).
  destruct (process_update_entry_frame c u w') as (P1 & P2 & P3).
  split_and!; congruence.
Qed.

Lemma monitorConnect_entry_frame c status upstream_start structure w :
  let w' := world_of (monitorConnect c status upstream_start structure w) in
  lastval (entry w') = lastval (entry w)
  ∧ interested (entry w') = interested (entry w)
  ∧ entry_nwakeups (entry w') = entry_nwakeups (entry w)
  ∧ entry_nevents (entry w') = entry_nevents (entry w).
Proof.
  intros w'. subst w'. unfold monitorConnect.
  set (P := λ w' : World,
    lastval (entry w') = lastval (entry w)
    ∧ interested (entry w') = interested (entry w)
    ∧ entry_nwakeups (entry w') = entry_nwakeups (entry w)
    ∧ entry_nevents (entry w') = entry_nevents (entry w)).
  assert (∀ result l w1, P w1 →
    P (world_of (foreach l (connect_user c result structure) w1))) as Hfor.
  { intros result l w1 H1. apply foreach_preserves; [|done].
    intros it w2 H2. destruct (connect_user_world c result structure it w2) as (He&_).
    unfold P. by rewrite He. }
  destruct (isSuccess status); msimpl;
    match goal with |- context [isSuccess ?r] => destruct (isSuccess r) end; msimpl;
    apply Hfor; done.
Qed.

Lemma wstep_interested c k w :
  interested (entry (wstep c k w)) = interested (entry w).
Proof.
  destruct k eqn:Hk;
    try (rewrite <-Hk, consumer_call_entry by (by subst k); done); cbn [wstep].
  - apply monitorConnect_entry_frame.
  - apply monitorEvent_entry_frame.
Qed.

Lemma wrun_cons c k ks w : wrun c (k :: ks) w = wrun c ks (wstep c k w).
Proof. done. Qed.

Lemma wrun_entry_frame c ks w :
  interested (entry (wrun c ks w)) = interested (entry w)
  ∧ (Forall (λ k, is_connect k = false) ks →
     typedesc (entry (wrun c ks w)) = typedesc (entry w)
     ∧ startresult (entry (wrun c ks w)) = startresult (entry w))
  ∧ (Forall (λ k, is_event k = false) ks →
     lastval (entry (wrun c ks w)) = lastval (entry w)
     ∧ entry_nwakeups (entry (wrun c ks w)) = entry_nwakeups (entry w)
     ∧ entry_nevents (entry (wrun c ks w)) = entry_nevents (entry w)).
Proof.
  revert w. induction ks as [|k ks IH]; intros w; [done|].
  rewrite wrun_cons. destruct (IH (wstep c k w)) as (I1 & I2 & I3).
  split_and!.
  - by rewrite I1, wstep_interested.
  - intros [Hk Hks]%Forall_cons. destruct (I2 Hks) as [-> ->].
    destruct (is_event k) eqn:He.
    + destruct k; try done. cbn [wstep].
      destruct (monitorEvent_entry_frame c upstream w) as (?&?&?). done.
    + by rewrite consumer_call_entry.
  - intros [Hk Hks]%Forall_cons. destruct (I3 Hks) as (-> & -> & ->).
    destruct (is_connect k) eqn:Hc.
    + destruct k; try done. cbn [wstep].
      destruct (monitorConnect_entry_frame c status upstream_start structure w)
        as (?&?&?&?). done.
    + by rewrite consumer_call_entry.
Qed.

Lemma wrun_lastval_stays c ks w :
  payloads_present ks → is_Some (lastval (entry w)) →
  is_Some (lastval (entry (wrun c ks w))).
Proof.
  revert w. induction ks as [|k ks IH]; intros w Hp Hl; [done|].
  rewrite wrun_cons. apply IH.
  { intros upstream u Hin. apply Hp. by right. }
  destruct (is_event k) eqn:He.
  - destruct k; try done. cbn [wstep].
    destruct (monitorEvent_lastval c upstream w) as (pulled & Hpre & Hlv & _).
    rewrite Hlv. destruct (last pulled) as [u|] eqn:Hlast; [|done]. cbn.
    apply (Hp upstream u); [left|].
    apply last_Some in Hlast as [l' ->]. destruct Hpre as [suffix ->].
    set_solver.
  - destruct (is_connect k) eqn:Hc.
    + destruct k; try done. cbn [wstep].
      destruct (monitorConnect_entry_frame c status upstream_start structure w)
        as (Hlv&_). cbn zeta in Hlv. by rewrite Hlv.
    + by rewrite consumer_call_entry.
Qed.

(** ** One owner and one place for every buffer *)

Lemma pool_inv_exclusive n usr : pool_inv n usr → exclusive usr.
Proof.
  intros Hinv. unfold exclusive, pool_count. by rewrite (pool_total _ _ Hinv).
Qed.

Lemma exclusive_queues a b :
  empty a = empty b → filled a = filled b → inuse a = inuse b →
  exclusive b → exclusive a.
Proof.
  intros He Hf Hi [H1 H2 H3 H4 H5 H6].
  unfold exclusive, pool_count in *.
  constructor; rewrite ?He, ?Hf, ?Hi; done.
Qed.

Lemma start_queue_exclusive td lval hp usr :
  exclusive usr → (∀ e, e ∈ owned usr → (e < next hp)%nat) →
  exclusive (start_queue td lval hp usr).1.2.
Proof.
  intros [_ Hnf _ _ Hfi _] Hlt.
  destruct (new_elements_spec pool_size td hp) as (Hl&Hn&Hd&Hr&Hk).
  assert (∀ e, e ∈ (new_elements pool_size td hp).1 → e ∉ owned usr) as Hfresh.
  { intros e He Ho. apply Hr in He. apply Hlt in Ho. lia. }
  assert (∀ e, e ∈ filled usr → e ∈ owned usr) as Hfo by (unfold owned; set_solver).
  assert (∀ e, e ∈ inuse usr → e ∈ owned usr) as Hio by (unfold owned; set_solver).
  destruct lval as [v|].
  - rewrite start_queue_some. cbn [fst snd]. revert Hl Hd Hr Hfresh.
    unfold pool_size. cbn. intros _ Hd _ Hfresh.
    apply NoDup_cons in Hd as [Hhd Hd].
    constructor; cbn.
    + done.
    + apply NoDup_app. split_and!; [done| |apply NoDup_singleton].
      intros x Hx ->%list_elem_of_singleton. eapply Hfresh; [left|by apply Hfo].
    + intros e He [Hf| ->%list_elem_of_singleton]%elem_of_app; [|done].
      eapply Hfresh; [by right|by apply Hfo].
    + intros e He Hi. eapply Hfresh; [by right|by apply Hio].
    + intros e [Hf| ->%list_elem_of_singleton]%elem_of_app; [by apply Hfi|].
      intros Hi. eapply Hfresh; [left|by apply Hio].
    + done.
  - rewrite start_queue_none. cbn [fst snd].
    constructor; cbn [empty filled inuse].
    + done.
    + done.
    + intros e He Hf. eapply Hfresh; [done|by apply Hfo].
    + intros e He Hi. eapply Hfresh; [done|by apply Hio].
    + done.
    + done.
Qed.

Lemma well_owned_set_user w it usr usr' :
  users w !! it = Some usr → owned usr' = owned usr → exclusive usr' →
  well_owned w → well_owned (set_user it usr' w).
Proof.
  intros Hu Ho Hex [Hsep Hall]. split; [by apply separate_set_user with usr|].
  intros j usrj. cbn. destruct (decide (j = it)) as [->|Hne].
  - rewrite lookup_insert_eq. by intros [= <-].
  - rewrite lookup_insert_ne by done. apply Hall.
Qed.

Lemma well_owned_ext w w' :
  users w' = users w → next (heap w') = next (heap w) →
  well_owned w → well_owned w'.
Proof.
  intros Hu Hn [Hsep Hall]. split; [by eapply separate_ext|].
  intros j usrj. rewrite Hu. apply Hall.
Qed.

Lemma deliver_exclusive update els usr :
  exclusive usr → exclusive (deliver update els usr).1.2.
Proof. intros Hex. eapply pool_inv_exclusive, deliver_pool_inv, Hex. Qed.

Lemma notify_user_well_owned c update it w :
  well_owned w → well_owned (world_of (notify_user c update it w)).
Proof.
  intros Hw. unfold notify_user. msimpl.
  destruct (users w !! it) as [usr|] eqn:Hu; [|done].
  assert (∀ r : option addr, well_owned (world_of
    ((let '(els, usr', d) := deliver update (elements (heap w)) usr in
      modify (λ w, set_user it usr' (set_elements els w)) ≫= λ _,
      match d with
      | Dropped => mret tt
      | Delivered false => mret tt
      | Delivered true =>
          modify (set_user it
            {| req := req usr'; running := running usr';
               empty := empty usr'; filled := filled usr'; inuse := inuse usr';
               nevents := nevents usr'; ndropped := ndropped usr';
               nwakeups := epicsAtomicIncrSizeT (nwakeups usr') |}) ≫= λ _,
          match r with
          | Some r => emit (req_monitorEvent r it)
          | None => null_deref
          end
      end) w))) as Hbody.
  { intros r. pose proof (deliver_owned update (elements (heap w)) usr) as Ho.
    pose proof (deliver_exclusive update (elements (heap w)) usr
                  (proj2 Hw it usr Hu)) as Hex.
    destruct (deliver update (elements (heap w)) usr) as [[els usr'] d].
    cbn [fst snd] in Ho, Hex. msimpl.
    assert (well_owned (set_user it usr' (set_elements els w))) as Hs1.
    { apply well_owned_set_user with usr; [done|done|done|].
      by apply (well_owned_ext w). }
    destruct d as [|[|]]; msimpl; [done| |done].
    assert (well_owned (set_user it
            {| req := req usr'; running := running usr';
               empty := empty usr'; filled := filled usr'; inuse := inuse usr';
               nevents := nevents usr'; ndropped := ndropped usr';
               nwakeups := epicsAtomicIncrSizeT (nwakeups usr') |}
            (set_user it usr' (set_elements els w)))) as Hs2.
    { apply well_owned_set_user with usr'; [cbn; apply lookup_insert_eq|done| |done].
      by apply (exclusive_queues _ usr'). }
    destruct r as [r|]; msimpl; [|done].
    by eapply well_owned_ext; [| |exact Hs2]. }
  destruct (req usr) as [r|], c; msimpl; try done.
  - apply (Hbody (Some r)).
  - apply (Hbody (Some r)).
  - apply (Hbody None).
Qed.

Lemma monitorEvent_well_owned c upstream w :
  well_owned w → well_owned (world_of (monitorEvent c upstream w)).
Proof.
  intros Hw. unfold monitorEvent. msimpl.
  apply foreach_preserves; [|by apply (well_owned_ext w)].
  intros u w1 Hw1. unfold process_update. msimpl.
  match goal with |- context [foreach ?l ?b ?w2] =>
    pose proof (foreach_preserves l b well_owned
      ltac:(intros x w' Hw'; by apply notify_user_well_owned) w2
      ltac:(by apply (well_owned_ext w1))) as H;
    destruct (foreach l b w2) as [w3 []|w3 e|w3] end; done.
Qed.

Lemma start_well_owned it w : well_owned w → well_owned (world_of (start it w)).
Proof.
  intros [Hsep Hall]. split; [by apply start_separate|].
  destruct (users w !! it) as [usr|] eqn:Hu; cycle 1.
  { unfold start. msimpl. by rewrite Hu. }
  destruct (req usr) as [r|] eqn:Hr; [|by erewrite start_dead].
  destruct (isSuccess (startresult (entry w))) eqn:Hok;
    [|by erewrite start_failed].
  erewrite start_ok by done. cbn [world_of users].
  intros j usrj. destruct (decide (j = it)) as [->|Hne].
  - rewrite lookup_insert_eq. intros [= <-].
    apply start_queue_exclusive; [by apply (Hall it)|].
    intros e He. by apply (proj1 Hsep it usr).
  - rewrite lookup_insert_ne by done. apply Hall.
Qed.

Lemma wstep_well_owned c k w : well_owned w → well_owned (wstep c k w).
Proof.
  intros Hw. destruct k; cbn [wstep].
  - destruct (monitorConnect_spec c status upstream_start structure w)
      as (_&_&_&Hh&Hu&_). eapply well_owned_ext; [exact Hu|by rewrite Hh|done].
  - by apply monitorEvent_well_owned.
  - by apply start_well_owned.
  - unfold user_poll. msimpl. destruct (users w !! it) as [usr|] eqn:Hu; [|done].
    msimpl. apply well_owned_set_user with usr; [done|apply poll_owned| |done].
    eapply pool_inv_exclusive, poll_pool_inv, (proj2 Hw it usr Hu).
  - unfold user_release. msimpl.
    destruct (users w !! it) as [usr|] eqn:Hu; [|done].
    pose proof (release_owned monitorElement usr) as Ho.
    pose proof (release_pool_inv _ monitorElement usr (proj2 Hw it usr Hu)) as Hp.
    destruct (release monitorElement usr) as [usr' [[]|e]]; msimpl; [|done].
    apply well_owned_set_user with usr; [done|done| |done].
    by eapply pool_inv_exclusive.
  - unfold user_stop. msimpl. destruct (users w !! it) as [usr|] eqn:Hu; [|done].
    msimpl. apply well_owned_set_user with usr; [done|done| |done].
    by apply (exclusive_queues _ usr), (proj2 Hw it).
  - unfold user_destroy. msimpl.
    destruct (users w !! it) as [usr|] eqn:Hu; [|done].
    msimpl. apply well_owned_set_user with usr; [done|done| |done].
    by apply (exclusive_queues _ usr), (proj2 Hw it).
  - unfold expire. destruct (users w !! it) as [usr|] eqn:Hu; [|done].
    apply well_owned_set_user with usr; [done|done| |done].
    by apply (exclusive_queues _ usr), (proj2 Hw it).
Qed.

Lemma wrun_well_owned c ks w : well_owned w → well_owned (wrun c ks w).
Proof.
  revert w. induction ks as [|k ks IH]; intros w Hw; [done|].
  rewrite wrun_cons. by apply IH, wstep_well_owned.
Qed.

(** ** What start queues *)

Lemma start_with_lastval it w usr r v :
  users w !! it = Some usr → req usr = Some r →
  isSuccess (startresult (entry w)) = true →
  lastval (entry w) = Some v →
  ∃ w' usr' elem b o,
    start it w = Returns w' Status_Ok
    ∧ users w' !! it = Some usr'
    ∧ running usr' = true
    ∧ filled usr' = filled usr ++ [elem]
    ∧ length (empty usr') = 3%nat
    ∧ inuse usr' = inuse usr
    ∧ elements (heap w') !! elem
      = Some {| pvStructurePtr := Some v; changedBitSet := Some b;
                overrunBitSet := Some o |}
    ∧ (next (heap w) ≤ b)%nat ∧ (next (heap w) ≤ o)%nat
    ∧ bitsets (heap w') !! b = Some {[0%nat]}
    ∧ bitsets (heap w') !! o = Some ∅
    ∧ calls w' = calls w ++ [req_monitorEvent r it].
Proof.
  intros Hu Hr Hs Hl. rewrite (start_ok it w usr r) by done.
  rewrite Hl, start_queue_some. cbn [fst snd].
  eexists _, _, _, _, _. split; [done|]. cbn [users heap elements bitsets calls].
  split_and!.
  - apply lookup_insert_eq.
  - done.
  - done.
  - unfold pool_size. cbn. done.
  - done.
  - apply lookup_insert_eq.
  - lia.
  - lia.
  - unfold pool_size. cbn. rewrite lookup_alter_eq.
    rewrite !lookup_insert_ne by lia. rewrite lookup_insert_eq. cbn.
    f_equal.
  - unfold pool_size. cbn. rewrite lookup_alter_ne by lia.
    rewrite !lookup_insert_ne by lia. apply lookup_insert_eq.
  - done.
Qed.

Lemma new_elements_fresh n td hp e :
  e ∈ (new_elements n td hp).1 →
  ∃ s b o, elements (new_elements n td hp).2 !! e
           = Some {| pvStructurePtr := Some s; changedBitSet := Some b;
                     overrunBitSet := Some o |}
         ∧ (next hp ≤ s)%nat ∧ (next hp ≤ b)%nat ∧ (next hp ≤ o)%nat
         ∧ structures (new_elements n td hp).2 !! s = Some td
         ∧ bitsets (new_elements n td hp).2 !! b = Some ∅
         ∧ bitsets (new_elements n td hp).2 !! o = Some ∅.
Proof.
  revert hp. induction n as [|n IH]; intros hp; [inversion 1|].
  rewrite new_elements_S. cbn [fst snd].
  assert (∀ hp0 a,
    (a < next hp0)%nat →
    elements (new_elements n td hp0).2 !! a = elements hp0 !! a
    ∧ structures (new_elements n td hp0).2 !! a = structures hp0 !! a
    ∧ bitsets (new_elements n td hp0).2 !! a = bitsets hp0 !! a) as Hkeep.
  { clear. induction n as [|n IHn]; intros hp0 a Ha; [done|].
    rewrite new_elements_S. cbn [fst snd].
    destruct (IHn (new_MonitorElement td hp0).2 a) as (H1&H2&H3); [cbn; lia|].
    rewrite H1, H2, H3. cbn.
    rewrite !lookup_insert_ne by lia. done. }
  intros [->|Hin]%elem_of_cons.
  - destruct (Hkeep (new_MonitorElement td hp).2 (S (S (S (next hp)))))
      as (H1&_); [cbn; lia|].
    destruct (Hkeep (new_MonitorElement td hp).2 (next hp)) as (_&H2&_); [cbn; lia|].
    destruct (Hkeep (new_MonitorElement td hp).2 (S (next hp))) as (_&_&H3); [cbn; lia|].
    destruct (Hkeep (new_MonitorElement td hp).2 (S (S (next hp)))) as (_&_&H4); [cbn; lia|].
    exists (next hp), (S (next hp)), (S (S (next hp))).
    cbn [fst new_MonitorElement]. rewrite H1, H2, H3, H4. cbn.
    rewrite !lookup_insert_eq. rewrite lookup_insert_ne by lia.
    rewrite lookup_insert_eq. split_and!; try done; lia.
  - destruct (IH _ Hin) as (s&b&o&He&Hs&Hb&Ho&Hst&Hbb&Hbo).
    exists s, b, o. cbn in Hs, Hb, Ho. split_and!; try done; lia.
Qed.

Lemma start_without_lastval it w usr r :
  users w !! it = Some usr → req usr = Some r →
  isSuccess (startresult (entry w)) = true →
  lastval (entry w) = None →
  ∃ w' usr',
    start it w = Returns w' Status_Ok
    ∧ users w' !! it = Some usr'
    ∧ running usr' = true
    ∧ filled usr' = filled usr
    ∧ inuse usr' = inuse usr
    ∧ length (empty usr') = 4%nat
    ∧ NoDup (empty usr')
    ∧ (∀ e, e ∈ empty usr' →
         ∃ s b o, elements (heap w') !! e
                  = Some {| pvStructurePtr := Some s; changedBitSet := Some b;
                            overrunBitSet := Some o |}
                ∧ (next (heap w) ≤ s)%nat
                ∧ structures (heap w') !! s = Some (typedesc (entry w))
                ∧ bitsets (heap w') !! b = Some ∅
                ∧ bitsets (heap w') !! o = Some ∅)
    ∧ calls w' = calls w.
Proof.
  intros Hu Hr Hs Hl. rewrite (start_ok it w usr r) by done.
  rewrite Hl, start_queue_none. cbn [fst snd].
  destruct (new_elements_spec pool_size (typedesc (entry w)) (heap w))
    as (Hlen&_&Hnd&_&_).
  eexists _, _. split; [done|]. cbn [users heap calls].
  split; [apply lookup_insert_eq|]. cbn [running filled inuse empty].
  split_and!; try done.
  - intros e He.
    destruct (new_elements_fresh _ _ _ e He) as (s&b&o&H1&H2&_&_&H3&H4&H5).
    by exists s, b, o.
  - by rewrite app_nil_r.
Qed.

(** ** Isolation of the handles *)




(** ** Buffers out with the consumer, in the world *)

(** However the turn of [it] ends, either nothing was written, or the
    handle and the elements are those [deliver] leaves. *)
Lemma notify_user_outcome c update it w :
  let w' := world_of (notify_user c update it w) in
  next (heap w') = next (heap w)
  ∧ ((users w' = users w ∧ elements (heap w') = elements (heap w))
     ∨ ∃ usr usr',
         users w !! it = Some usr
         ∧ users w' = <[it := usr']> (users w)
         ∧ same_queues usr' (deliver update (elements (heap w)) usr).1.2
         ∧ elements (heap w') = (deliver update (elements (heap w)) usr).1.1).
Proof.
  intros w'. subst w'. unfold notify_user. msimpl.
  destruct (users w !! it) as [usr|] eqn:Hu; [|by split; [|left]].
  assert (∀ r : option addr,
    let w' := world_of
      ((let '(els, usr', d) := deliver update (elements (heap w)) usr in
        modify (λ w, set_user it usr' (set_elements els w)) ≫= λ _,
        match d with
        | Dropped => mret tt
        | Delivered false => mret tt
        | Delivered true =>
            modify (set_user it
              {| req := req usr'; running := running usr';
                 empty := empty usr'; filled := filled usr'; inuse := inuse usr';
                 nevents := nevents usr'; ndropped := ndropped usr';
                 nwakeups := epicsAtomicIncrSizeT (nwakeups usr') |}) ≫= λ _,
            match r with
            | Some r => emit (req_monitorEvent r it)
            | None => null_deref
            end
        end) w) in
    next (heap w') = next (heap w)
    ∧ ∃ usr', users w' = <[it := usr']> (users w)
              ∧ same_queues usr' (deliver update (elements (heap w)) usr).1.2
              ∧ elements (heap w') = (deliver update (elements (heap w)) usr).1.1)
    as Hbody.
  { intros r.
    destruct (deliver update (elements (heap w)) usr) as [[els usr'] d].
    cbn [fst snd]. destruct d as [|[|]]; msimpl.
    - split; [done|]. exists usr'. unfold same_queues. done.
    - destruct r as [r|]; msimpl; (split; [done|]); eexists;
        rewrite insert_insert_eq; unfold same_queues; done.
    - split; [done|]. exists usr'. unfold same_queues. done. }
  destruct (req usr) as [r|], c; msimpl.
  - destruct (Hbody (Some r)) as (Hn & usr' & H1 & H2 & H3).
    split; [done|]. right. by exists usr, usr'.
  - destruct (Hbody (Some r)) as (Hn & usr' & H1 & H2 & H3).
    split; [done|]. right. by exists usr, usr'.
  - split; [done|]. by left.
  - destruct (Hbody None) as (Hn & usr' & H1 & H2 & H3).
    split; [done|]. right. by exists usr, usr'.
Qed.

Lemma lent_ext it e v w w' :
  users w' = users w → elements (heap w') = elements (heap w) →
  lent it e v w → lent it e v w'.
Proof. intros Hu He (usr & H1 & H2 & H3). exists usr. by rewrite Hu, He. Qed.

Lemma start_queue_keeps td lval hp usr e :
  (e < next hp)%nat →
  elements (start_queue td lval hp usr).1.1 !! e = elements hp !! e.
Proof.
  intros He. destruct (new_elements_spec pool_size td hp) as (_&_&_&_&Hk).
  destruct lval as [v|].
  - rewrite start_queue_some. cbn. rewrite lookup_insert_ne by lia. by apply Hk.
  - rewrite start_queue_none. cbn. by apply Hk.
Qed.

Lemma notify_user_lent c update j w it e v :
  well_owned w → lent it e v w →
  lent it e v (world_of (notify_user c update j w)).
Proof.
  intros [Hsep Hex] (usr & Hu & Hin & Hv).
  destruct (notify_user_outcome c update j w) as (_ & [[Hus Hel]|Hch]).
  { exists usr. by rewrite Hus, Hel. }
  destruct Hch as (usrj & usr' & Huj & Hus & Hq & Hel).
  destruct (decide (j = it)) as [->|Hne].
  - assert (usrj = usr) as -> by congruence.
    destruct (step_lent_stable _ (OpDeliver update) (elements (heap w)) usr e
                (Hex it usr Hu) Hin ltac:(done)) as [H1 H2].
    cbn [step] in H1, H2.
    destruct (deliver update (elements (heap w)) usr) as [[els1 usr1] d1].
    cbn [fst snd] in *. exists usr'. rewrite Hus, Hel, lookup_insert_eq.
    split; [done|]. split; [|congruence].
    destruct Hq as (_&_&_&_&->&_). done.
  - exists usr. rewrite Hus, Hel, lookup_insert_ne by done.
    split; [done|]. split; [done|]. rewrite deliver_writes; [done|].
    destruct Hsep as [_ Hdis]. specialize (Hdis j it usrj usr Hne Huj Hu).
    assert (e ∈ owned usr) by (unfold owned; set_solver). set_solver.
Qed.

Lemma monitorEvent_lent c upstream w it e v :
  well_owned w → lent it e v w →
  well_owned (world_of (monitorEvent c upstream w))
  ∧ lent it e v (world_of (monitorEvent c upstream w)).
Proof.
  intros Hw Hl. unfold monitorEvent. msimpl.
  apply (foreach_preserves upstream (process_update c)
           (λ w', well_owned w' ∧ lent it e v w')).
  - intros u w1 [Hw1 Hl1]. unfold process_update. msimpl.
    match goal with |- context [foreach ?l ?b ?w2] =>
      pose proof (foreach_preserves l b (λ w', well_owned w' ∧ lent it e v w')
        ltac:(intros x w' [Hw' Hl']; split;
              [by apply notify_user_well_owned|by apply notify_user_lent]) w2
        ltac:(split; [by apply (well_owned_ext w1)|by apply (lent_ext it e v w1)]))
        as [H1 H2];
      destruct (foreach l b w2) as [w3 []|w3 ex|w3] end; done.
  - split; [by apply (well_owned_ext w)|by apply (lent_ext it e v w)].
Qed.

Lemma wstep_lent c k w it e v :
  well_owned w → lent it e v w → k ≠ CallRelease it (Some e) →
  lent it e v (wstep c k w).
Proof.
  intros Hw (usr & Hu & Hin & Hv) Hk.
  assert (lent it e v w) as Hl by (by exists usr).
  destruct k; cbn [wstep].
  - destruct (monitorConnect_spec c status upstream_start structure w)
      as (_&_&_&Hh&Hus&_). eapply lent_ext; [exact Hus|by rewrite Hh|done].
  - by apply monitorEvent_lent.
  - destruct (users w !! it0) as [usr0|] eqn:Hu0; cycle 1.
    { unfold start. msimpl. by rewrite Hu0. }
    destruct (req usr0) as [r|] eqn:Hr; [|by erewrite start_dead].
    destruct (isSuccess (startresult (entry w))) eqn:Hok;
      [|by erewrite start_failed].
    erewrite start_ok by done. cbn [world_of].
    assert (e < next (heap w))%nat as Hlt.
    { apply (proj1 (proj1 Hw) it usr e Hu). unfold owned. set_solver. }
    destruct (decide (it0 = it)) as [->|Hne].
    + assert (usr0 = usr) as -> by congruence.
      eexists. cbn -[start_queue]. rewrite lookup_insert_eq. split; [done|].
      split; [|by rewrite start_queue_keeps].
      by rewrite (proj2 (proj2 (start_queue_req _ _ _ _))).
    + exists usr. cbn -[start_queue]. rewrite lookup_insert_ne by done.
      split; [done|]. split; [done|]. by rewrite start_queue_keeps.
  - unfold user_poll. msimpl. destruct (users w !! it0) as [usr0|] eqn:Hu0; [|done].
    msimpl. destruct (decide (it0 = it)) as [->|Hne].
    + assert (usr0 = usr) as -> by congruence.
      eexists. cbn. rewrite lookup_insert_eq. split; [done|]. split; [|done].
      unfold poll. destruct (filled usr); cbn; set_solver.
    + exists usr. cbn. by rewrite lookup_insert_ne.
  - unfold user_release. msimpl.
    destruct (users w !! it0) as [usr0|] eqn:Hu0; [|done].
    destruct (decide (it0 = it)) as [->|Hne].
    + assert (usr0 = usr) as -> by congruence.
      assert (monitorElement ≠ Some e) as Hm by congruence.
      unfold release. destruct monitorElement as [m|]; cbn; [|done].
      destruct (decide (m ∈ inuse usr)); cbn; [|done].
      eexists. cbn. rewrite lookup_insert_eq. split; [done|]. split; [|done].
      cbn. assert (m ≠ e) by congruence. set_solver.
    + destruct (release monitorElement usr0) as [usr' [[]|ex]]; msimpl; [|done].
      exists usr. cbn. by rewrite lookup_insert_ne.
  - unfold user_stop. msimpl. destruct (users w !! it0) as [usr0|] eqn:Hu0; [|done].
    msimpl. destruct (decide (it0 = it)) as [->|Hne].
    + assert (usr0 = usr) as -> by congruence.
      eexists. cbn. rewrite lookup_insert_eq. done.
    + exists usr. cbn. by rewrite lookup_insert_ne.
  - unfold user_destroy. msimpl.
    destruct (users w !! it0) as [usr0|] eqn:Hu0; [|done].
    msimpl. destruct (decide (it0 = it)) as [->|Hne].
    + assert (usr0 = usr) as -> by congruence.
      eexists. cbn. rewrite lookup_insert_eq. done.
    + exists usr. cbn. by rewrite lookup_insert_ne.
  - unfold expire. destruct (users w !! it0) as [usr0|] eqn:Hu0; [|done].
    destruct (decide (it0 = it)) as [->|Hne].
    + assert (usr0 = usr) as -> by congruence.
      eexists. cbn. rewrite lookup_insert_eq. done.
    + exists usr. cbn. by rewrite lookup_insert_ne.
Qed.

(** ** Handles no call names *)

Lemma foreach_preserves_in {A} (l : list A) (body : A → M unit) (P : World → Prop) :
  (∀ x w, x ∈ l → P w → P (world_of (body x w))) →
  ∀ w, P w → P (world_of (foreach l body w)).
Proof.
  induction l as [|x l IH]; intros Hbody w Hw; [done|].
  pose proof (Hbody x w ltac:(left) Hw) as Hx. msimpl.
  destruct (body x w) as [w1 []|w1 e|w1]; cbn in *; [|done|done].
  apply IH; [|done]. intros y w' Hy. apply Hbody. by right.
Qed.

Lemma monitorEvent_untouched c upstream w j :
  j ∉ interested (entry w) →
  users (world_of (monitorEvent c upstream w)) !! j = users w !! j.
Proof.
  intros Hj. unfold monitorEvent. msimpl.
  set (P := λ w' : World,
    users w' !! j = users w !! j ∧ interested (entry w') = interested (entry w)).
  match goal with |- context [foreach _ _ ?w1] =>
    enough (P (world_of (foreach upstream (process_update c) w1))) as [H _]
      by exact H end.
  apply foreach_preserves; [|done].
  intros u w1 [H1 H2]. unfold process_update. msimpl.
  match goal with |- context [foreach ?l ?b ?w2] =>
    pose proof (foreach_preserves_in l b P) as Hf;
    specialize (Hf ltac:(
      intros it w' Hit [Hw1 Hw2]; split;
      [destruct (notify_user_outcome c u it w') as (_ & [[-> _]|(usr&usr'&_&->&_)]);
         [done|rewrite lookup_insert_ne; [done|]; intros ->; apply Hj; by rewrite <-H2]
      |by rewrite notify_user_entry]) w2 ltac:(done));
    destruct (foreach l b w2) as [w3 []|w3 ex|w3] end; done.
Qed.

Lemma wstep_untouched c k w j :
  j ∉ targets w k → users (wstep c k w) !! j = users w !! j.
Proof.
  intros Hj. destruct k; cbn [wstep targets] in *.
  - destruct (monitorConnect_spec c status upstream_start structure w)
      as (_&_&_&_&Hus&_). by rewrite Hus.
  - by apply monitorEvent_untouched.
  - assert (it ≠ j) as Hne by set_solver.
    destruct (users w !! it) as [usr|] eqn:Hu; cycle 1.
    { unfold start. msimpl. by rewrite Hu. }
    destruct (req usr) as [r|] eqn:Hr; [|by erewrite start_dead].
    destruct (isSuccess (startresult (entry w))) eqn:Hok;
      [|by erewrite start_failed].
    erewrite start_ok by done. cbn -[start_queue]. by rewrite lookup_insert_ne.
  - assert (it ≠ j) as Hne by set_solver.
    unfold user_poll. msimpl. destruct (users w !! it) as [usr|] eqn:Hu; [|done].
    msimpl. by rewrite lookup_insert_ne.
  - assert (it ≠ j) as Hne by set_solver.
    unfold user_release. msimpl. destruct (users w !! it) as [usr|] eqn:Hu; [|done].
    destruct (release monitorElement usr) as [usr' [[]|ex]]; msimpl; [|done].
    by rewrite lookup_insert_ne.
  - assert (it ≠ j) as Hne by set_solver.
    unfold user_stop. msimpl. destruct (users w !! it) as [usr|] eqn:Hu; [|done].
    msimpl. by rewrite lookup_insert_ne.
  - assert (it ≠ j) as Hne by set_solver.
    unfold user_destroy. msimpl. destruct (users w !! it) as [usr|] eqn:Hu; [|done].
    msimpl. by rewrite lookup_insert_ne.
  - assert (it ≠ j) as Hne by set_solver.
    unfold expire. destruct (users w !! it) as [usr|] eqn:Hu; [|done].
    cbn. by rewrite lookup_insert_ne.
Qed.

Lemma targets_interested w w' k :
  interested (entry w') = interested (entry w) → targets w' k = targets w k.
Proof. intros Hi. destruct k; cbn; done. Qed.

Lemma destroyed_app cs1 cs2 :
  destroyed (cs1 ++ cs2) = destroyed cs1 ++ destroyed cs2.
Proof. induction cs1 as [|[m|] cs1 IH]; cbn; by rewrite ?IH. Qed.

Lemma unlisten_once l :
  mon (unlisten l) = None
  ∧ destroyed (link_calls (unlisten l))
    = destroyed (link_calls l) ++ option_list (mon l).
Proof.
  unfold unlisten. destruct (mon l) as [m|] eqn:Hm; cbn.
  - by rewrite destroyed_app.
  - by rewrite Hm, app_nil_r.
Qed.

Lemma unlisten_iter k l :
  destroyed (link_calls (Nat.iter k unlisten l))
  = destroyed (link_calls l) ++ (if k is O then [] else option_list (mon l))
  ∧ mon (Nat.iter k unlisten l) = (if k is O then mon l else None).
Proof.
  induction k as [|k [IH1 IH2]]; [by rewrite app_nil_r|].
  rewrite Nat.iter_succ.
  destruct (unlisten_once (Nat.iter k unlisten l)) as [H1 H2].
  split; [|exact H1]. rewrite H2, IH1, IH2.
  destruct k; cbn; by rewrite app_nil_r.
Qed.

Lemma lifecycle_destroys_once k l num :
  let r := MonitorCacheEntry_destructor (Nat.iter k unlisten l) num in
  mon r.1 = None
  ∧ destroyed (link_calls r.1) = destroyed (link_calls l) ++ option_list (mon l).
Proof.
  cbn zeta. unfold MonitorCacheEntry_destructor. cbn [fst].
  destruct (unlisten_iter k l) as [H1 H2].
  destruct (mon (Nat.iter k unlisten l)) as [m|] eqn:Hm; cbn.
  - destruct k; [|done]. cbn in *. rewrite destroyed_app, Hm. done.
  - split; [done|]. rewrite H1. destruct k; [|done].
    cbn in Hm. by rewrite Hm.
Qed.

Lemma incr_decr c :
  0 ≤ c < size_t_modulus →
  epicsAtomicDecrSizeT (epicsAtomicIncrSizeT c) = c
  ∧ epicsAtomicIncrSizeT (epicsAtomicDecrSizeT c) = c.
Proof.
  intros Hc. unfold epicsAtomicDecrSizeT, epicsAtomicIncrSizeT, wrap.
  rewrite Zminus_mod_idemp_l, Zplus_mod_idemp_l.
  replace (c + 1 - 1) with c by lia. replace (c - 1 + 1) with c by lia.
  by rewrite Z.mod_small.
Qed.

(** ** Wakeups in the fan-out *)

Lemma woken_ext it n base nw0 w w' :
  users w' = users w → wakeup_calls it (calls w') = wakeup_calls it (calls w) →
  woken it n base nw0 w → woken it n base nw0 w'.
Proof. intros Hu Hc [H1 H2]. split; [congruence|by rewrite Hu]. Qed.

Lemma wakes_same_queues a b : same_queues a b → wakes a = wakes b.
Proof. intros (_&Hr&He&Hf&_). unfold wakes. by rewrite Hr, He, Hf. Qed.

Lemma wakeups_step_deliver update st :
  wakeups [(step (OpDeliver update) st).2] = (if wakes st.2 then 1 else 0)%nat.
Proof.
  destruct st as [els usr]. cbn [step snd].
  pose proof (deliver_wakes update els usr) as Hw.
  destruct (deliver update els usr) as [[els1 usr1] d]. cbn [snd] in *.
  destruct (wakes usr).
  - by rewrite (proj2 Hw eq_refl).
  - destruct d as [|[|]]; [done| |done]. by destruct (proj1 Hw eq_refl).
Qed.

Section wakeup_count.
Context (c : weak_conversion) (update : MonitorElement) (it : nat).

Lemma notify_user_woken_self l st w n base nw0 :
  it ∈ l → fanout_ready l w → agrees_on it st w → woken it n base nw0 w →
  ∀ w', notify_user c update it w = Returns w' tt →
        woken it (n + wakeups [(step (OpDeliver update) st).2]) base nw0 w'.
Proof.
  intros Hin (_ & _ & Halive) (usr & Hu & Hq & _) (Hc & usr0 & Hu0 & Hnw) w' Hn.
  assert (usr0 = usr) as -> by congruence.
  destruct (Halive it usr Hin Hu) as [r Hr].
  destruct (notify_user_world c update it w usr r Hu Hr) as (usr' & Hn' & _ & Hnw').
  rewrite Hn' in Hn. injection Hn as <-.
  rewrite wakeups_step_deliver, <-(wakes_same_queues _ _ Hq).
  split; cbn.
  - rewrite wakeup_calls_app, Hc. destruct (wakes usr); cbn; [|lia].
    rewrite decide_True by done. lia.
  - exists usr'. rewrite lookup_insert_eq. split; [done|]. rewrite Hnw', Hnw.
    destruct (wakes usr).
    + replace (n + 1)%nat with (S n) by lia. by rewrite Nat.iter_succ.
    + by rewrite Nat.add_0_r.
Qed.

Lemma notify_user_woken_other l w j n base nw0 :
  j ≠ it → j ∈ l → fanout_ready l w → woken it n base nw0 w →
  ∀ w', notify_user c update j w = Returns w' tt → woken it n base nw0 w'.
Proof.
  intros Hne Hin (_ & _ & Halive) (Hc & usr0 & Hu0 & Hnw) w' Hn.
  destruct (users w !! j) as [usrj|] eqn:Huj; cycle 1.
  { rewrite notify_user_absent in Hn by done. injection Hn as <-.
    split; [done|]. by exists usr0. }
  destruct (Halive j usrj Hin Huj) as [r Hr].
  destruct (notify_user_world c update j w usrj r Huj Hr) as (usr' & Hn' & _ & _).
  rewrite Hn' in Hn. injection Hn as <-. split; cbn.
  - rewrite wakeup_calls_app, Hc. destruct (wakes usrj); cbn; [|lia].
    rewrite decide_False by done. lia.
  - exists usr0. by rewrite lookup_insert_ne.
Qed.

Lemma foreach_notify_woken l0 l st w n base nw0 :
  NoDup l → l ⊆ l0 → fanout_ready l0 w → agrees_on it st w →
  woken it n base nw0 w →
  ∀ w', foreach l (notify_user c update) w = Returns w' tt →
        woken it (n + (if decide (it ∈ l)
                       then wakeups [(step (OpDeliver update) st).2] else 0))
          base nw0 w'.
Proof.
  revert st w n. induction l as [|j l IH]; intros st w n Hnd Hsub Hready Hag Hwk w' Hf.
  { cbn in Hf. injection Hf as <-. rewrite decide_False by inversion 1.
    by rewrite Nat.add_0_r. }
  apply NoDup_cons in Hnd as [Hj Hnd].
  assert (j ∈ l0) as Hj0 by (apply Hsub; left).
  assert (l ⊆ l0) as Hsub' by (intros x Hx; apply Hsub; by right).
  revert Hf. msimpl. destruct (decide (j = it)) as [->|Hne].
  - destruct (notify_user_agrees_self c update it l0 st w Hj0 Hready Hag)
      as (w1 & Hn & Hready1 & Hag1).
    rewrite Hn. intros Hf.
    pose proof (notify_user_woken_self l0 st w n base nw0 Hj0 Hready Hag Hwk w1 Hn)
      as Hwk1.
    pose proof (IH _ w1 _ Hnd Hsub' Hready1 Hag1 Hwk1 w' Hf) as Hwk2.
    rewrite decide_False in Hwk2 by done. rewrite Nat.add_0_r in Hwk2.
    rewrite decide_True; [done|left].
  - destruct (notify_user_agrees_other c update it l0 st w j Hne Hj0 Hready Hag)
      as (w1 & Hn & Hready1 & Hag1).
    rewrite Hn. intros Hf.
    pose proof (notify_user_woken_other l0 w j n base nw0 Hne Hj0 Hready Hwk w1 Hn)
      as Hwk1.
    pose proof (IH _ w1 _ Hnd Hsub' Hready1 Hag1 Hwk1 w' Hf) as Hwk2.
    destruct (decide (it ∈ l)) as [Hin|Hnin].
    + rewrite decide_True; [done|by right].
    + rewrite decide_False; [done|]. intros [?|?]%elem_of_cons; congruence.
Qed.

End wakeup_count.

Lemma process_update_woken c update it l st w n base nw0 :
  NoDup l → it ∈ l → fanout_ready l w → agrees_on it st w →
  woken it n base nw0 w →
  ∀ w', process_update c update w = Returns w' tt →
        woken it (n + wakeups [(step (OpDeliver update) st).2]) base nw0 w'.
Proof.
  intros Hnd Hin Hready Hag Hwk w'. unfold process_update. msimpl.
  match goal with |- context [foreach _ _ ?w1] => set (w1' := w1) end.
  assert (fanout_ready l w1') as Hready1 by (by eapply fanout_ready_ext).
  assert (agrees_on it st w1') as Hag1 by (by eapply agrees_on_ext).
  assert (woken it n base nw0 w1') as Hwk1 by (by eapply woken_ext).
  pose proof Hready as (_ & Hint & _). rewrite Hint.
  destruct (foreach l (notify_user c update) w1') as [w2 []|w2 e|w2] eqn:Hf;
    msimpl; [|done|done].
  pose proof (foreach_notify_woken c update it l l st w1' n base nw0 Hnd
                ltac:(done) Hready1 Hag1 Hwk1 w2 Hf) as Hwk2.
  rewrite decide_True in Hwk2 by done.
  intros [= <-]. eapply woken_ext; [| |exact Hwk2]; [done|].
  cbn. rewrite wakeup_calls_app. cbn. lia.
Qed.

Lemma foreach_process_woken c upstream it l st w n base nw0 :
  NoDup l → it ∈ l → fanout_ready l w → agrees_on it st w →
  woken it n base nw0 w →
  ∀ w', foreach upstream (process_update c) w = Returns w' tt →
        woken it (n + wakeups (run (OpDeliver <$> upstream) st).2) base nw0 w'.
Proof.
  intros Hnd Hin. revert st w n.
  induction upstream as [|u us IH]; intros st w n Hready Hag Hwk w' Hf.
  { cbn in Hf. injection Hf as <-. by rewrite Nat.add_0_r. }
  destruct (process_update_agrees c u it l st w Hnd Hin Hready Hag)
    as (w1 & Hp & Hready1 & Hag1).
  pose proof (process_update_woken c u it l st w n base nw0 Hnd Hin Hready Hag
                Hwk w1 Hp) as Hwk1.
  cbn [foreach] in Hf. unfold mbind, M_bind in Hf. rewrite Hp in Hf.
  pose proof (IH _ w1 _ Hready1 Hag1 Hwk1 w' Hf) as Hwk2.
  rewrite fmap_cons, run_cons. cbn [snd]. rewrite wakeups_cons.
  by rewrite Nat.add_assoc.
Qed.

Lemma monitorEvent_woken c upstream it w usr :
  NoDup (interested (entry w)) → it ∈ interested (entry w) →
  fanout_ready (interested (entry w)) w →
  users w !! it = Some usr →
  ∃ w' usr',
    monitorEvent c upstream w = Returns w' tt
    ∧ users w' !! it = Some usr'
    ∧ wakeup_calls it (calls w')
      = (wakeup_calls it (calls w)
         + wakeups (run (OpDeliver <$> upstream) (elements (heap w), usr)).2)%nat
    ∧ nwakeups usr'
      = Nat.iter (wakeups (run (OpDeliver <$> upstream) (elements (heap w), usr)).2)
          epicsAtomicIncrSizeT (nwakeups usr).
Proof.
  intros Hnd Hin Hready Hu.
  destruct (monitorEvent_agrees c upstream it w usr Hnd Hin Hready Hu)
    as (w' & Hm & _ & _).
  revert Hm. unfold monitorEvent. msimpl.
  match goal with |- context [foreach _ _ ?w1] => set (w1' := w1) end.
  intros Hf.
  assert (woken it (0 + wakeups (run (OpDeliver <$> upstream)
                                   (elements (heap w), usr)).2)
            (wakeup_calls it (calls w)) (nwakeups usr) w') as [H1 (usr' & H2 & H3)].
  { apply (foreach_process_woken c upstream it (interested (entry w))
             (elements (heap w), usr) w1' 0 _ _ Hnd Hin); [| | |done].
    - by eapply fanout_ready_ext.
    - exists usr. split; [done|]. split; [unfold same_queues; done|done].
    - split; [cbn; lia|]. by exists usr. }
  exists w', usr'. done.
Qed.

(** ** Facts about the sample worlds *)

Lemma new_user_exclusive r nw : exclusive (MonitorUser_new r nw).
Proof.
  constructor; cbn; try done; try (intros e; inversion 1).
  constructor. constructor.
Qed.

Lemma sample_world_well_owned lval result req1 req2 :
  well_owned (sample_world lval result req1 req2).
Proof.
  split; [apply sample_world_separate|]. intros it usr. cbn.
  destruct (decide (it = 1%nat)) as [->|];
    [rewrite lookup_insert_eq|rewrite lookup_insert_ne by done].
  { intros [= <-]. apply new_user_exclusive. }
  destruct (decide (it = 2%nat)) as [->|];
    [rewrite lookup_insert_eq|rewrite lookup_insert_ne by done].
  { intros [= <-]. apply new_user_exclusive. }
  by rewrite lookup_empty.
Qed.

Lemma started_world_well_owned : well_owned started_world.
Proof. unfold started_world. do 2 apply start_well_owned. apply sample_world_well_owned. Qed.

Lemma started_world_ready : fanout_ready [1%nat; 2%nat] started_world.
Proof.
  split; [apply started_world_separate|]. split; [vm_compute; reflexivity|].
  intros j usr [->|[->|[]%elem_of_nil]%elem_of_cons]%elem_of_cons Hu;
    vm_compute in Hu; injection Hu as <-; by eexists.
Qed.


Lemma NoDup_one_two : NoDup [1%nat; 2%nat].
Proof.
  apply NoDup_cons. split; [|apply NoDup_singleton].
  intros H%elem_of_cons. destruct H as [H|H]; [discriminate|by apply elem_of_nil in H].
Qed.

Lemma started_world_interested : interested (entry started_world) = [1%nat; 2%nat].
Proof. vm_compute. reflexivity. Qed.


Lemma started_world_alive : all_alive (interested (entry started_world)) started_world.
Proof. rewrite started_world_interested. exact (proj2 (proj2 started_world_ready)). Qed.

Lemma size_t_zero : 0 ≤ 0 < size_t_modulus.
Proof. split; [done|]. by vm_compute. Qed.

(** ** start on a handle that holds buffers *)


(** ** A life keeps every buffer in one place *)

Lemma life_run_cons o ops st :
  life_run (o :: ops) st =
    ((life_run ops (life_step o st).1).1,
     (life_step o st).2 :: (life_run ops (life_step o st).1).2).
Proof.
  simpl. destruct (life_step o st) as [st1 ob]. simpl.
  by destruct (life_run ops st1).
Qed.

Lemma life_step_call o hp usr :
  life_step (LifeCall o) (hp, usr) =
    (({| next := next hp; structures := structures hp; bitsets := bitsets hp;
         elements := (step o (elements hp, usr)).1.1 |},
      (step o (elements hp, usr)).1.2),
     LifeObs (step o (elements hp, usr)).2).
Proof. unfold life_step. by destruct (step o (elements hp, usr)) as [[els usr'] ob]. Qed.

Lemma life_step_start td lval hp usr :
  life_step (LifeStart td lval) (hp, usr) =
    ((start_queue td lval hp usr).1, LifeStarted (start_queue td lval hp usr).2).
Proof. unfold life_step. by destruct (start_queue td lval hp usr) as [[hp' usr'] b]. Qed.



(** ** Wakeups over a life *)

Lemma start_queue_doEvt td lval hp usr :
  (start_queue td lval hp usr).2 = match lval with Some _ => true | None => false end.
Proof.
  destruct lval as [v|]; [rewrite start_queue_some|rewrite start_queue_none]; done.
Qed.

Lemma fanout_wakeups_cons ob os :
  fanout_wakeups (ob :: os) = (fanout_wakeups [ob] + fanout_wakeups os)%nat.
Proof. destruct ob as [[[|[|]]| | | |]|]; done. Qed.

Lemma fanout_wakeups_single ob : (fanout_wakeups [ob] ≤ 1)%nat.
Proof. destruct ob as [[[|[|]]| | | |]|]; simpl; lia. Qed.

Lemma life_step_no_wakeup o st :
  filled st.2 ≠ [] → fanout_wakeups [(life_step o st).2] = O.
Proof.
  destruct st as [hp usr]. intros Hf. destruct o as [o|td lval].
  - rewrite life_step_call. cbn [snd].
    pose proof (step_no_wakeup o (elements hp, usr) Hf) as H.
    by destruct (step o (elements hp, usr)).2 as [[|[|]]| | | |].
  - by rewrite life_step_start.
Qed.

Lemma life_run_take_cons k o ops st :
  life_run (take (S k) (o :: ops)) st
  = ((life_run (take k ops) (life_step o st).1).1,
     (life_step o st).2 :: (life_run (take k ops) (life_step o st).1).2).
Proof. rewrite firstn_cons. apply life_run_cons. Qed.

Lemma life_no_wakeup_while_nonempty ops st :
  (∀ k, (k < length ops)%nat → filled (life_run (take k ops) st).1.2 ≠ []) →
  fanout_wakeups (life_run ops st).2 = O.
Proof.
  revert st. induction ops as [|o ops IH]; intros st Hne; [done|].
  rewrite life_run_cons. cbn [snd]. rewrite fanout_wakeups_cons.
  rewrite life_step_no_wakeup; [|apply (Hne O); simpl; lia].
  apply IH. intros k Hk. specialize (Hne (S k)).
  rewrite life_run_take_cons in Hne. apply Hne. simpl. lia.
Qed.

Lemma life_wakeup_once ops st :
  (∀ k, (0 < k < length ops)%nat → filled (life_run (take k ops) st).1.2 ≠ []) →
  (fanout_wakeups (life_run ops st).2 ≤ 1)%nat.
Proof.
  destruct ops as [|o ops]; intros Hne; [simpl; lia|].
  rewrite life_run_cons. cbn [snd]. rewrite fanout_wakeups_cons.
  rewrite (life_no_wakeup_while_nonempty ops).
  - pose proof (fanout_wakeups_single (life_step o st).2). lia.
  - intros k Hk. specialize (Hne (S k)).
    rewrite life_run_take_cons in Hne. apply Hne. simpl. lia.
Qed.

Lemma start_wakeups_seeding ops st :
  start_wakeups (life_run ops st).2 = seeding_starts ops.
Proof.
  revert st. induction ops as [|o ops IH]; intros st; [done|].
  rewrite life_run_cons. cbn [snd]. destruct st as [hp usr].
  destruct o as [o|td lval].
  - rewrite life_step_call. cbn. apply IH.
  - rewrite life_step_start, start_queue_doEvt.
    destruct lval as [v|]; cbn; by rewrite IH.
Qed.

(** ** Polls drain the queue from the front *)

Lemma run_app ops1 ops2 st :
  run (ops1 ++ ops2) st =
    ((run ops2 (run ops1 st).1).1, (run ops1 st).2 ++ (run ops2 (run ops1 st).1).2).
Proof.
  revert st. induction ops1 as [|o ops1 IH]; intros st.
  { cbn. by destruct (run ops2 st). }
  rewrite <-app_comm_cons, !run_cons, IH. done.
Qed.

Lemma polled_app os1 os2 : polled (os1 ++ os2) = polled os1 ++ polled os2.
Proof.
  induction os1 as [|ob os1 IH]; [done|].
  rewrite <-app_comm_cons, polled_cons, (polled_cons ob os1), IH.
  by rewrite app_assoc.
Qed.

Lemma polls_drain k els usr :
  polled (run (replicate k OpPoll) (els, usr)).2
  = take k (contents els (filled usr)).
Proof.
  revert usr. induction k as [|k IH]; intros usr; [done|].
  cbn [replicate]. rewrite run_cons. cbn [snd fst]. rewrite polled_cons.
  unfold step at 2. unfold step at 1. unfold poll.
  destruct (filled usr) as [|e rest] eqn:Hf; cbn.
  - rewrite IH, Hf. by destruct k.
  - by rewrite IH.
Qed.

(** * The claims *)




(** C2, as stated, fails.  After one update (payload 500) is fanned out to
    the two started handles, the element each handle queued and the entry's
    [lastval] all point at the payload 500; and the element that [start]
    seeds on an entry holding the last value 500 points at that very
    payload. *)
Lemma C2_payload_shared_counterexample :
  (pvStructurePtr <$>
     elements (heap (world_of (monitorEvent ExpiredThrows [sample_update 500]
                                 started_world))) !! 3%nat) = Some (Some 500%nat)
  ∧ (pvStructurePtr <$>
       elements (heap (world_of (monitorEvent ExpiredThrows [sample_update 500]
                                   started_world))) !! 19%nat) = Some (Some 500%nat)
  ∧ lastval (entry (world_of (monitorEvent ExpiredThrows [sample_update 500]
                                started_world))) = Some 500%nat
  ∧ ¬ payload_private
        (world_of (monitorEvent ExpiredThrows [sample_update 500] started_world))
  ∧ ¬ payload_private (world_of (start 1%nat late_world)).
Proof.
  do 3 (split; [vm_compute; reflexivity|]). split.
  - intros [H _].
    eapply (H 1%nat 2%nat _ _ 3%nat 19%nat _ _ 500%nat); vm_compute;
      try reflexivity.
    discriminate.
  - intros [_ H].
    eapply (H 1%nat _ 3%nat _ 500%nat); vm_compute; reflexivity.
Qed.

(** C2, amended.  The fan-out stores the update's three pointers, as they
    are, in the element at the front of each accepting handle's free queue,
    and [start] stores the entry's [lastval] pointer in the element it
    seeds: the payload is one object, named by the entry's [lastval] and by
    every such element.  What is never shared between two handles is the
    [MonitorElement] object itself, whatever calls follow. *)
Theorem C2_payload_pointer_shared c update it1 it2 w usr1 usr2 r1 r2
    e1 rest1 e2 rest2 :
  separate w → it1 ≠ it2 →
  users w !! it1 = Some usr1 → users w !! it2 = Some usr2 →
  req usr1 = Some r1 → req usr2 = Some r2 →
  running usr1 = true → running usr2 = true →
  empty usr1 = e1 :: rest1 → empty usr2 = e2 :: rest2 →
  ∃ w1 w2,
    notify_user c update it1 w = Returns w1 tt
    ∧ notify_user c update it2 w1 = Returns w2 tt
    ∧ e1 ≠ e2
    ∧ elements (heap w2) !! e1 = Some update
    ∧ elements (heap w2) !! e2 = Some update
    ∧ lastval (entry (world_of (process_update c update w)))
      = pvStructurePtr update
    ∧ (∀ ks, separate (wrun c ks w2))
    ∧ (∀ v, lastval (entry w) = Some v →
         isSuccess (startresult (entry w)) = true →
         ∃ w' usr' elem el,
           start it1 w = Returns w' Status_Ok
           ∧ users w' !! it1 = Some usr'
           ∧ filled usr' = filled usr1 ++ [elem]
           ∧ elements (heap w') !! elem = Some el
           ∧ pvStructurePtr el = lastval (entry w')).
Proof.
  intros Hsep Hne H1 H2 Hr1 Hr2 Hrun1 Hrun2 He1 He2.
  destruct (fanout_two c update it1 it2 w usr1 usr2 r1 r2 e1 rest1 e2 rest2)
    as (w1 & w2 & Hn1 & Hn2 & Hee & Hl1 & Hl2 & Hs2); try done.
  exists w1, w2. split_and!; try done.
  - apply process_update_lastval.
  - intros ks. by apply wrun_separate.
  - intros v Hv Hok.
    destruct (start_seeds it1 w usr1 r1 v H1 Hr1 Hok Hv)
      as (w' & usr' & elem & el & b & s & Hst & Hu' & _ & Hf & Hel & Hp & _ & _ & _ & Hen & _).
    exists w', usr', elem, el. rewrite Hen, Hv. done.
Qed.

(** C2 (amended) on the two started handles of [started_world]. *)
Lemma C2_payload_pointer_shared_witness :
  separate started_world
  ∧ 1%nat ≠ 2%nat
  ∧ users started_world !! 1%nat = Some (started_user 50 3)
  ∧ users started_world !! 2%nat = Some (started_user 60 19)
  ∧ ∃ w1 w2,
      notify_user ExpiredThrows (sample_update 500) 1%nat started_world
        = Returns w1 tt
      ∧ notify_user ExpiredThrows (sample_update 500) 2%nat w1 = Returns w2 tt
      ∧ 3%nat ≠ 19%nat
      ∧ elements (heap w2) !! 3%nat = Some (sample_update 500)
      ∧ elements (heap w2) !! 19%nat = Some (sample_update 500).
Proof.
  split; [apply started_world_separate|]. split; [discriminate|].
  split; [vm_compute; reflexivity|]. split; [vm_compute; reflexivity|].
  destruct (C2_payload_pointer_shared ExpiredThrows (sample_update 500)
              1%nat 2%nat started_world (started_user 50 3) (started_user 60 19)
              50%nat 60%nat 3%nat [7%nat; 11%nat; 15%nat]
              19%nat [23%nat; 27%nat; 31%nat])
    as (w1 & w2 & H1 & H2 & H3 & H4 & H5 & _);
    [apply started_world_separate|discriminate|vm_compute; reflexivity
    |vm_compute; reflexivity|reflexivity..|].
  exists w1, w2. repeat split; assumption.
Defined.

(** C3.  In every run of deliver, poll, release, stop and destroy calls on
    a handle whose buffers are in exactly one collection each, what the
    polls returned, followed by what is still queued, is what was queued at
    the start followed by the accepted updates; and the accepted updates are
    a subsequence of the offered ones, in the order the upstream produced
    them.  So polls hand out the accepted updates first in, first out, none
    reordered, merged or lost.  And [monitorEvent], for an interested handle
    among live requesters, is such a run: one [deliver] per upstream update,
    in upstream order, whatever the other handles do.  [poll] itself takes
    the front of [filled]: it returns the first queued element, which the
    consumer reads as it was queued, and leaves the rest in order; on an
    empty queue it returns null and changes nothing.  So [k] more polls
    after any run return the next [k] of the queued and accepted updates,
    and all that is left when [k] reaches the length of the queue. *)
Theorem C3_fifo_order n ops els usr :
  pool_inv n usr →
  let r := run ops (els, usr) in
  polled r.2 ++ contents r.1.1 (filled r.1.2)
    = contents els (filled usr) ++ (Some <$> accepted ops r.2)
  ∧ accepted ops r.2 `sublist_of` offered ops
  ∧ (∀ c upstream it w,
       NoDup (interested (entry w)) → it ∈ interested (entry w) →
       fanout_ready (interested (entry w)) w →
       users w !! it = Some usr →
       ∃ w', monitorEvent c upstream w = Returns w' tt
             ∧ agrees_on it
                 (run (OpDeliver <$> upstream) (elements (heap w), usr)).1 w')
  ∧ (∀ els' usr',
       (poll usr').2 = head (filled usr')
       ∧ filled (poll usr').1 = tail (filled usr')
       ∧ empty (poll usr').1 = empty usr'
       ∧ (step OpPoll (els', usr')).2
         = ObsPoll (head (filled usr')) (head (filled usr') ≫= λ e, els' !! e)
       ∧ (filled usr' = [] → poll usr' = (usr', None)))
  ∧ (∀ k,
       polled (run (ops ++ replicate k OpPoll) (els, usr)).2
       = polled r.2 ++ take k (contents r.1.1 (filled r.1.2)))
  ∧ (∀ k,
       polled (run (ops ++ replicate k OpPoll) (els, usr)).2
       = take (length (polled r.2) + k)
           (contents els (filled usr) ++ (Some <$> accepted ops r.2))).
Proof.
  intros Hinv r. split; [by eapply fifo|]. split; [apply accepted_sublist|].
  split.
  { intros c upstream it w Hnd Hin Hready Hu.
    destruct (monitorEvent_agrees c upstream it w usr Hnd Hin Hready Hu)
      as (w' & Hm & _ & Hag).
    by exists w'. }
  split.
  { intros els' usr'. unfold step, poll.
    destruct (filled usr') as [|e rest] eqn:Hf; cbn; by rewrite ?Hf. }
  assert (∀ k, polled (run (ops ++ replicate k OpPoll) (els, usr)).2
               = polled r.2 ++ take k (contents r.1.1 (filled r.1.2))) as Hdrain.
  { intros k. rewrite run_app. cbn [snd]. rewrite polled_app. fold r.
    destruct r.1 as [els1 usr1] eqn:Hr. cbn [fst snd]. by rewrite polls_drain. }
  split; [exact Hdrain|].
  intros k. pose proof (fifo n ops els usr Hinv) as Hfifo. fold r in Hfifo.
  rewrite Hdrain, <-Hfifo. by rewrite take_app_add.
Qed.

(** C3 on a handle with four free buffers driven through [sample_ops]: the
    one poll of the run returned the first update, and two more polls
    return the second update and then nothing. *)
Lemma C3_fifo_order_witness :
  pool_inv 4 (sample_user 4)
  ∧ (let r := run sample_ops (∅, sample_user 4) in
     polled r.2 ++ contents r.1.1 (filled r.1.2)
       = contents ∅ (filled (sample_user 4)) ++ (Some <$> accepted sample_ops r.2)
     ∧ accepted sample_ops r.2 `sublist_of` offered sample_ops
     ∧ polled r.2 = [Some (sample_update 500)]
     ∧ polled (run (sample_ops ++ replicate 2 OpPoll) (∅, sample_user 4)).2
       = [Some (sample_update 500); Some (sample_update 503)]).
Proof.
  split; [apply sample_user_pool_inv|].
  destruct (C3_fifo_order 4 sample_ops ∅ (sample_user 4)
              (sample_user_pool_inv 4)) as (H1 & H2 & _ & _ & _ & H6).
  split; [exact H1|]. split; [exact H2|].
  split; [vm_compute; reflexivity|].
  rewrite (H6 2%nat). vm_compute. reflexivity.
Defined.

(** C4.  A running handle with [n] free buffers and nothing queued is
    offered a sequence of updates with no poll or release in between: the
    first [n] land in [filled], in order; every later one is dropped; the
    dropped counter grows by the number of drops (in [size_t] arithmetic,
    exactly when it does not overflow).  A drop on an empty free queue
    returns at once and changes nothing but the counter. *)
Theorem C4_full_pool_then_drop updates els usr :
  running usr = true → filled usr = [] → NoDup (empty usr) →
  0 ≤ ndropped usr < size_t_modulus →
  let n := length (empty usr) in
  let r := run (OpDeliver <$> updates) (els, usr) in
  filled r.1.2 = take (length updates) (empty usr)
  ∧ contents r.1.1 (filled r.1.2) = Some <$> take n updates
  ∧ empty r.1.2 = drop (length updates) (empty usr)
  ∧ inuse r.1.2 = inuse usr
  ∧ accepted (OpDeliver <$> updates) r.2 = take n updates
  ∧ drops r.2 = (length updates - n)%nat
  ∧ ndropped r.1.2 = wrap (ndropped usr + Z.of_nat (length updates - n))
  ∧ (ndropped usr + Z.of_nat (length updates - n) < size_t_modulus →
     ndropped r.1.2 = ndropped usr + Z.of_nat (length updates - n))
  ∧ (∀ update els' usr', empty usr' = [] →
       deliver update els' usr' = (els', count_drop usr', Dropped)
       ∧ empty (count_drop usr') = empty usr'
       ∧ filled (count_drop usr') = filled usr'
       ∧ inuse (count_drop usr') = inuse usr'
       ∧ ndropped (count_drop usr') = epicsAtomicIncrSizeT (ndropped usr')).
Proof.
  intros Hr Hf Hnd Hc n r.
  destruct (run_deliveries updates els usr Hr Hnd) as (H1&H2&H3&_&H5&H6&H7&H8).
  { rewrite Hf. intros e _. inversion 1. }
  fold r in H1, H2, H3, H5, H6, H7, H8. fold n in H5, H6, H7, H8.
  rewrite Hf in H1, H5. cbn in H1, H5.
  rewrite iter_incr in H6 by done.
  split_and!; try done.
  - intros Hlt. rewrite H6. apply wrap_small. lia.
  - intros update els' usr' He. by rewrite deliver_drop by auto.
Qed.

(** C4 at the scenario of a pool of two buffers offered three updates. *)
Lemma C4_full_pool_then_drop_witness :
  running (sample_user 2) = true
  ∧ filled (sample_user 2) = []
  ∧ NoDup (empty (sample_user 2))
  ∧ 0 ≤ ndropped (sample_user 2) < size_t_modulus
  ∧ (let updates := [sample_update 500; sample_update 503; sample_update 506] in
     let n := length (empty (sample_user 2)) in
     let r := run (OpDeliver <$> updates) (∅, sample_user 2) in
     filled r.1.2 = take (length updates) (empty (sample_user 2))
     ∧ contents r.1.1 (filled r.1.2) = Some <$> take n updates
     ∧ empty r.1.2 = drop (length updates) (empty (sample_user 2))
     ∧ inuse r.1.2 = inuse (sample_user 2)
     ∧ accepted (OpDeliver <$> updates) r.2 = take n updates
     ∧ drops r.2 = (length updates - n)%nat
     ∧ ndropped r.1.2
       = wrap (ndropped (sample_user 2) + Z.of_nat (length updates - n))
     ∧ (ndropped (sample_user 2) + Z.of_nat (length updates - n) < size_t_modulus →
        ndropped r.1.2 = ndropped (sample_user 2) + Z.of_nat (length updates - n))
     ∧ (∀ update els' usr', empty usr' = [] →
          deliver update els' usr' = (els', count_drop usr', Dropped)
          ∧ empty (count_drop usr') = empty usr'
          ∧ filled (count_drop usr') = filled usr'
          ∧ inuse (count_drop usr') = inuse usr'
          ∧ ndropped (count_drop usr') = epicsAtomicIncrSizeT (ndropped usr'))).
Proof.
  split; [reflexivity|]. split; [reflexivity|]. split; [apply NoDup_seq|].
  split; [split; [discriminate|reflexivity]|].
  apply (C4_full_pool_then_drop
           [sample_update 500; sample_update 503; sample_update 506]
           ∅ (sample_user 2));
    [reflexivity|reflexivity|apply NoDup_seq|split; [discriminate|reflexivity]].
Defined.

(** C5, as stated, fails.  [start] calls the requester whenever it queues
    the initial update.  Handle 1 is started with an empty filled queue; one
    update arrives and wakes it; the consumer stops and starts the handle
    again before polling, which queues the last value behind the pending
    update and wakes the requester again; two polls then drain the queue.
    Between those two consecutive instants of an empty filled queue the
    requester was called twice. *)
Lemma C5_wakeup_twice_counterexample :
  filled_of 1%nat started_world = Some []
  ∧ filled_of 1%nat (wrun ExpiredThrows (take 1 restart_calls) started_world)
    = Some [3%nat]
  ∧ filled_of 1%nat (wrun ExpiredThrows (take 3 restart_calls) started_world)
    = Some [3%nat; 35%nat]
  ∧ filled_of 1%nat (wrun ExpiredThrows restart_calls started_world) = Some []
  ∧ wakeup_calls 1%nat (calls started_world) = 0%nat
  ∧ wakeup_calls 1%nat (calls (wrun ExpiredThrows restart_calls started_world))
    = 2%nat
  ∧ ¬ wakeup_once_between_empties ExpiredThrows 1%nat restart_calls started_world.
Proof.
  do 6 (split; [vm_compute; reflexivity|]).
  intros H.
  assert (wakeup_calls 1%nat
            (calls (wrun ExpiredThrows restart_calls started_world))
          ≤ wakeup_calls 1%nat (calls started_world) + 1)%nat as Hle.
  { apply H; [vm_compute; reflexivity|vm_compute; reflexivity|].
    intros k Hk. destruct k as [|[|[|[|[|k]]]]]; [lia|..|simpl in Hk; lia];
      vm_compute; discriminate. }
  vm_compute in Hle. lia.
Qed.

(** C5, amended.  Among the deliver, poll, release, stop and destroy calls
    on a handle, at most one delivery asks for a wakeup while the filled
    queue stays non-empty in between; a delivery asks for it exactly when
    [filled] was empty just before its push; and the fan-out calls the live
    requester exactly for those deliveries.  [start], for a live requester
    after a successful connection, calls the requester once exactly when
    the entry holds a last value, which it then queues, whatever [filled]
    holds already.  Over a life that has starts among its calls, the
    deliveries still ask for at most one wakeup while the queue stays
    non-empty, and the starts for one each time they find a last value. *)
Theorem C5_wakeup_on_empty_edge ops st :
  (∀ k, (0 < k < length ops)%nat → filled (run (take k ops) st).1.2 ≠ []) →
  (wakeups (run ops st).2 ≤ 1)%nat
  ∧ (∀ update els usr b,
       (deliver update els usr).2 = Delivered b → (b = true ↔ filled usr = []))
  ∧ (∀ c update it w usr r,
       users w !! it = Some usr → req usr = Some r →
       ∃ w', notify_user c update it w = Returns w' tt
             ∧ calls w' = calls w
                 ++ (if wakes usr then [req_monitorEvent r it] else []))
  ∧ (∀ it w usr r,
       users w !! it = Some usr → req usr = Some r →
       isSuccess (startresult (entry w)) = true →
       ∃ w' usr',
         start it w = Returns w' Status_Ok
         ∧ users w' !! it = Some usr'
         ∧ life_step (LifeStart (typedesc (entry w)) (lastval (entry w)))
             (heap w, usr)
           = ((heap w', usr'),
              LifeStarted (match lastval (entry w) with
                           | Some _ => true | None => false end))
         ∧ match lastval (entry w) with
           | Some _ =>
               (∃ elem, filled usr' = filled usr ++ [elem])
               ∧ calls w' = calls w ++ [req_monitorEvent r it]
           | None => filled usr' = filled usr ∧ calls w' = calls w
           end)
  ∧ (∀ life lst,
       start_wakeups (life_run life lst).2 = seeding_starts life
       ∧ ((∀ k, (0 < k < length life)%nat →
             filled (life_run (take k life) lst).1.2 ≠ []) →
          (fanout_wakeups (life_run life lst).2 ≤ 1)%nat)).
Proof.
  intros Hne. split; [by apply wakeup_once|]. split; [apply deliver_notify|].
  split.
  { intros c update it w usr r Hu Hr.
    destruct (notify_user_alive c update it w usr r Hu Hr)
      as (w' & usr' & Hn & _ & _ & _ & _ & _ & _ & _ & _ & Hc).
    by exists w'. }
  split.
  { intros it w usr r Hu Hr Hs.
    rewrite (start_ok it w usr r Hu Hr Hs).
    eexists _, _. split; [reflexivity|]. cbn [users calls heap].
    split; [apply lookup_insert_eq|].
    split.
    { rewrite life_step_start, start_queue_doEvt. by rewrite <-surjective_pairing. }
    destruct (lastval (entry w)) as [v|].
    - rewrite start_queue_some. cbn. split; [by eexists|done].
    - rewrite start_queue_none. cbn. by rewrite app_nil_r. }
  intros life lst. split; [apply start_wakeups_seeding|apply life_wakeup_once].
Qed.

(** C5 (amended) on [burst_ops]: the queue is non-empty from the first
    delivery on, and there is one wakeup.  And on [restart_life], where the
    queue is non-empty between the first delivery and the last poll: one
    wakeup from the delivery and one from the start. *)
Lemma C5_wakeup_on_empty_edge_witness :
  (∀ k, (0 < k < length burst_ops)%nat →
     filled (run (take k burst_ops) (∅, sample_user 4)).1.2 ≠ [])
  ∧ (wakeups (run burst_ops (∅, sample_user 4)).2 ≤ 1)%nat
  ∧ (∀ k, (0 < k < length restart_life)%nat →
       filled (life_run (take k restart_life) fresh_life).1.2 ≠ [])
  ∧ filled (life_run restart_life fresh_life).1.2 = []
  ∧ (fanout_wakeups (life_run restart_life fresh_life).2 ≤ 1)%nat
  ∧ fanout_wakeups (life_run restart_life fresh_life).2 = 1%nat
  ∧ start_wakeups (life_run restart_life fresh_life).2 = 1%nat.
Proof.
  assert (∀ k, (0 < k < length burst_ops)%nat →
     filled (run (take k burst_ops) (∅, sample_user 4)).1.2 ≠ []) as Hne.
  { intros k Hk. destruct k as [|[|[|[|[|k]]]]]; [lia|..|simpl in Hk; lia];
      vm_compute; discriminate. }
  assert (∀ k, (0 < k < length restart_life)%nat →
     filled (life_run (take k restart_life) fresh_life).1.2 ≠ []) as Hlife.
  { intros k Hk. destruct k as [|[|[|[|[|k]]]]]; [lia|..|simpl in Hk; lia];
      vm_compute; discriminate. }
  destruct (C5_wakeup_on_empty_edge burst_ops (∅, sample_user 4) Hne)
    as (H1 & _ & _ & _ & H5).
  destruct (H5 restart_life fresh_life) as [Hs Hf].
  split; [exact Hne|]. split; [exact H1|]. split; [exact Hlife|].
  split; [vm_compute; reflexivity|]. split; [exact (Hf Hlife)|].
  split; [vm_compute; reflexivity|]. rewrite Hs. reflexivity.
Defined.

(** C6.  [release] of an element that is in [inuse] takes it out of [inuse]
    and puts it at the back of [empty], where a running handle's next
    delivery can use it; [release] of anything else, the null pointer
    included, throws [invalid_argument] and leaves the handle as it was. *)
Theorem C6_release monitorElement usr :
  (∀ e, monitorElement = Some e → e ∈ inuse usr →
     (release monitorElement usr).2 = inl tt
     ∧ empty (release monitorElement usr).1 = empty usr ++ [e]
     ∧ filled (release monitorElement usr).1 = filled usr
     ∧ inuse (release monitorElement usr).1 = inuse usr ∖ {[e]}
     ∧ (e ∉ inuse (release monitorElement usr).1)
     ∧ (∀ update els, running usr = true →
          (deliver update els (release monitorElement usr).1).2 ≠ Dropped))
  ∧ ((∀ e, monitorElement = Some e → e ∉ inuse usr) →
     release monitorElement usr =
       (usr, inr (invalid_argument "Can't release MonitorElement not in use"))).
Proof.
  destruct (release_spec monitorElement usr) as [Hok Hbad]. split; [|done].
  intros e He Hin. destruct (Hok e He Hin) as (Hrel & Hnot & Hnext).
  rewrite Hrel in *. done.
Qed.

(** C6 on a handle that lent out buffer 0, and on a handle that lent out
    nothing. *)
Lemma C6_release_witness :
  0%nat ∈ inuse lent_user
  ∧ (release (Some 0%nat) lent_user).2 = inl tt
  ∧ empty (release (Some 0%nat) lent_user).1 = empty lent_user ++ [0%nat]
  ∧ release (Some 9%nat) (sample_user 4)
    = (sample_user 4, inr (invalid_argument "Can't release MonitorElement not in use")).
Proof.
  split; [vm_compute; reflexivity|].
  destruct (proj1 (C6_release (Some 0%nat) lent_user) 0%nat)
    as (H1 & H2 & _); [reflexivity|vm_compute; reflexivity|].
  split; [exact H1|]. split; [exact H2|].
  apply (C6_release (Some 9%nat) (sample_user 4)).
  intros e [= <-]. apply not_elem_of_empty.
Defined.

(** C7.  A handle whose requester is gone should be skipped by the fan-out,
    which should go on to the other handles; [monitorEvent] does neither.
    In [dead_world] handles 1 and 2 are started and the requester of handle 1
    is gone.  With one update to fan out: if the conversion of the expired
    weak pointer throws, [bad_weak_ptr] leaves [monitorEvent] before any
    delivery or release, and handle 2 is not served; if it yields null, the
    update is delivered into buffer 3 of handle 1 and the requester is called
    through the null pointer.  [monitorConnect] tests the pointer, and skips
    the dead requester when the conversion yields null. *)
Theorem C7_dead_requester_not_skipped :
  (∃ w', monitorEvent ExpiredThrows [sample_update 500] dead_world
           = Throws w' bad_weak_ptr
         ∧ users w' = users dead_world
         ∧ calls w' = calls dead_world)
  ∧ (∃ w' usr, monitorEvent ExpiredIsNull [sample_update 500] dead_world
                 = NullDeref w'
               ∧ users w' !! 1%nat = Some usr
               ∧ req usr = None
               ∧ filled usr = [3%nat]
               ∧ elements (heap w') !! 3%nat = Some (sample_update 500)
               ∧ users w' !! 2%nat = users dead_world !! 2%nat
               ∧ calls w' = calls dead_world)
  ∧ (∃ w', monitorConnect ExpiredThrows Status_Ok Status_Ok (Some 7%nat) dead_world
           = Throws w' bad_weak_ptr
         ∧ calls w' = calls dead_world ++ [monitor_start])
  ∧ (∃ w', monitorConnect ExpiredIsNull Status_Ok Status_Ok (Some 7%nat) dead_world
           = Returns w' tt
         ∧ calls w' = calls dead_world ++
             [monitor_start; cout "Dead requester in monitorConnect()";
              req_monitorConnect 60 Status_Ok 2 (Some 7%nat)]).
Proof.
  split_and!.
  - eexists. split; [vm_compute; reflexivity|]. split; vm_compute; reflexivity.
  - eexists _, _. split; [vm_compute; reflexivity|].
    split; [vm_compute; reflexivity|]. split_and!; vm_compute; reflexivity.
  - eexists. split; vm_compute; reflexivity.
  - eexists. split; vm_compute; reflexivity.
Qed.




(** C9, as stated, fails.  The connection succeeded but the upstream start
    failed, so the entry stores that failure; the requester of handle 1 is
    gone, and [start] on handle 1 answers "already dead", not the stored
    outcome. *)
Lemma C9_dead_requester_counterexample :
  startresult (entry (failed_world ExpiredIsNull))
    = mkStatus STATUSTYPE_ERROR "no upstream"
  ∧ start 1%nat (failed_world ExpiredIsNull)
    = Returns (failed_world ExpiredIsNull)
        (mkStatus STATUSTYPE_FATAL "already dead")
  ∧ ¬ start_returns_stored 1%nat (failed_world ExpiredIsNull)
  ∧ ¬ start_returns_stored 1%nat (failed_world ExpiredThrows).
Proof.
  split; [vm_compute; reflexivity|]. split; [vm_compute; reflexivity|].
  split; intros H; specialize (H eq_refl); vm_compute in H; discriminate.
Qed.

(** C9, amended.  [monitorConnect] stores the descriptor; on a success
    status it starts the upstream monitor and stores what that answers, on
    a failure status it stores the status without starting anything.  While
    a failure is stored, [start] changes nothing: a handle whose requester
    is alive gets the stored failure, a handle whose requester is gone gets
    "already dead". *)
Theorem C9_connect_outcome_cached c status upstream_start structure w it usr :
  users w !! it = Some usr →
  let w' := world_of (monitorConnect c status upstream_start structure w) in
  typedesc (entry w') = structure
  ∧ startresult (entry w') = (if isSuccess status then upstream_start else status)
  ∧ (∃ new, calls w' = calls w
              ++ (if isSuccess status then [monitor_start] else []) ++ new
            ∧ monitor_start ∉ new)
  ∧ (isSuccess (startresult (entry w')) = false →
     start it w' =
       Returns w' (match req usr with
                   | Some _ => startresult (entry w')
                   | None => mkStatus STATUSTYPE_FATAL "already dead"
                   end))
  ∧ (∀ w0 usr0, users w0 !! it = Some usr0 →
       isSuccess (startresult (entry w0)) = false →
       start it w0 =
         Returns w0 (match req usr0 with
                     | Some _ => startresult (entry w0)
                     | None => mkStatus STATUSTYPE_FATAL "already dead"
                     end)).
Proof.
  intros Hu w'.
  assert (∀ w0 usr0, users w0 !! it = Some usr0 →
       isSuccess (startresult (entry w0)) = false →
       start it w0 =
         Returns w0 (match req usr0 with
                     | Some _ => startresult (entry w0)
                     | None => mkStatus STATUSTYPE_FATAL "already dead"
                     end)) as Hstart.
  { intros w0 usr0 Hu0 Hf. destruct (req usr0) as [r|] eqn:Hr.
    - by apply start_failed with usr0 r.
    - by apply start_dead with usr0. }
  destruct (monitorConnect_spec c status upstream_start structure w)
    as (Ht & Hs & _ & _ & Hus & Hc).
  fold w' in Ht, Hs, Hus, Hc. split_and!; try done.
  intros Hf. apply Hstart; [|done]. by rewrite Hus.
Qed.

(** C9 (amended) for a refused connection and the live handle 2. *)
Lemma C9_connect_outcome_cached_witness :
  users (sample_world None Status_Ok (Some 50%nat) (Some 60%nat)) !! 2%nat
    = Some (MonitorUser_new (Some 60%nat) 0)
  ∧ (let w' := world_of (monitorConnect ExpiredIsNull
                 (mkStatus STATUSTYPE_ERROR "refused") Status_Ok (Some 7%nat)
                 (sample_world None Status_Ok (Some 50%nat) (Some 60%nat))) in
     typedesc (entry w') = Some 7%nat
     ∧ startresult (entry w') = mkStatus STATUSTYPE_ERROR "refused"
     ∧ start 2%nat w' = Returns w' (mkStatus STATUSTYPE_ERROR "refused")).
Proof.
  split; [vm_compute; reflexivity|].
  destruct (C9_connect_outcome_cached ExpiredIsNull
              (mkStatus STATUSTYPE_ERROR "refused") Status_Ok (Some 7%nat)
              (sample_world None Status_Ok (Some 50%nat) (Some 60%nat))
              2%nat (MonitorUser_new (Some 60%nat) 0))
    as (H1 & H2 & _ & H3 & _); [vm_compute; reflexivity|].
  split; [exact H1|]. split; [exact H2|]. apply H3. rewrite H2. reflexivity.
Defined.

(** C10.  Whatever the handles do with the updates, and however
    [monitorEvent] ends, the entry's [lastval] is afterwards the payload
    pointer of the last update pulled from the upstream monitor (all of
    them when [monitorEvent] returns), or unchanged when none was pulled.
    A live handle that calls [start] on a successfully connected entry then
    queues an initial update that points at this [lastval]. *)
Theorem C10_lastval_is_newest c upstream w :
  ∃ pulled,
    pulled `prefix_of` upstream
    ∧ lastval (entry (world_of (monitorEvent c upstream w)))
      = default (lastval (entry w)) (pvStructurePtr <$> last pulled)
    ∧ (∀ w', monitorEvent c upstream w = Returns w' tt → pulled = upstream)
    ∧ (∀ w' it usr r v,
         w' = world_of (monitorEvent c upstream w) →
         users w' !! it = Some usr → req usr = Some r →
         isSuccess (startresult (entry w')) = true →
         lastval (entry w') = Some v →
         ∃ w'' usr' elem el,
           start it w' = Returns w'' Status_Ok
           ∧ users w'' !! it = Some usr'
           ∧ filled usr' = filled usr ++ [elem]
           ∧ elements (heap w'') !! elem = Some el
           ∧ pvStructurePtr el = Some v).
Proof.
  destruct (monitorEvent_lastval c upstream w) as (pulled & Hp & Hl & Hall).
  exists pulled. split_and!; try done.
  intros w' it usr r v -> Hu Hr Hok Hv.
  destruct (start_seeds it _ usr r v Hu Hr Hok Hv)
    as (w'' & usr' & elem & el & b & s & Hst & Hu' & _ & Hf & Hel & Hpv & _).
  by exists w'', usr', elem, el.
Qed.

(** C10 on five updates offered to handles of four buffers: both handles
    drop the fifth, and [lastval] is the fifth. *)
Lemma C10_lastval_is_newest_witness :
  lastval (entry (world_of (monitorEvent ExpiredThrows
            [sample_update 500; sample_update 503; sample_update 506;
             sample_update 509; sample_update 512] started_world)))
    = Some 512%nat
  ∧ (ndropped <$> users (world_of (monitorEvent ExpiredThrows
            [sample_update 500; sample_update 503; sample_update 506;
             sample_update 509; sample_update 512] started_world)) !! 1%nat)
    = Some 1.
Proof.
  destruct (C10_lastval_is_newest ExpiredThrows
              [sample_update 500; sample_update 503; sample_update 506;
               sample_update 509; sample_update 512] started_world)
    as (pulled & _ & Hl & Hall & _).
  rewrite (Hall _ ltac:(vm_compute; reflexivity)) in Hl.
  split; [exact Hl|vm_compute; reflexivity].
Defined.

(** * Further properties of the code *)



(** X2.  Accounting of the locked block of the fan-out (lines 113-128):
    over any sequence of calls on a handle, every update offered to it is
    either accepted or dropped, [nevents] grows by the number accepted and
    [ndropped] by the number dropped, modulo the size of the counters. *)
Theorem X2_delivery_accounting ops els usr :
  0 ≤ nevents usr < size_t_modulus → 0 ≤ ndropped usr < size_t_modulus →
  let r := run ops (els, usr) in
  (length (accepted ops r.2) + drops r.2 = length (offered ops))%nat
  ∧ nevents r.1.2 = wrap (nevents usr + Z.of_nat (length (accepted ops r.2)))
  ∧ ndropped r.1.2 = wrap (ndropped usr + Z.of_nat (drops r.2)).
Proof.
  intros Hn Hd r. subst r.
  destruct (run_accounting ops els usr) as (He & Hdr & Hsum & _).
  rewrite He, Hdr, !iter_incr by done. done.
Qed.

Lemma X2_delivery_accounting_witness :
  0 ≤ nevents (sample_user 2) < size_t_modulus
  ∧ 0 ≤ ndropped (sample_user 2) < size_t_modulus
  ∧ (let r := run burst_ops (∅, sample_user 2) in
     (length (accepted burst_ops r.2) + drops r.2 = length (offered burst_ops))%nat
     ∧ nevents r.1.2
       = wrap (nevents (sample_user 2) + Z.of_nat (length (accepted burst_ops r.2)))
     ∧ ndropped r.1.2 = wrap (ndropped (sample_user 2) + Z.of_nat (drops r.2))).
Proof.
  split; [exact size_t_zero|]. split; [exact size_t_zero|].
  apply (X2_delivery_accounting burst_ops ∅ (sample_user 2)); exact size_t_zero.
Defined.

(** X3.  [MonitorCacheEntry::monitorEvent] with live requesters (lines
    88-139): the call returns, hands every polled update back to the
    upstream monitor exactly once and in the order polled, counts one
    wakeup and one event per update, and leaves the requesters alive. *)
Theorem X3_monitorEvent_releases_each_update c upstream w :
  all_alive (interested (entry w)) w →
  0 ≤ entry_nevents (entry w) < size_t_modulus →
  ∃ w', monitorEvent c upstream w = Returns w' tt
        ∧ released (calls w') = released (calls w) ++ upstream
        ∧ entry_nevents (entry w')
          = wrap (entry_nevents (entry w) + Z.of_nat (length upstream))
        ∧ entry_nwakeups (entry w') = epicsAtomicIncrSizeT (entry_nwakeups (entry w))
        ∧ interested (entry w') = interested (entry w)
        ∧ all_alive (interested (entry w')) w'.
Proof.
  intros Ha Hn.
  destruct (monitorEvent_returns c upstream w Ha)
    as (w' & Hr & Ha' & _ & _ & Hi & Hw & He & Hrel).
  exists w'. rewrite Hi. repeat split; try done.
  by rewrite He, iter_incr.
Qed.

Lemma X3_monitorEvent_releases_each_update_witness :
  all_alive (interested (entry started_world)) started_world
  ∧ 0 ≤ entry_nevents (entry started_world) < size_t_modulus
  ∧ ∃ w', monitorEvent ExpiredThrows
            [sample_update 500; sample_update 503; sample_update 506] started_world
          = Returns w' tt
        ∧ released (calls w')
          = released (calls started_world)
            ++ [sample_update 500; sample_update 503; sample_update 506]
        ∧ entry_nevents (entry w')
          = wrap (entry_nevents (entry started_world) + Z.of_nat 3).
Proof.
  split; [exact started_world_alive|]. split; [exact size_t_zero|].
  destruct (X3_monitorEvent_releases_each_update ExpiredThrows
              [sample_update 500; sample_update 503; sample_update 506]
              started_world started_world_alive size_t_zero)
    as (w' & Hr & Hrel & He & _).
  exists w'. split; [exact Hr|]. split; [exact Hrel|exact He].
Defined.

(** X4.  After [MonitorUser::stop] or [MonitorUser::destroy] (lines
    182-189 and 240-246) the guard of line 113 turns every update away:
    the handle's elements and queues stay as they were, nothing is
    accepted, no wakeup is due, each update counts as dropped, and what was
    queued before can still be polled. *)
Theorem X4_stopped_handle_drops_everything updates els usr0 usr :
  usr = (stop usr0).1 ∨ usr = destroy usr0 →
  0 ≤ ndropped usr0 < size_t_modulus →
  let r := run (OpDeliver <$> updates) (els, usr) in
  r.1.1 = els
  ∧ empty r.1.2 = empty usr0 ∧ filled r.1.2 = filled usr0
  ∧ inuse r.1.2 = inuse usr0
  ∧ accepted (OpDeliver <$> updates) r.2 = []
  ∧ drops r.2 = length updates
  ∧ wakeups r.2 = O
  ∧ nevents r.1.2 = nevents usr0
  ∧ ndropped r.1.2 = wrap (ndropped usr0 + Z.of_nat (length updates))
  ∧ (poll r.1.2).2 = head (filled usr0).
Proof.
  intros Hu Hd r. subst r.
  assert (running usr = false ∧ empty usr = empty usr0 ∧ filled usr = filled usr0
          ∧ inuse usr = inuse usr0 ∧ nevents usr = nevents usr0
          ∧ ndropped usr = ndropped usr0) as (Hr & He & Hf & Hi & Hn & Hnd).
  { by destruct Hu as [-> | ->]. }
  destruct (run_stopped updates els usr Hr)
    as (H1 & H2 & H3 & H4 & _ & H6 & H7 & H8 & H9).
  destruct (run_accounting (OpDeliver <$> updates) els usr) as (_ & Hdr & _ & _).
  rewrite H7, Hnd, iter_incr in Hdr by done.
  rewrite H1, H2, H3, H4, H6, H7, H8, H9, He, Hf, Hi, Hn, Hdr.
  repeat split; try done.
  unfold poll. rewrite H3, Hf. by destruct (filled usr0).
Qed.

Lemma X4_stopped_handle_drops_everything_witness :
  ((stop lent_user).1 = (stop lent_user).1 ∨ (stop lent_user).1 = destroy lent_user)
  ∧ 0 ≤ ndropped lent_user < size_t_modulus
  ∧ (let r := run (OpDeliver <$> [sample_update 503; sample_update 506])
                (∅, (stop lent_user).1) in
     r.1.1 = ∅
     ∧ empty r.1.2 = empty lent_user ∧ filled r.1.2 = filled lent_user
     ∧ inuse r.1.2 = inuse lent_user
     ∧ accepted (OpDeliver <$> [sample_update 503; sample_update 506]) r.2 = []
     ∧ drops r.2 = 2%nat).
Proof.
  assert (0 ≤ ndropped lent_user < size_t_modulus) as Hd by exact size_t_zero.
  split; [by left|]. split; [exact Hd|].
  destruct (X4_stopped_handle_drops_everything
              [sample_update 503; sample_update 506] ∅ lent_user
              (stop lent_user).1 (or_introl eq_refl) Hd)
    as (H1 & H2 & H3 & H4 & H5 & H6 & _).
  by repeat split.
Defined.

(** X5.  A buffer out with the consumer (lines 248-260) is left alone:
    whatever upstream updates, restarts, stops and calls on any handle
    follow, until the consumer releases that buffer through its own
    handle, the buffer stays in [inuse] and its three pointers are not
    overwritten. *)
Theorem X5_lent_buffer_untouched c ks w it e v :
  well_owned w → lent it e v w → CallRelease it (Some e) ∉ ks →
  lent it e v (wrun c ks w).
Proof.
  revert w. induction ks as [|k ks IH]; intros w Hw Hl Hno; [done|].
  rewrite wrun_cons. apply IH.
  - by apply wstep_well_owned.
  - apply wstep_lent; [done|done|]. intros ->. apply Hno. left.
  - intros ?. apply Hno. by right.
Qed.

Lemma X5_lent_buffer_untouched_witness :
  well_owned lending_world
  ∧ lent 1%nat 3%nat (Some (sample_update 500)) lending_world
  ∧ (CallRelease 1%nat (Some 3%nat) ∉ busy_calls)
  ∧ lent 1%nat 3%nat (Some (sample_update 500))
      (wrun ExpiredThrows busy_calls lending_world).
Proof.
  assert (well_owned lending_world) as Hw.
  { apply wrun_well_owned, started_world_well_owned. }
  assert (lent 1%nat 3%nat (Some (sample_update 500)) lending_world) as Hl.
  { eexists. split; [vm_compute; reflexivity|].
    split; [|vm_compute; reflexivity].
    apply (bool_decide_unpack _). vm_compute. exact I. }
  assert (CallRelease 1%nat (Some 3%nat) ∉ busy_calls) as Hn.
  { unfold busy_calls. rewrite !not_elem_of_cons.
    repeat (split; [discriminate|]). apply not_elem_of_nil. }
  split; [exact Hw|]. split; [exact Hl|]. split; [exact Hn|].
  exact (X5_lent_buffer_untouched ExpiredThrows busy_calls lending_world
           1%nat 3%nat (Some (sample_update 500)) Hw Hl Hn).
Defined.

(** X6.  Round trip of [MonitorUser::poll] and [MonitorUser::release]
    (lines 248-277): polling the front element and releasing it leaves the
    handle as it was, with that element recycled from the front of
    [filled] to the back of [empty]; releasing the same element a second
    time always throws. *)
Theorem X6_poll_release_round_trip n usr e rest :
  pool_inv n usr → filled usr = e :: rest →
  (poll usr).2 = Some e
  ∧ release (Some e) (poll usr).1 =
      ({| req := req usr; running := running usr;
          empty := empty usr ++ [e]; filled := rest; inuse := inuse usr;
          nevents := nevents usr; ndropped := ndropped usr;
          nwakeups := nwakeups usr |}, inl tt)
  ∧ (release (Some e) (release (Some e) (poll usr).1).1).2
    = inr (invalid_argument "Can't release MonitorElement not in use")
  ∧ pool_inv n (release (Some e) (poll usr).1).1.
Proof.
  intros Hinv Hf.
  destruct (poll_release n usr e rest Hinv Hf) as [Hp Hr].
  split; [exact Hp|]. split; [exact Hr|]. split; [apply release_twice|].
  by apply release_pool_inv, poll_pool_inv.
Qed.

Lemma X6_poll_release_round_trip_witness :
  pool_inv 4 queued_user
  ∧ filled queued_user = [0%nat]
  ∧ (poll queued_user).2 = Some 0%nat
  ∧ empty (release (Some 0%nat) (poll queued_user).1).1 = [1%nat; 2%nat; 3%nat; 0%nat]
  ∧ (release (Some 0%nat) (release (Some 0%nat) (poll queued_user).1).1).2
    = inr (invalid_argument "Can't release MonitorElement not in use").
Proof.
  assert (pool_inv 4 queued_user) as Hinv.
  { apply deliver_pool_inv, sample_user_pool_inv. }
  assert (filled queued_user = [0%nat]) as Hf by reflexivity.
  split; [exact Hinv|]. split; [exact Hf|].
  destruct (X6_poll_release_round_trip 4 queued_user 0%nat [] Hinv Hf)
    as (Hp & Hr & Ht & _).
  split; [exact Hp|]. split; [by rewrite Hr|exact Ht].
Defined.



(** X8.  [MonitorCacheEntry::monitorConnect] (lines 33-71), when the
    requesters of the interested handles are alive: the call returns,
    stores the type and the start outcome, starts the upstream monitor
    only after a successful connection, logs a failed outcome once, and
    tells each interested handle exactly once, in order, the stored
    outcome.  Heap, handles, last value and counters stay as they were. *)
Theorem X8_monitorConnect_notifies_each_handle c status upstream_start structure w :
  all_alive (interested (entry w)) w →
  let result := if isSuccess status then upstream_start else status in
  monitorConnect c status upstream_start structure w =
    Returns
      {| heap := heap w;
         entry := {| typedesc := structure; startresult := result;
                     lastval := lastval (entry w);
                     interested := interested (entry w);
                     entry_nwakeups := entry_nwakeups (entry w);
                     entry_nevents := entry_nevents (entry w) |};
         users := users w;
         calls := calls w
           ++ (if isSuccess status then [monitor_start] else [])
           ++ (if isSuccess result then []
               else [cout "upstream monitor start() fails"])
           ++ concat (connect_note result structure w <$> interested (entry w)) |}
      tt.
Proof.
  intros Ha result. unfold monitorConnect. fold result. msimpl.
  destruct (isSuccess status); msimpl; destruct (isSuccess result); msimpl.
  all: rewrite foreach_connect_returns by (intros k usr Hk; cbn; by apply Ha).
  all: cbn; unfold connect_note; cbn; by rewrite <-?app_assoc.
Qed.

(** X8 on the two started handles, whose requesters 50 and 60 are alive,
    with the program's conversion: the connection succeeds and the
    upstream start fails. *)
Lemma X8_monitorConnect_notifies_each_handle_witness :
  all_alive (interested (entry started_world)) started_world
  ∧ ∃ w', monitorConnect ExpiredThrows Status_Ok
            (mkStatus STATUSTYPE_ERROR "no upstream") (Some 7%nat) started_world
          = Returns w' tt
        ∧ startresult (entry w') = mkStatus STATUSTYPE_ERROR "no upstream"
        ∧ users w' = users started_world
        ∧ calls w' = calls started_world ++
            [monitor_start;
             cout "upstream monitor start() fails";
             req_monitorConnect 50 (mkStatus STATUSTYPE_ERROR "no upstream") 1
               (Some 7%nat);
             req_monitorConnect 60 (mkStatus STATUSTYPE_ERROR "no upstream") 2
               (Some 7%nat)].
Proof.
  split; [exact started_world_alive|].
  eexists. split.
  - exact (X8_monitorConnect_notifies_each_handle ExpiredThrows Status_Ok
             (mkStatus STATUSTYPE_ERROR "no upstream") (Some 7%nat)
             started_world started_world_alive).
  - split; [reflexivity|]. split; [reflexivity|]. vm_compute. reflexivity.
Defined.

(** X9.  Who writes which field of the cache entry, over any sequence of
    calls: the list of interested handles is never changed by this file;
    [typedesc] and [startresult] are written only by [monitorConnect]
    (lines 43-49); [lastval] and the two counters only by [monitorEvent]
    (lines 91-101); and once a last value is held, updates that carry a
    payload never reset it to null. *)
Theorem X9_entry_fields_frame c ks w :
  interested (entry (wrun c ks w)) = interested (entry w)
  ∧ (Forall (λ k, is_connect k = false) ks →
     typedesc (entry (wrun c ks w)) = typedesc (entry w)
     ∧ startresult (entry (wrun c ks w)) = startresult (entry w))
  ∧ (Forall (λ k, is_event k = false) ks →
     lastval (entry (wrun c ks w)) = lastval (entry w)
     ∧ entry_nwakeups (entry (wrun c ks w)) = entry_nwakeups (entry w)
     ∧ entry_nevents (entry (wrun c ks w)) = entry_nevents (entry w))
  ∧ (payloads_present ks → is_Some (lastval (entry w)) →
     is_Some (lastval (entry (wrun c ks w)))).
Proof.
  destruct (wrun_entry_frame c ks w) as (H1 & H2 & H3).
  repeat split; try done; try (by apply H2); try (by apply H3).
  apply wrun_lastval_stays.
Qed.

(** X10.  The upstream monitor is destroyed once (lines 23-31 and
    143-153): after any number of [unlisten] calls followed by the
    destructor, the entry holds no monitor, and the monitor it held at the
    start, if any, has been destroyed exactly once; the destructor undoes
    the constructor's count of instances. *)
Theorem X10_upstream_monitor_destroyed_once k l num :
  let r := MonitorCacheEntry_destructor (Nat.iter k unlisten l) num in
  mon r.1 = None
  ∧ destroyed (link_calls r.1) = destroyed (link_calls l) ++ option_list (mon l)
  ∧ mon (unlisten l) = None
  ∧ unlisten (unlisten l) = unlisten l
  ∧ r.2 = wrap (num - 1)
  ∧ (0 ≤ num < size_t_modulus →
     (MonitorCacheEntry_destructor l (epicsAtomicIncrSizeT num)).2 = num).
Proof.
  intros r. subst r.
  destruct (lifecycle_destroys_once k l num) as [H1 H2].
  split; [exact H1|]. split; [exact H2|].
  split; [apply unlisten_once|].
  split; [unfold unlisten; destruct (mon l) eqn:E; cbn; [done|by rewrite E]|].
  split; [done|].
  intros Hn. by apply incr_decr.
Qed.

(** X11.  Buffers have one owner and one place, whatever is called (the
    whole file): if no buffer belongs to two handles and, within each
    handle, no buffer sits twice in [empty], [filled] and [inuse], then
    this stays so after any sequence of connections, updates, starts,
    restarts, polls, releases, stops and expiring requesters. *)
Theorem X11_buffers_stay_exclusive c ks w :
  well_owned w → well_owned (wrun c ks w).
Proof. apply wrun_well_owned. Qed.

Lemma X11_buffers_stay_exclusive_witness :
  well_owned started_world
  ∧ well_owned (wrun ExpiredThrows (restart_calls ++ busy_calls) started_world).
Proof.
  split; [exact started_world_well_owned|].
  exact (X11_buffers_stay_exclusive ExpiredThrows (restart_calls ++ busy_calls)
           started_world started_world_well_owned).
Defined.

(** X12.  What [MonitorUser::start] queues (lines 211-236), for a live
    requester after a successful connection.  With a last value: one more
    element at the back of [filled], carrying the last value with bit 0 of
    its own fresh changed set and an empty overrun set, three free
    buffers, and one wakeup of the requester.  Without: [filled] is left
    as it was, four distinct fresh buffers of the entry's type with empty
    bit sets are free, and the requester is not called. *)
Theorem X12_start_seeds_queue it w usr r :
  users w !! it = Some usr → req usr = Some r →
  isSuccess (startresult (entry w)) = true →
  ∃ w' usr',
    start it w = Returns w' Status_Ok
    ∧ users w' !! it = Some usr'
    ∧ running usr' = true
    ∧ inuse usr' = inuse usr
    ∧ match lastval (entry w) with
      | Some v =>
          ∃ elem b o,
            filled usr' = filled usr ++ [elem]
            ∧ length (empty usr') = 3%nat
            ∧ elements (heap w') !! elem
              = Some {| pvStructurePtr := Some v; changedBitSet := Some b;
                        overrunBitSet := Some o |}
            ∧ (next (heap w) ≤ b)%nat ∧ (next (heap w) ≤ o)%nat
            ∧ bitsets (heap w') !! b = Some {[0%nat]}
            ∧ bitsets (heap w') !! o = Some ∅
            ∧ calls w' = calls w ++ [req_monitorEvent r it]
      | None =>
          filled usr' = filled usr
          ∧ length (empty usr') = 4%nat
          ∧ NoDup (empty usr')
          ∧ (∀ e, e ∈ empty usr' →
               ∃ s b o, elements (heap w') !! e
                        = Some {| pvStructurePtr := Some s; changedBitSet := Some b;
                                  overrunBitSet := Some o |}
                      ∧ (next (heap w) ≤ s)%nat
                      ∧ structures (heap w') !! s = Some (typedesc (entry w))
                      ∧ bitsets (heap w') !! b = Some ∅
                      ∧ bitsets (heap w') !! o = Some ∅)
          ∧ calls w' = calls w
      end.
Proof.
  intros Hu Hr Hs. destruct (lastval (entry w)) as [v|] eqn:Hl.
  - destruct (start_with_lastval it w usr r v Hu Hr Hs Hl)
      as (w' & usr' & elem & b & o & H1 & H2 & H3 & H4 & H5 & H6 & H7 & H8).
    exists w', usr'. repeat split; try done. by exists elem, b, o.
  - destruct (start_without_lastval it w usr r Hu Hr Hs Hl)
      as (w' & usr' & H1 & H2 & H3 & H4 & H5 & H6 & H7 & H8 & H9).
    exists w', usr'. by repeat split.
Qed.

Lemma X12_start_seeds_queue_witness :
  users late_world !! 1%nat = Some (MonitorUser_new (Some 50%nat) 0)
  ∧ req (MonitorUser_new (Some 50%nat) 0) = Some 50%nat
  ∧ isSuccess (startresult (entry late_world)) = true
  ∧ ∃ w' usr' elem b o,
      start 1%nat late_world = Returns w' Status_Ok
      ∧ users w' !! 1%nat = Some usr'
      ∧ filled usr' = [elem]
      ∧ elements (heap w') !! elem
        = Some {| pvStructurePtr := Some 500%nat; changedBitSet := Some b;
                  overrunBitSet := Some o |}
      ∧ bitsets (heap w') !! b = Some {[0%nat]}
      ∧ calls w' = [req_monitorEvent 50 1].
Proof.
  assert (users late_world !! 1%nat = Some (MonitorUser_new (Some 50%nat) 0)) as Hu
    by (vm_compute; reflexivity).
  split; [exact Hu|]. split; [reflexivity|]. split; [reflexivity|].
  destruct (X12_start_seeds_queue 1%nat late_world _ 50%nat Hu eq_refl eq_refl)
    as (w' & usr' & H1 & H2 & _ & _ & elem & b & o & H3 & _ & H4 & _ & _ & H5 & _ & H6).
  exists w', usr', elem, b, o.
  split; [exact H1|]. split; [exact H2|]. split; [exact H3|].
  split; [exact H4|]. split; [exact H5|exact H6].
Defined.

(** X13.  Calls touch only the handles they name: over any sequence of
    calls, a handle that is neither the target of a consumer call nor, at
    an upstream update, in the list of interested handles is left exactly
    as it was; [monitorConnect] changes no handle at all. *)
Theorem X13_untargeted_handle_unchanged c ks w j :
  (∀ k, k ∈ ks → j ∉ targets w k) →
  users (wrun c ks w) !! j = users w !! j.
Proof.
  revert w. induction ks as [|k ks IH]; intros w Hj; [done|].
  rewrite wrun_cons, IH.
  - apply wstep_untouched, Hj. left.
  - intros k' Hk'. rewrite (targets_interested w) by apply wstep_interested.
    apply Hj. by right.
Qed.

Lemma X13_untargeted_handle_unchanged_witness :
  (∀ k, k ∈ quiet_calls → 2%nat ∉ targets started_world k)
  ∧ users (wrun ExpiredThrows quiet_calls started_world) !! 2%nat
    = users started_world !! 2%nat
  ∧ users (wrun ExpiredThrows quiet_calls started_world) !! 1%nat
    ≠ users started_world !! 1%nat.
Proof.
  assert (∀ k, k ∈ quiet_calls → 2%nat ∉ targets started_world k) as Hq.
  { intros k Hk. unfold quiet_calls in Hk.
    repeat (apply elem_of_cons in Hk as [->|Hk];
            [cbn; first [apply not_elem_of_nil
                        |rewrite not_elem_of_cons; split;
                         [discriminate|apply not_elem_of_nil]]|]).
    by apply elem_of_nil in Hk. }
  split; [exact Hq|].
  split; [exact (X13_untargeted_handle_unchanged ExpiredThrows quiet_calls
                   started_world 2%nat Hq)|].
  vm_compute. discriminate.
Defined.

(** X14.  Wakeups of one handle in the fan-out (lines 110-135): during
    [monitorEvent] the requester of a handle is called, and the handle's
    [nwakeups] counted, once for each update that the handle accepts onto
    an empty [filled] queue, and never otherwise. *)
Theorem X14_fanout_wakeups_counted c upstream it w usr :
  NoDup (interested (entry w)) → it ∈ interested (entry w) →
  fanout_ready (interested (entry w)) w →
  users w !! it = Some usr →
  0 ≤ nwakeups usr < size_t_modulus →
  let k := wakeups (run (OpDeliver <$> upstream) (elements (heap w), usr)).2 in
  ∃ w' usr',
    monitorEvent c upstream w = Returns w' tt
    ∧ users w' !! it = Some usr'
    ∧ wakeup_calls it (calls w') = (wakeup_calls it (calls w) + k)%nat
    ∧ nwakeups usr' = wrap (nwakeups usr + Z.of_nat k).
Proof.
  intros Hnd Hin Hf Hu Hn k. subst k.
  destruct (monitorEvent_woken c upstream it w usr Hnd Hin Hf Hu)
    as (w' & usr' & H1 & H2 & H3 & H4).
  exists w', usr'. repeat split; try done. by rewrite H4, iter_incr.
Qed.

Lemma X14_fanout_wakeups_counted_witness :
  fanout_ready (interested (entry started_world)) started_world
  ∧ users started_world !! 1%nat = Some (started_user 50 3)
  ∧ 0 ≤ nwakeups (started_user 50 3) < size_t_modulus
  ∧ ∃ w' usr',
      monitorEvent ExpiredThrows [sample_update 500; sample_update 503] started_world
        = Returns w' tt
      ∧ users w' !! 1%nat = Some usr'
      ∧ wakeup_calls 1%nat (calls w') = 1%nat
      ∧ nwakeups usr' = 1.
Proof.
  pose proof started_world_interested as Hi.
  assert (users started_world !! 1%nat = Some (started_user 50 3)) as Hu
    by (vm_compute; reflexivity).
  assert (fanout_ready (interested (entry started_world)) started_world) as Hf.
  { rewrite Hi. apply started_world_ready. }
  assert (NoDup (interested (entry started_world))) as Hnd.
  { rewrite Hi. exact NoDup_one_two. }
  assert (1%nat ∈ interested (entry started_world)) as Hin.
  { rewrite Hi. apply elem_of_cons. by left. }
  split; [exact Hf|]. split; [exact Hu|]. split; [exact size_t_zero|].
  destruct (X14_fanout_wakeups_counted ExpiredThrows
              [sample_update 500; sample_update 503] 1%nat started_world
              (started_user 50 3) Hnd Hin Hf Hu size_t_zero)
    as (w' & usr' & H1 & H2 & H3 & H4).
  exists w', usr'. split; [exact H1|]. split; [exact H2|].
  split; [rewrite H3|rewrite H4]; vm_compute; reflexivity.
Defined.
